(** * dados: instruction decomposition, routing, safety gate, orchestration
    and the GUI verify-then-act loop

    A shallow embedding of the Python sources
      src/safety_manager.py, src/executors/shell_executor.py,
      src/command_router.py, src/task_parser.py, src/context_manager.py,
      src/executors/gui_executor.py
    together with the properties of the specification that concern them.

    Modelling conventions.
    - Python [str] values are [string]s of 7-bit ASCII characters; [lower],
      [strip], [split] and the regular-expression classes [\b], [.] are the
      ASCII restrictions of the Python ones.
    - Python [dict]s whose iteration order matters are association lists in
      insertion order; the orchestrator's execution map is a [gmap].
    - Wall-clock stamps and confidences are exact rationals ([Q]); rounding
      of binary floating point is not modelled.
    - External collaborators (vision service, screenshots, subprocesses, the
      thread pool's scheduling, standard input) are explicit oracles or
      events. *)

From Stdlib Require Import ZArith QArith Qminmax Lia List Bool Ascii String.
From Stdlib Require Import DecimalString DecimalNat Relations.
From stdpp Require Import base option list gmap strings fin_maps.

Import ListNotations.
Local Open Scope string_scope.
Local Open Scope list_scope.

(* ===================================================================== *)
(** ** Python string operations on ASCII text *)
(* ===================================================================== *)

Module Text.

Definition code (c : ascii) : nat := nat_of_ascii c.

Definition is_upper (c : ascii) : bool := (65 <=? code c)%nat && (code c <=? 90)%nat.
Definition is_lower (c : ascii) : bool := (97 <=? code c)%nat && (code c <=? 122)%nat.
Definition is_digit (c : ascii) : bool := (48 <=? code c)%nat && (code c <=? 57)%nat.

(** [str.isspace] on ASCII: TAB, LF, VT, FF, CR, FS, GS, RS, US, SPACE. *)
Definition is_space (c : ascii) : bool :=
  ((9 <=? code c)%nat && (code c <=? 13)%nat)
  || ((28 <=? code c)%nat && (code c <=? 32)%nat).

(** The class [\w] of [re] on ASCII: letters, digits, underscore. *)
Definition is_word (c : ascii) : bool :=
  is_upper c || is_lower c || is_digit c || (code c =? 95)%nat.

Definition is_newline (c : ascii) : bool := (code c =? 10)%nat.

Definition lower_char (c : ascii) : ascii :=
  if is_upper c then ascii_of_nat (code c + 32) else c.

(** [s.lower()] *)
Fixpoint lower (s : string) : string :=
  match s with
  | EmptyString => EmptyString
  | String c s' => String (lower_char c) (lower s')
  end.

(** [s.lstrip()] *)
Fixpoint lstrip (s : string) : string :=
  match s with
  | EmptyString => EmptyString
  | String c s' => if is_space c then lstrip s' else s
  end.

(** [s.rstrip()]: a character is dropped when it is white space and
    everything after it has been dropped. *)
Fixpoint rstrip (s : string) : string :=
  match s with
  | EmptyString => EmptyString
  | String c s' =>
      match rstrip s' with
      | EmptyString => if is_space c then EmptyString else String c EmptyString
      | r => String c r
      end
  end.

(** [s.strip()] *)
Definition strip (s : string) : string := rstrip (lstrip s).

(** Truthiness of a [str]: non-empty. *)
Definition nonempty (s : string) : bool :=
  match s with EmptyString => false | _ => true end.

(** [sep.join(xs)] *)
Fixpoint join (sep : string) (xs : list string) : string :=
  match xs with
  | [] => EmptyString
  | [x] => x
  | x :: rest => String.append x (String.append sep (join sep rest))
  end.

(** [sub in s] *)
Fixpoint contains (sub s : string) : bool :=
  String.prefix sub s
  || match s with
     | EmptyString => false
     | String _ s' => contains sub s'
     end.

(** [s[i:j]] for [0 <= i <= j]. *)
Definition slice (s : string) (i j : nat) : string := String.substring i (j - i) s.

(** [s[i:]] *)
Definition slice_from (s : string) (i : nat) : string :=
  String.substring i (String.length s - i) s.

(** [s.replace(a, b)] for one-character [a] and [b]. *)
Fixpoint replace_char (a b : ascii) (s : string) : string :=
  match s with
  | EmptyString => EmptyString
  | String c s' => String (if Ascii.eqb c a then b else c) (replace_char a b s')
  end.

(** [s.split(sep)] for a one-character separator: empty fields are kept,
    and the empty string yields one empty field. *)
Fixpoint split_on (sep : ascii) (s : string) : list string :=
  match s with
  | EmptyString => [EmptyString]
  | String c s' =>
      if Ascii.eqb c sep then EmptyString :: split_on sep s'
      else match split_on sep s' with
           | [] => [String c EmptyString]
           | w :: ws => String c w :: ws
           end
  end.

(** [s.split()]: fields are the maximal runs of non-space characters. *)
Fixpoint split_ws_go (cur : string) (s : string) : list string :=
  match s with
  | EmptyString => if nonempty cur then [cur] else []
  | String c s' =>
      if is_space c
      then (if nonempty cur then [cur] else []) ++ split_ws_go EmptyString s'
      else split_ws_go (String.append cur (String c EmptyString)) s'
  end.

Definition split_ws (s : string) : list string := split_ws_go EmptyString s.

(** [str(i)] for a non-negative integer. *)
Definition str_of_nat (n : nat) : string := NilEmpty.string_of_uint (Nat.to_uint n).

Lemma str_of_nat_inj n m : str_of_nat n = str_of_nat m -> n = m.
Proof.
  unfold str_of_nat. intros H.
  apply (f_equal NilEmpty.uint_of_string) in H.
  rewrite !NilEmpty.usu in H. injection H as H.
  apply (f_equal Nat.of_uint) in H.
  now rewrite !DecimalNat.Unsigned.of_to in H.
Qed.

Example lower_ex : lower " YES " = " yes ".
Proof. reflexivity. Qed.

Example strip_ex : strip "  open  mail " = "open  mail".
Proof. reflexivity. Qed.

Example split_on_ex : split_on "_" "a__b_" = ["a"; ""; "b"; ""].
Proof. reflexivity. Qed.

Example split_ws_ex : split_ws " git  commit push " = ["git"; "commit"; "push"].
Proof. reflexivity. Qed.

Example contains_ex : contains "tub" "open youtube" = true /\ contains "x" "" = false.
Proof. split; reflexivity. Qed.

Example str_of_nat_ex : str_of_nat 0 = "0" /\ str_of_nat 12 = "12".
Proof. split; reflexivity. Qed.

End Text.

(* ===================================================================== *)
(** ** The fragment of Python's [re] used by the sources *)
(* ===================================================================== *)

Module Re.
Import Text.

(** Every pattern of the sources is a sequence of literals, word
    boundaries, one optional literal and greedy [.*]. *)
Inductive atom : Type :=
| Lit (c : ascii)        (* a literal character *)
| Opt (c : ascii)        (* [c?], greedy *)
| WordB                  (* [\b] *)
| DotStar.               (* [.*], greedy, [.] excludes the newline *)

Definition regex := list atom.

Fixpoint lits (s : string) : regex :=
  match s with
  | EmptyString => []
  | String c s' => Lit c :: lits s'
  end.

(** [\bw\b] *)
Definition word (w : string) : regex := WordB :: lits w ++ [WordB].

(** Literal comparison under [re.IGNORECASE]. *)
Definition same_char (c d : ascii) : bool := Ascii.eqb (lower_char c) (lower_char d).

Definition word_before (prev : option ascii) : bool :=
  match prev with Some c => is_word c | None => false end.

Definition word_after (s : string) : bool :=
  match s with String c _ => is_word c | EmptyString => false end.

(** [\b] holds between [prev] and the head of [s]. *)
Definition at_boundary (prev : option ascii) (s : string) : bool :=
  xorb (word_before prev) (word_after s).

(** [match_here r prev s]: the backtracking matcher anchored at the current
    position, [prev] being the character before it.  Returns the number
    of characters consumed by the first match in priority order. *)
Fixpoint match_here (r : regex) (prev : option ascii) (s : string) {struct r}
  : option nat :=
  match r with
  | [] => Some 0%nat
  | Lit c :: r' =>
      match s with
      | String d s' =>
          if same_char c d then S <$> match_here r' (Some d) s' else None
      | EmptyString => None
      end
  | Opt c :: r' =>
      let taken :=
        match s with
        | String d s' =>
            if same_char c d then S <$> match_here r' (Some d) s' else None
        | EmptyString => None
        end in
      match taken with
      | Some n => Some n
      | None => match_here r' prev s
      end
  | WordB :: r' =>
      if at_boundary prev s then match_here r' prev s else None
  | DotStar :: r' =>
      (fix star (prev : option ascii) (s : string) {struct s} : option nat :=
         match s with
         | String d s' =>
             if is_newline d then match_here r' prev s
             else match star (Some d) s' with
                  | Some n => Some (S n)
                  | None => match_here r' prev s
                  end
         | EmptyString => match_here r' prev s
         end) prev s
  end.

(** Leftmost match at or after the current position: [(start, end)]. *)
Fixpoint search_from (r : regex) (prev : option ascii) (s : string) (pos : nat)
  : option (nat * nat) :=
  match match_here r prev s with
  | Some n => Some (pos, (pos + n)%nat)
  | None =>
      match s with
      | String c s' => search_from r (Some c) s' (S pos)
      | EmptyString => None
      end
  end.

(** [re.search(r, s, re.IGNORECASE)] as a span. *)
Definition search (r : regex) (s : string) : option (nat * nat) :=
  search_from r None s 0.

(** [bool(re.search(r, s, re.IGNORECASE))] *)
Definition found (r : regex) (s : string) : bool :=
  match search r s with Some _ => true | None => false end.

(** [re.finditer]: successive non-overlapping matches, left to right.
    [skip] counts the characters still covered by the previous match. *)
Fixpoint finditer_from (r : regex) (prev : option ascii) (s : string)
  (pos skip : nat) {struct s} : list (nat * nat) :=
  let here := match skip with
              | O => match_here r prev s
              | S _ => None
              end in
  match here with
  | Some n =>
      (pos, (pos + n)%nat)
        :: match s with
           | String c s' => finditer_from r (Some c) s' (S pos) (Nat.pred n)
           | EmptyString => []
           end
  | None =>
      match s with
      | String c s' => finditer_from r (Some c) s' (S pos) (Nat.pred skip)
      | EmptyString => []
      end
  end.

Definition finditer (r : regex) (s : string) : list (nat * nat) :=
  finditer_from r None s 0 0.

Example search_word : search (word "then") "open mail then compose" = Some (10, 14)%nat.
Proof. reflexivity. Qed.

Example search_word_inside : search (word "and") "open sandbox" = None.
Proof. reflexivity. Qed.

Example search_ignorecase : found (word "and") "copy AND paste" = true.
Proof. reflexivity. Qed.

Example search_greedy :
  search (word "once" ++ DotStar :: word "done") "once a done b done c" = Some (0, 18)%nat.
Proof. reflexivity. Qed.

Example finditer_ex : finditer (word "and") "a and b and c" = [(2, 5); (8, 11)]%nat.
Proof. reflexivity. Qed.

(** *** Matches survive white space added around the text *)

Lemma space_not_word c : is_space c = true -> is_word c = false.
Proof. destruct c as [[] [] [] [] [] [] [] []]; vm_compute; congruence. Qed.

(** The defining equation of the matcher at [.*]. *)
Lemma match_here_dotstar r prev s :
  match_here (DotStar :: r) prev s
  = match s with
    | String d s' =>
        if is_newline d then match_here r prev s
        else match match_here (DotStar :: r) (Some d) s' with
             | Some n => Some (S n)
             | None => match_here r prev s
             end
    | EmptyString => match_here r prev s
    end.
Proof. destruct s; reflexivity. Qed.

(** The matcher looks at the preceding character only through [\b]. *)
Lemma match_here_prev r : forall prev prev' s,
  word_before prev = word_before prev' ->
  match_here r prev s = match_here r prev' s.
Proof.
  induction r as [|a r IH]; intros prev prev' s Hp; [reflexivity|].
  destruct a.
  - reflexivity.
  - cbn [match_here]. now rewrite (IH prev prev' s Hp).
  - cbn [match_here]. unfold at_boundary. now rewrite Hp, (IH prev prev' s Hp).
  - rewrite !match_here_dotstar. destruct s as [|d s']; [now apply IH|].
    now rewrite (IH prev prev' _ Hp).
Qed.

Lemma match_here_dotstar_skip r prev s n :
  match_here r prev s = Some n -> is_Some (match_here (DotStar :: r) prev s).
Proof.
  intros H. rewrite match_here_dotstar. destruct s as [|d s']; [now rewrite H|].
  destruct (is_newline d); [now rewrite H|].
  destruct (match_here (DotStar :: r) (Some d) s'); [eauto | now rewrite H].
Qed.

Lemma append_cons c s t : String.append (String c s) t = String c (String.append s t).
Proof. reflexivity. Qed.

Lemma append_nil t : String.append EmptyString t = t.
Proof. reflexivity. Qed.

(** A match is still a match when text that does not start with a word
    character is appended. *)
Lemma match_here_append (t : string) (Ht : word_after t = false) (r : regex) :
  forall prev s, is_Some (match_here r prev s) ->
                 is_Some (match_here r prev (String.append s t)).
Proof.
  induction r as [|a r IH]; intros prev s H; [cbn; eauto|].
  destruct a.
  - destruct s as [|d s']; [now destruct H|].
    rewrite append_cons. cbn [match_here] in *.
    destruct (same_char c d); [|now destruct H].
    destruct (match_here r (Some d) s') as [n|] eqn:E; [|now destruct H].
    destruct (IH (Some d) s') as [m Hm]; [rewrite E; eauto|]. rewrite Hm. cbn. eauto.
  - cbn [match_here] in *.
    assert (Hrest : is_Some (match_here r prev s) ->
                    is_Some (match_here r prev (String.append s t))) by apply IH.
    destruct s as [|d s'].
    + match goal with |- is_Some (match ?x with _ => _ end) => destruct x end; [eauto|].
      apply Hrest. exact H.
    + rewrite append_cons in *. destruct (same_char c d).
      * destruct (match_here r (Some d) s') as [n|] eqn:E.
        -- destruct (IH (Some d) s') as [m Hm]; [rewrite E; eauto|].
           rewrite Hm. cbn. eauto.
        -- cbn in H. destruct (match_here r (Some d) (String.append s' t)); cbn; [eauto|].
           apply Hrest. exact H.
      * apply Hrest. exact H.
  - cbn [match_here] in *.
    assert (Hb : at_boundary prev s = true -> at_boundary prev (String.append s t) = true).
    { unfold at_boundary. destruct s; [rewrite append_nil | rewrite append_cons; auto].
      cbn [word_after]. rewrite Ht. auto. }
    destruct (at_boundary prev s); [|now destruct H].
    rewrite Hb by reflexivity. now apply IH.
  - revert prev H. induction s as [|d s' IHs]; intros prev H.
    + rewrite match_here_dotstar in H.
      destruct (IH prev EmptyString H) as [n Hn].
      eapply match_here_dotstar_skip; eauto.
    + rewrite append_cons. rewrite match_here_dotstar in *.
      destruct (is_newline d).
      { rewrite <- append_cons. now apply IH. }
      destruct (match_here (DotStar :: r) (Some d) s') as [n|] eqn:E.
      * destruct (IHs (Some d)) as [m Hm]; [rewrite E; eauto|]. rewrite Hm. eauto.
      * destruct (match_here (DotStar :: r) (Some d) (String.append s' t)); [eauto|].
        rewrite <- append_cons. now apply IH.
Qed.

Lemma search_from_append (t : string) (Ht : word_after t = false) (r : regex) :
  forall s prev pos, is_Some (search_from r prev s pos) ->
                     is_Some (search_from r prev (String.append s t) pos).
Proof.
  induction s as [|c s IH]; intros prev pos H.
  - cbn [search_from] in H.
    destruct (match_here r prev EmptyString) as [n|] eqn:E; [|now destruct H].
    destruct (match_here_append t Ht r prev EmptyString) as [m Hm]; [rewrite E; eauto|].
    rewrite append_nil in *. destruct t; cbn [search_from]; rewrite Hm; eauto.
  - rewrite append_cons. cbn [search_from] in *.
    destruct (match_here r prev (String c s)) as [n|] eqn:E.
    + destruct (match_here_append t Ht r prev (String c s)) as [m Hm]; [rewrite E; eauto|].
      rewrite append_cons in Hm. rewrite Hm. eauto.
    + destruct (match_here r prev (String c (String.append s t))); [eauto|].
      now apply IH.
Qed.

Lemma search_from_prev r : forall s prev prev' pos pos',
  word_before prev = word_before prev' ->
  is_Some (search_from r prev s pos) -> is_Some (search_from r prev' s pos').
Proof.
  induction s as [|c s IH]; intros prev prev' pos pos' Hp H;
    cbn [search_from] in *; rewrite <- (match_here_prev r prev prev' _ Hp);
    destruct (match_here r prev _); eauto.
Qed.

Lemma found_lstrip r s : found r (lstrip s) = true -> found r s = true.
Proof.
  unfold found, search. intros H.
  assert (Hs : is_Some (search_from r None (lstrip s) 0)).
  { destruct (search_from r None (lstrip s) 0); [eauto | discriminate]. }
  clear H. enough (is_Some (search_from r None s 0)) as [x ->] by reflexivity.
  induction s as [|c s IH]; [exact Hs|].
  cbn [lstrip] in Hs. destruct (is_space c) eqn:Hc; [|exact Hs].
  cbn [search_from]. destruct (match_here r None (String c s)); [eauto|].
  apply (search_from_prev r s None (Some c) 0%nat 1%nat); [|now apply IH].
  cbn. now rewrite space_not_word.
Qed.

Lemma rstrip_append s : exists t, s = String.append (rstrip s) t /\ word_after t = false.
Proof.
  induction s as [|c s (t & Hs & Ht)].
  - exists EmptyString. split; reflexivity.
  - cbn [rstrip]. destruct (rstrip s) as [|d r] eqn:E.
    + destruct (is_space c) eqn:Hc.
      * exists (String c s). split; [reflexivity|]. cbn. now apply space_not_word.
      * exists t. split; [|exact Ht]. rewrite append_cons, <- Hs. reflexivity.
    + exists t. split; [|exact Ht]. rewrite append_cons, <- Hs. reflexivity.
Qed.

Lemma found_rstrip r s : found r (rstrip s) = true -> found r s = true.
Proof.
  unfold found, search. intros H.
  destruct (rstrip_append s) as (t & Hs & Ht).
  destruct (search_from_append t Ht r (rstrip s) None 0%nat) as [x Hx].
  { destruct (search_from r None (rstrip s) 0); [eauto | discriminate]. }
  rewrite Hs at 1. now rewrite Hx.
Qed.

(** A pattern found in the trimmed text is found in the text. *)
Lemma found_strip r s : found r (strip s) = true -> found r s = true.
Proof. unfold strip. intros H. now apply found_lstrip, found_rstrip. Qed.

End Re.


(* ===================================================================== *)
(** ** src/safety_manager.py *)
(* ===================================================================== *)

Module SafetyManager.
Import Text Re.

(** [self.dangerous_patterns] *)
Definition dangerous_patterns : list regex :=
  [ WordB :: lits "rm" ++ WordB :: DotStar :: lits "-rf";          (* \brm\b.*-rf *)
    word "killall";                                                (* \bkillall\b *)
    word "shutdown";                                               (* \bshutdown\b *)
    word "reboot";                                                 (* \breboot\b *)
    word "sudo" ++ DotStar :: word "rm";                           (* \bsudo\b.*\brm\b *)
    WordB :: lits "dd" ++ WordB :: DotStar :: lits "if=";          (* \bdd\b.*if= *)
    word "mkfs";                                                   (* \bmkfs\b *)
    word "format" ].                                               (* \bformat\b *)

(** [self.blocked_commands] *)
Definition blocked_commands : list string :=
  [ "rm -rf /"; "sudo rm -rf /"; "format c:" ].

(** [' '.join(cmd).lower()] *)
Definition cmd_str (cmd : list string) : string := lower (join " " cmd).

(** [cmd_str in self.blocked_commands] *)
Definition is_blocked (s : string) : bool := existsb (String.eqb s) blocked_commands.

(** [any(re.search(pattern, cmd_str, re.IGNORECASE) for pattern in ...)] *)
Definition is_dangerous (s : string) : bool :=
  existsb (fun pattern => found pattern s) dangerous_patterns.

(** [SafetyManager.requires_confirmation] *)
Fixpoint requires_confirmation (commands : list (list string)) : bool :=
  match commands with
  | [] => false
  | cmd :: rest =>
      let s := cmd_str cmd in
      if is_blocked s then true
      else if is_dangerous s then true
      else requires_confirmation rest
  end.

(** [SafetyManager.get_confirmation_prompt]; the two warning signs of the
    banner are outside ASCII and are left out of the model. *)
Definition get_confirmation_prompt (commands : list (list string)) : string :=
  let nl := String (ascii_of_nat 10) EmptyString in
  let cmd_list := join nl (map (fun cmd => String.append "  " (join " " cmd)) commands) in
  String.append nl
   (String.append "  DANGEROUS OPERATION DETECTED " (String.append nl
   (String.append nl
   (String.append "The following commands will be executed:" (String.append nl
   (String.append cmd_list (String.append nl
   (String.append nl
   (String.append "This could potentially harm your system or data." (String.append nl
    "Type 'yes' to confirm, or anything else to cancel: ")))))))))).

(** [SafetyManager.filter_safe_commands] *)
Fixpoint filter_safe_commands (commands : list (list string)) : list (list string) :=
  match commands with
  | [] => []
  | cmd :: rest =>
      let s := cmd_str cmd in
      if negb (is_blocked s)
      then if negb (is_dangerous s)
           then cmd :: filter_safe_commands rest
           else filter_safe_commands rest
      else filter_safe_commands rest
  end.

Example requires_confirmation_rm : requires_confirmation [["rm"; "-rf"; "/"]] = true.
Proof. reflexivity. Qed.

Example requires_confirmation_ls : requires_confirmation [["ls"; "-la"]] = false.
Proof. reflexivity. Qed.

Example requires_confirmation_case : requires_confirmation [["ls"]; ["SUDO"; "apt"; "rm"]] = true.
Proof. reflexivity. Qed.

Example filter_safe_commands_ex :
  filter_safe_commands [["ls"]; ["rm"; "-rf"; "x"]; ["echo"; "hi"]; ["reboot"]]
  = [["ls"]; ["echo"; "hi"]].
Proof. reflexivity. Qed.

(** One command alone triggers the gate exactly when it is blocked or
    dangerous. *)
Lemma requires_confirmation_single cmd :
  requires_confirmation [cmd] = is_blocked (cmd_str cmd) || is_dangerous (cmd_str cmd).
Proof.
  cbn [requires_confirmation].
  destruct (is_blocked (cmd_str cmd)); [reflexivity|].
  destruct (is_dangerous (cmd_str cmd)); reflexivity.
Qed.

Lemma requires_confirmation_cons cmd rest :
  requires_confirmation (cmd :: rest)
  = requires_confirmation [cmd] || requires_confirmation rest.
Proof.
  rewrite requires_confirmation_single. cbn [requires_confirmation].
  destruct (is_blocked (cmd_str cmd)); [reflexivity|].
  destruct (is_dangerous (cmd_str cmd)); reflexivity.
Qed.

Lemma filter_safe_commands_cons cmd rest :
  filter_safe_commands (cmd :: rest)
  = if requires_confirmation [cmd] then filter_safe_commands rest
    else cmd :: filter_safe_commands rest.
Proof.
  rewrite requires_confirmation_single. cbn [filter_safe_commands].
  destruct (is_blocked (cmd_str cmd)); [reflexivity|].
  destruct (is_dangerous (cmd_str cmd)); reflexivity.
Qed.

(** C10. For every list of token-command lists, [filter_safe_commands]
    returns a subsequence of its input, [requires_confirmation] of its
    output is false, and the entries it keeps are exactly the input entries
    that do not trigger the confirmation gate on their own. *)
Theorem filter_safe_commands_passes_gate (commands : list (list string)) :
  sublist (filter_safe_commands commands) commands
  /\ requires_confirmation (filter_safe_commands commands) = false
  /\ (forall cmd, In cmd (filter_safe_commands commands)
                  <-> In cmd commands /\ requires_confirmation [cmd] = false).
Proof.
  induction commands as [|c rest (Hsub & Hgate & Hmem)].
  - split; [constructor|]. split; [reflexivity|].
    intros cmd. cbn [filter_safe_commands In]. tauto.
  - rewrite filter_safe_commands_cons.
    destruct (requires_confirmation [c]) eqn:Hc.
    + split; [now apply sublist_cons|]. split; [exact Hgate|].
      intros cmd. rewrite Hmem. cbn [In]. split.
      * intros [Hin Hq]. auto.
      * intros [[-> | Hin] Hq]; [congruence | auto].
    + split; [now apply sublist_skip|]. split.
      * rewrite requires_confirmation_cons, Hc, Hgate. reflexivity.
      * intros cmd. cbn [In]. rewrite Hmem. split.
        -- intros [-> | [Hin Hq]]; auto.
        -- intros [[-> | Hin] Hq]; auto.
Qed.

(** *** Further properties of the safety gate *)

(** The test made on one command. *)
Definition flagged (cmd : list string) : bool :=
  is_blocked (cmd_str cmd) || is_dangerous (cmd_str cmd).

Lemma requires_confirmation_existsb commands :
  requires_confirmation commands = existsb flagged commands.
Proof.
  induction commands as [|cmd rest IH]; [reflexivity|].
  rewrite requires_confirmation_cons, requires_confirmation_single, IH. reflexivity.
Qed.

Lemma existsb_reverse {A} (f : A -> bool) (l : list A) :
  existsb f (rev l) = existsb f l.
Proof.
  induction l as [|a l IH]; [reflexivity|].
  cbn [rev existsb]. rewrite existsb_app, IH. cbn. rewrite orb_false_r. apply orb_comm.
Qed.

(** X5. A batch requires confirmation exactly when one of its commands
    does on its own; so the answer does not depend on the order of the
    commands, and joining two batches joins their answers. *)
Theorem requires_confirmation_some_command (commands more : list (list string)) :
  (requires_confirmation commands = true
   <-> exists cmd, In cmd commands /\ requires_confirmation [cmd] = true)
  /\ requires_confirmation (commands ++ more)
     = requires_confirmation commands || requires_confirmation more
  /\ requires_confirmation (rev commands) = requires_confirmation commands.
Proof.
  rewrite !requires_confirmation_existsb. repeat apply conj.
  - rewrite existsb_exists. intros (cmd & Hin & Hf). exists cmd.
    now rewrite requires_confirmation_single.
  - intros (cmd & Hin & Hf). apply existsb_exists. exists cmd.
    now rewrite requires_confirmation_single in Hf.
  - apply existsb_app.
  - apply existsb_reverse.
Qed.

Lemma filter_safe_commands_filter commands :
  filter_safe_commands commands = List.filter (fun cmd => negb (flagged cmd)) commands.
Proof.
  induction commands as [|cmd rest IH]; [reflexivity|].
  rewrite filter_safe_commands_cons, requires_confirmation_single, IH.
  cbn [List.filter]. unfold flagged. now destruct (_ || _).
Qed.

Lemma filter_length_le {A} (f : A -> bool) (l : list A) :
  (length (List.filter f l) <= length l)%nat.
Proof. induction l as [|a l IH]; cbn; [lia|]. destruct (f a); cbn; lia. Qed.

Lemma filter_id_iff {A} (f : A -> bool) (l : list A) :
  List.filter f l = l <-> forallb f l = true.
Proof.
  induction l as [|a l IH]; cbn; [tauto|].
  destruct (f a) eqn:Ha; cbn.
  - rewrite <- IH. split; [now intros [= ->] | now intros ->].
  - split; [|discriminate]. intros H.
    pose proof (filter_length_le f l) as Hle.
    apply (f_equal (@length A)) in H. cbn in H. lia.
Qed.

(** X6. [filter_safe_commands] leaves a batch unchanged exactly when the
    batch does not require confirmation; applying it twice is the same as
    applying it once. *)
Theorem filter_safe_commands_fixes_safe (commands : list (list string)) :
  (filter_safe_commands commands = commands <-> requires_confirmation commands = false)
  /\ filter_safe_commands (filter_safe_commands commands) = filter_safe_commands commands.
Proof.
  rewrite !filter_safe_commands_filter, requires_confirmation_existsb. split.
  - rewrite filter_id_iff. rewrite <- negb_true_iff.
    assert (H : negb (existsb flagged commands)
                = forallb (fun cmd => negb (flagged cmd)) commands).
    { induction commands as [|c l IH]; [reflexivity|]. cbn. now rewrite negb_orb, IH. }
    now rewrite H.
  - induction commands as [|c l IH]; [reflexivity|].
    cbn [List.filter]. destruct (negb (flagged c)) eqn:Hc; [|exact IH].
    cbn [List.filter]. now rewrite Hc, IH.
Qed.

(** [lower] and the string operations. *)
Lemma lower_append a b : lower (String.append a b) = String.append (lower a) (lower b).
Proof.
  induction a as [|c a IH]; [reflexivity|].
  rewrite !append_cons. cbn [lower]. now rewrite append_cons, IH.
Qed.

Lemma lower_join_space xs : lower (join " " xs) = join " " (map lower xs).
Proof.
  induction xs as [|x [|y rest] IH]; [reflexivity | reflexivity |].
  change (join " " (x :: y :: rest))
    with (String.append x (String.append " " (join " " (y :: rest)))).
  change (join " " (map lower (x :: y :: rest)))
    with (String.append (lower x) (String.append " " (join " " (map lower (y :: rest))))).
  now rewrite !lower_append, IH.
Qed.

(** X7. The gate is blind to the case of the tokens: two batches whose
    tokens agree once lowercased get the same answer. *)
Theorem requires_confirmation_ignores_case (a b : list (list string)) :
  map (map lower) a = map (map lower) b ->
  requires_confirmation a = requires_confirmation b.
Proof.
  intros H. rewrite !requires_confirmation_existsb.
  assert (Hstr : forall l, existsb flagged l
                           = existsb (fun s => is_blocked s || is_dangerous s)
                                     (map (join " ") (map (map lower) l))).
  { induction l as [|c l IH]; [reflexivity|]. cbn [map existsb].
    rewrite <- IH. unfold flagged, cmd_str. now rewrite lower_join_space. }
  now rewrite !Hstr, H.
Qed.

Lemma requires_confirmation_ignores_case_witness :
  requires_confirmation [["RM"; "-RF"; "Build"]] = requires_confirmation [["rm"; "-rf"; "build"]].
Proof.
  apply (requires_confirmation_ignores_case [["RM"; "-RF"; "Build"]] [["rm"; "-rf"; "build"]]).
  reflexivity.
Defined.

(** *** The confirmation prompt *)

Lemma prefix_append a b : String.prefix a (String.append a b) = true.
Proof.
  induction a as [|c a IH]; [now destruct b|].
  rewrite append_cons. cbn. destruct (ascii_dec c c); [exact IH | contradiction].
Qed.

Lemma contains_here sub b : contains sub (String.append sub b) = true.
Proof.
  destruct (String.append sub b) eqn:E; cbn [contains];
    rewrite <- E, prefix_append; reflexivity.
Qed.

Lemma contains_skip sub a s : contains sub s = true -> contains sub (String.append a s) = true.
Proof.
  intros H. induction a as [|c a IH]; [exact H|].
  rewrite append_cons. cbn [contains]. rewrite IH. apply orb_true_r.
Qed.

Lemma contains_middle sub a b :
  contains sub (String.append a (String.append sub b)) = true.
Proof. apply contains_skip, contains_here. Qed.

Lemma append_assoc a b c :
  String.append (String.append a b) c = String.append a (String.append b c).
Proof.
  induction a as [|x a IH]; [reflexivity|]. rewrite !append_cons. now rewrite IH.
Qed.

Lemma append_empty_r a : String.append a EmptyString = a.
Proof. induction a as [|x a IH]; [reflexivity|]. rewrite append_cons. now rewrite IH. Qed.

(** A joined text holds each of its parts. *)
Lemma join_holds sep x xs :
  In x xs -> exists a b, join sep xs = String.append a (String.append x b).
Proof.
  induction xs as [|y [|z rest] IH]; intros Hin; [destruct Hin | |].
  - destruct Hin as [<- | []]. exists EmptyString, EmptyString.
    cbn [join]. now rewrite append_nil, append_empty_r.
  - change (join sep (y :: z :: rest))
      with (String.append y (String.append sep (join sep (z :: rest)))).
    destruct Hin as [<- | Hin].
    + exists EmptyString. eexists. rewrite append_nil. reflexivity.
    + destruct (IH Hin) as (a & b & ->).
      exists (String.append y (String.append sep a)), b.
      now rewrite !append_assoc.
Qed.

(** X8. The confirmation prompt lists every command of the batch
    verbatim: for each command, the prompt contains its tokens joined by
    single spaces, behind two spaces of indentation. *)
Theorem prompt_lists_every_command (commands : list (list string)) (cmd : list string) :
  In cmd commands ->
  contains (String.append "  " (join " " cmd)) (get_confirmation_prompt commands) = true.
Proof.
  intros Hin. unfold get_confirmation_prompt.
  destruct (join_holds (String (ascii_of_nat 10) EmptyString)
              (String.append "  " (join " " cmd))
              (map (fun c => String.append "  " (join " " c)) commands)) as (a & b & ->).
  { apply in_map_iff. exists cmd. auto. }
  do 6 apply (contains_skip (String.append "  " (join " " cmd))).
  rewrite (append_assoc a). apply (contains_skip (String.append "  " (join " " cmd))).
  rewrite (append_assoc (String.append "  " (join " " cmd)) b). apply contains_here.
Qed.

Lemma prompt_lists_every_command_witness :
  contains (String.append "  " (join " " ["rm"; "-rf"; "build"]))
           (get_confirmation_prompt [["ls"]; ["rm"; "-rf"; "build"]]) = true.
Proof.
  apply (prompt_lists_every_command [["ls"]; ["rm"; "-rf"; "build"]] ["rm"; "-rf"; "build"]).
  right. left. reflexivity.
Defined.

(** *** What the first pattern catches *)

Fixpoint no_newline (s : string) : bool :=
  match s with
  | EmptyString => true
  | String c s' => negb (is_newline c) && no_newline s'
  end.

(** The character before the end of [a], [prev] when [a] is empty. *)
Fixpoint last_char (prev : option ascii) (a : string) : option ascii :=
  match a with
  | EmptyString => prev
  | String c a' => last_char (Some c) a'
  end.

(** A match that starts after [a] is found by the search. *)
Lemma search_from_skip r s : forall a prev pos,
  is_Some (match_here r (last_char prev a) s) ->
  is_Some (search_from r prev (String.append a s) pos).
Proof.
  induction a as [|c a IH]; intros prev pos [n Hn].
  - rewrite append_nil. cbn [last_char] in Hn.
    destruct s; cbn [search_from]; rewrite Hn; eauto.
  - rewrite append_cons. cbn [search_from].
    destruct (match_here r prev (String c (String.append a s))); [eauto|].
    apply IH. cbn [last_char] in Hn. eauto.
Qed.

(** [.*] runs over text without a newline. *)
Lemma dotstar_reach r s : forall b prev,
  no_newline b = true ->
  (forall p, is_Some (match_here r p s)) ->
  is_Some (match_here (DotStar :: r) prev (String.append b s)).
Proof.
  induction b as [|c b IH]; intros prev Hb Hs.
  - rewrite append_nil. destruct (Hs prev) as [n Hn].
    now apply (match_here_dotstar_skip r prev s n).
  - rewrite append_cons, match_here_dotstar. cbn [no_newline] in Hb.
    apply andb_true_iff in Hb as [Hc Hb]. apply negb_true_iff in Hc. rewrite Hc.
    destruct (IH (Some c) Hb Hs) as [n ->]. eauto.
Qed.

Definition rm_rf_pattern : regex := WordB :: lits "rm" ++ WordB :: DotStar :: lits "-rf".

Lemma match_lit c d r prev s :
  same_char c d = true -> is_Some (match_here r (Some d) s) ->
  is_Some (match_here (Lit c :: r) prev (String d s)).
Proof. intros Hc [n Hn]. cbn [match_here]. rewrite Hc, Hn. cbn. eauto. Qed.

Lemma match_wordb r prev s :
  at_boundary prev s = true -> is_Some (match_here r prev s) ->
  is_Some (match_here (WordB :: r) prev s).
Proof. intros Hb H. cbn [match_here]. now rewrite Hb. Qed.

Lemma rm_rf_found a b c :
  word_before (last_char None a) = false ->
  no_newline b = true ->
  found rm_rf_pattern
    (String.append a (String.append "rm"
       (String.append " " (String.append b (String.append "-rf" c))))) = true.
Proof.
  intros Ha Hb. unfold found, search.
  destruct (search_from_skip rm_rf_pattern
              (String.append "rm" (String.append " " (String.append b (String.append "-rf" c))))
              a None 0%nat) as [x ->]; [|reflexivity].
  unfold rm_rf_pattern. cbn [lits app].
  rewrite (append_cons "r"), (append_cons "m"), append_nil, (append_cons " "), append_nil.
  apply match_wordb; [unfold at_boundary; now rewrite Ha|].
  apply match_lit; [reflexivity|]. apply match_lit; [reflexivity|].
  apply match_wordb; [reflexivity|].
  rewrite <- append_cons. apply dotstar_reach.
  - cbn [no_newline]. now rewrite Hb.
  - intros p. rewrite !append_cons, append_nil. cbn. eauto.
Qed.

(** The text before and after one part of a joined text. *)
Definition before_part (xs : list string) : string :=
  match xs with
  | [] => EmptyString
  | _ => String.append (join " " xs) " "
  end.

Definition after_part (ys : list string) : string :=
  match ys with
  | [] => EmptyString
  | _ => String.append " " (join " " ys)
  end.

Lemma join_cons_after y ys : join " " (y :: ys) = String.append y (after_part ys).
Proof. destruct ys; [cbn; now rewrite append_empty_r | reflexivity]. Qed.

Lemma join_split xs : forall y ys,
  join " " (xs ++ y :: ys)
  = String.append (before_part xs) (String.append y (after_part ys)).
Proof.
  induction xs as [|x xs IH]; intros y ys.
  - cbn [app before_part]. rewrite append_nil. apply join_cons_after.
  - change ((x :: xs) ++ y :: ys) with (x :: (xs ++ y :: ys)).
    rewrite join_cons_after.
    assert (Hne : after_part (xs ++ y :: ys)
                  = String.append " " (join " " (xs ++ y :: ys))) by now destruct xs.
    rewrite Hne, IH. unfold before_part at 2. rewrite join_cons_after.
    destruct xs as [|x' xs].
    + cbn [before_part after_part]. now rewrite append_nil, append_empty_r, !append_assoc.
    + assert (Hb : before_part (x' :: xs) = String.append (join " " (x' :: xs)) " ")
        by reflexivity.
      assert (Ha : after_part (x' :: xs) = String.append " " (join " " (x' :: xs)))
        by reflexivity.
      rewrite Hb, Ha, !append_assoc. reflexivity.
Qed.

Lemma last_char_append a b prev :
  last_char prev (String.append a b) = last_char (last_char prev a) b.
Proof.
  revert prev. induction a as [|c a IH]; intros prev; [reflexivity|].
  rewrite append_cons. cbn [last_char]. apply IH.
Qed.

Lemma before_part_boundary xs : word_before (last_char None (before_part xs)) = false.
Proof.
  destruct xs as [|x xs]; [reflexivity|].
  unfold before_part. now rewrite last_char_append.
Qed.

Lemma no_newline_append a b :
  no_newline (String.append a b) = no_newline a && no_newline b.
Proof.
  induction a as [|c a IH]; [reflexivity|].
  rewrite append_cons. cbn [no_newline]. now rewrite IH, andb_assoc.
Qed.

Lemma lower_char_newline c : is_newline (lower_char c) = is_newline c.
Proof. destruct c as [[] [] [] [] [] [] [] []]; reflexivity. Qed.

Lemma no_newline_lower s : no_newline (lower s) = no_newline s.
Proof.
  induction s as [|c s IH]; [reflexivity|].
  cbn [lower no_newline]. now rewrite lower_char_newline, IH.
Qed.

Lemma no_newline_join xs :
  Forall (fun t => no_newline t = true) xs -> no_newline (join " " xs) = true.
Proof.
  induction 1 as [|x xs Hx Hxs IH]; [reflexivity|].
  rewrite join_cons_after, no_newline_append, Hx. cbn [andb].
  destruct xs; [reflexivity|]. unfold after_part. now rewrite no_newline_append, IH.
Qed.

Lemma no_newline_before_part xs :
  Forall (fun t => no_newline t = true) xs -> no_newline (before_part xs) = true.
Proof.
  intros H. destruct xs as [|x xs]; [reflexivity|].
  unfold before_part. now rewrite no_newline_append, (no_newline_join _ H).
Qed.

(** X9. A command with a token [rm] (in any case) followed, after tokens
    without line breaks, by a token [-rf] always triggers the gate: a batch
    that holds such a command requires confirmation, and
    [filter_safe_commands] drops the command. *)
Theorem rm_rf_is_caught (commands : list (list string))
  (pre : list string) (rm : string) (mid : list string) (rf : string)
  (post : list string) :
  lower rm = "rm" ->
  lower rf = "-rf" ->
  Forall (fun t => no_newline t = true) mid ->
  In (pre ++ rm :: mid ++ rf :: post) commands ->
  requires_confirmation commands = true
  /\ ~ In (pre ++ rm :: mid ++ rf :: post) (filter_safe_commands commands).
Proof.
  intros Hrm Hrf Hmid Hin.
  assert (Hflag : flagged (pre ++ rm :: mid ++ rf :: post) = true).
  { unfold flagged. apply orb_true_iff. right.
    unfold is_dangerous, dangerous_patterns. cbn [existsb].
    apply orb_true_iff. left. fold rm_rf_pattern.
    unfold cmd_str. rewrite lower_join_space, map_app. cbn [map].
    rewrite map_app. cbn [map]. rewrite Hrm, Hrf.
    rewrite join_split.
    assert (Hafter : after_part (map lower mid ++ "-rf" :: map lower post)
                     = String.append " " (join " " (map lower mid ++ "-rf" :: map lower post)))
      by now destruct (map lower mid).
    rewrite Hafter, join_split.
    apply rm_rf_found; [apply before_part_boundary|].
    apply no_newline_before_part. apply Forall_fmap.
    eapply Forall_impl; [exact Hmid|]. intros t Ht. cbn. now rewrite no_newline_lower. }
  split.
  - rewrite requires_confirmation_existsb. apply existsb_exists. eauto.
  - rewrite filter_safe_commands_filter, filter_In. intros [_ H].
    rewrite Hflag in H. discriminate.
Qed.

Lemma rm_rf_is_caught_witness :
  requires_confirmation [["ls"]; ["sudo"; "RM"; "-v"; "-rf"; "/"]] = true
  /\ ~ In ["sudo"; "RM"; "-v"; "-rf"; "/"]
          (filter_safe_commands [["ls"]; ["sudo"; "RM"; "-v"; "-rf"; "/"]]).
Proof.
  apply (rm_rf_is_caught [["ls"]; ["sudo"; "RM"; "-v"; "-rf"; "/"]]
           ["sudo"] "RM" ["-v"] "-rf" ["/"]).
  - reflexivity.
  - reflexivity.
  - repeat constructor.
  - right. left. reflexivity.
Defined.

End SafetyManager.


(* ===================================================================== *)
(** ** src/executors/shell_executor.py *)
(* ===================================================================== *)

Module ShellExecutor.
Import Text.

(** A command is a pre-tokenised list or a shell line. *)
Inductive command : Type :=
| Tokens (ts : list string)
| ShellLine (line : string).

(** What [subprocess.run] does: it returns a completed process or raises. *)
Inductive proc_outcome : Type :=
| Exited (returncode : Z) (stdout stderr : string)
| ProcRaised (msg : string).

(** What [input(prompt)] does: it returns a line or raises. *)
Inductive console_input : Type :=
| Line (s : string)
| EOFError
| KeyboardInterrupt.

(** One entry of [results]. *)
Record cmd_result : Type := CmdResult {
  cmd : list string;
  cwd : string;
  returncode : Z;
  stdout : string;
  stderr : string
}.

(** The second component of the value of [run]. *)
Record details : Type := Details {
  results : list cmd_result;
  error : option string
}.

(** The observable effects of [run]: prompts written to the console and
    processes launched, oldest first. *)
Record world : Type := World {
  prompts : list string;
  launched : list (list string * string)
}.

Definition show_prompt (p : string) (w : world) : world :=
  {| prompts := prompts w ++ [p]; launched := launched w |}.

Definition launch (tokens : list string) (dir : string) (w : world) : world :=
  {| prompts := prompts w; launched := launched w ++ [(tokens, dir)] |}.

Section Run.

(** The libraries the executor calls. *)
Variable shlex_split : string -> list string.
Variable path_join : string -> string -> string.       (* str(Path(a) / b) *)
Variable is_absolute : string -> bool.                 (* Path(p).is_absolute() *)
Variable subprocess_run : world -> list string -> string -> proc_outcome.

(** [ShellExecutor._to_tokens] *)
Definition _to_tokens (c : command) : list string :=
  match c with
  | Tokens ts => ts
  | ShellLine line => shlex_split line
  end.

(** Truthiness of a list. *)
Definition truthy {A} (l : list A) : bool :=
  match l with [] => false | _ => true end.

(** [[self._to_tokens(cmd) for cmd in commands if self._to_tokens(cmd)]] *)
Definition token_commands (commands : list command) : list (list string) :=
  List.filter truthy (map _to_tokens commands).

(** [str(cwd or self.base_cwd or ".")] *)
Definition start_cwd (cwd base_cwd : option string) : string :=
  match cwd with
  | Some d => if nonempty d then d else
      match base_cwd with
      | Some b => if nonempty b then b else "."
      | None => "."
      end
  | None =>
      match base_cwd with
      | Some b => if nonempty b then b else "."
      | None => "."
      end
  end.

(** The loop [for cmd in commands] of [run], with its variables
    [cur_cwd], [results] and [all_ok]. *)
Fixpoint run_loop (commands : list command) (cur_cwd : string)
  (acc : list cmd_result) (all_ok : bool) (w : world)
  : world * (bool * details) :=
  match commands with
  | [] => (w, (all_ok, Details acc None))
  | c :: rest =>
      let tokens := _to_tokens c in
      match tokens with
      | [] => run_loop rest cur_cwd acc all_ok w
      | t0 :: args =>
          if String.eqb t0 "cd" then
            let new_dir := match args with d :: _ => d | [] => "." end in
            let cur_cwd' :=
              if negb (is_absolute new_dir) then path_join cur_cwd new_dir
              else new_dir in
            run_loop rest cur_cwd'
              (acc ++ [CmdResult tokens cur_cwd' 0 "" ""]) all_ok w
          else
            let w' := launch tokens cur_cwd w in
            match subprocess_run w tokens cur_cwd with
            | Exited rc out err =>
                let ok := (rc =? 0)%Z in
                run_loop rest cur_cwd
                  (acc ++ [CmdResult tokens cur_cwd rc out err]) (all_ok && ok) w'
            | ProcRaised msg =>
                run_loop rest cur_cwd
                  (acc ++ [CmdResult tokens cur_cwd (-1) "" msg]) false w'
            end
      end
  end.

Definition cancelled : bool * details :=
  (false, Details [] (Some "User cancelled dangerous operation")).

(** [ShellExecutor.run]; [stdin] is what [input] will do if it is called. *)
Definition run (base_cwd : option string) (commands : list command)
  (cwd : option string) (interactive : bool) (stdin : console_input) (w : world)
  : world * (bool * details) :=
  let cur_cwd := start_cwd cwd base_cwd in
  let tcs := token_commands commands in
  if interactive && SafetyManager.requires_confirmation tcs then
    let prompt := SafetyManager.get_confirmation_prompt tcs in
    let w1 := show_prompt prompt w in
    match stdin with
    | Line s =>
        let response := lower (strip s) in
        if negb (String.eqb response "yes") then (w1, cancelled)
        else run_loop commands cur_cwd [] true w1
    | EOFError | KeyboardInterrupt => (w1, cancelled)
    end
  else run_loop commands cur_cwd [] true w.

(** The safety gate fires: the call is interactive and the batch requires
    confirmation. *)
Definition gate_fires (commands : list command) (interactive : bool) : bool :=
  interactive && SafetyManager.requires_confirmation (token_commands commands).

(** A response confirms when it is [yes] once stripped and lowercased. *)
Definition confirms (stdin : console_input) : bool :=
  match stdin with
  | Line s => String.eqb (lower (strip s)) "yes"
  | _ => false
  end.

(** When the gate fires and the response does not confirm, the batch is
    cancelled: nothing is launched and the cancellation result is returned. *)
Lemma run_cancel base_cwd commands cwd interactive stdin w :
  gate_fires commands interactive = true ->
  confirms stdin = false ->
  run base_cwd commands cwd interactive stdin w
  = (show_prompt (SafetyManager.get_confirmation_prompt (token_commands commands)) w,
     cancelled).
Proof.
  unfold gate_fires, confirms, run. intros -> Hc.
  destruct stdin as [s| |]; try reflexivity.
  rewrite Hc. reflexivity.
Qed.

(** When the gate fires and the response confirms, the batch runs. *)
Lemma run_confirm base_cwd commands cwd interactive stdin w :
  gate_fires commands interactive = true ->
  confirms stdin = true ->
  run base_cwd commands cwd interactive stdin w
  = run_loop commands (start_cwd cwd base_cwd) [] true
      (show_prompt (SafetyManager.get_confirmation_prompt (token_commands commands)) w).
Proof.
  unfold gate_fires, confirms, run. intros -> Hc.
  destruct stdin as [s| |]; try discriminate.
  rewrite Hc. reflexivity.
Qed.

(** The commands of a batch that start a process: neither empty nor [cd]. *)
Definition starts_process (ts : list string) : bool :=
  match ts with
  | [] => false
  | t0 :: _ => negb (String.eqb t0 "cd")
  end.

(** The loop launches every command that is neither empty nor [cd], in
    order, and nothing else. *)
Lemma run_loop_launched commands : forall cur acc ok w,
  map fst (launched (fst (run_loop commands cur acc ok w)))
  = map fst (launched w) ++ List.filter starts_process (map _to_tokens commands).
Proof.
  induction commands as [|c rest IH]; intros cur acc ok w.
  - cbn. now rewrite app_nil_r.
  - cbn [run_loop map List.filter]. destruct (_to_tokens c) as [|t0 args] eqn:Ht.
    + cbn [starts_process]. apply IH.
    + cbn [starts_process]. destruct (String.eqb t0 "cd").
      * cbn [negb]. apply IH.
      * cbn [negb].
        destruct (subprocess_run w (t0 :: args) cur) as [rc out err|msg];
          rewrite IH; cbn [launch launched]; rewrite map_app, <- app_assoc; reflexivity.
Qed.

End Run.

(** The stand-ins used to evaluate [run] on concrete batches: no shell
    lines, relative directories joined as [pathlib] does (a leading [.] is
    dropped), every process exits with status 0. *)
Definition no_shlex (line : string) : list string := [line].
Definition join_slash (a b : string) : string :=
  if String.eqb a "." then b else String.append a (String.append "/" b).
Definition never_absolute (p : string) : bool := false.
Definition always_exits_0 (w : world) (tokens : list string) (dir : string) : proc_outcome :=
  Exited 0 "" "".

Example run_safe_batch :
  run no_shlex join_slash never_absolute always_exits_0 None
      [Tokens ["cd"; "src"]; Tokens ["ls"; "-la"]] None true EOFError (World [] [])
  = (World [] [(["ls"; "-la"], "src")],
     (true, Details [CmdResult ["cd"; "src"] "src" 0 "" "";
                     CmdResult ["ls"; "-la"] "src" 0 "" ""] None)).
Proof. reflexivity. Qed.

(** C5 as stated fails: the response [YES], which is not the string [yes],
    confirms the batch, and the dangerous command is launched. *)
Lemma run_uppercase_yes_confirms :
  let batch := [Tokens ["rm"; "-rf"; "build"]] in
  let r := run no_shlex join_slash never_absolute always_exits_0 None
               batch None true (Line " YES ") (World [] []) in
  " YES " <> "yes"
  /\ gate_fires no_shlex batch true = true
  /\ launched (fst r) = [(["rm"; "-rf"; "build"], ".")]
  /\ snd r = (true, Details [CmdResult ["rm"; "-rf"; "build"] "." 0 "" ""] None).
Proof. cbv zeta. split; [discriminate|]. repeat split. Qed.

(** C5 (amended). When the safety gate fires, only a response that equals
    [yes] after stripping surrounding white space and lowercasing confirms:
    for every other response, and for an end-of-input or interrupt
    condition, the batch is cancelled, no command of the batch is launched
    and [run] returns failure with the cancellation result. *)
Theorem run_cancels_unless_yes
  (shlex_split : string -> list string) (path_join : string -> string -> string)
  (is_absolute : string -> bool)
  (subprocess_run : world -> list string -> string -> proc_outcome)
  (base_cwd : option string) (commands : list command) (cwd : option string)
  (interactive : bool) (stdin : console_input) (w : world) :
  gate_fires shlex_split commands interactive = true ->
  (forall s, stdin = Line s -> lower (strip s) <> "yes") ->
  let r := run shlex_split path_join is_absolute subprocess_run
               base_cwd commands cwd interactive stdin w in
  launched (fst r) = launched w
  /\ snd r = (false, Details [] (Some "User cancelled dangerous operation")).
Proof.
  intros Hgate Hresp r. subst r.
  rewrite run_cancel; [split; reflexivity | exact Hgate |].
  destruct stdin as [s| |]; try reflexivity.
  cbn [confirms]. destruct (String.eqb_spec (lower (strip s)) "yes") as [Heq|]; [|reflexivity].
  exfalso. exact (Hresp s eq_refl Heq).
Qed.

Lemma run_cancels_unless_yes_witness :
  let r := run no_shlex join_slash never_absolute always_exits_0 None
               [Tokens ["rm"; "-rf"; "build"]] None true (Line "y") (World [] []) in
  launched (fst r) = []
  /\ snd r = (false, Details [] (Some "User cancelled dangerous operation")).
Proof.
  apply (run_cancels_unless_yes no_shlex join_slash never_absolute always_exits_0
           None [Tokens ["rm"; "-rf"; "build"]] None true (Line "y") (World [] [])).
  - reflexivity.
  - intros s Hs. injection Hs as <-. discriminate.
Defined.

(** *** Further properties of [run] *)

Section RunProperties.

Variable shlex_split : string -> list string.
Variable path_join : string -> string -> string.
Variable is_absolute : string -> bool.
Variable subprocess_run : world -> list string -> string -> proc_outcome.

Abbreviation run_loop' := (run_loop shlex_split path_join is_absolute subprocess_run).
Abbreviation run' := (run shlex_split path_join is_absolute subprocess_run).

(** [returncode == 0] on a recorded result. *)
Definition exited_0 (res : cmd_result) : bool := (returncode res =? 0)%Z.

(** What the loop records: no prompt, no error, one result per non-empty
    command, and a flag that says whether every return code is 0. *)
Lemma run_loop_records commands : forall cur acc ok w,
  prompts (fst (run_loop' commands cur acc ok w)) = prompts w
  /\ error (snd (snd (run_loop' commands cur acc ok w))) = None
  /\ map cmd (results (snd (snd (run_loop' commands cur acc ok w))))
     = map cmd acc ++ List.filter truthy (map (_to_tokens shlex_split) commands)
  /\ (ok = forallb exited_0 acc ->
      fst (snd (run_loop' commands cur acc ok w))
      = forallb exited_0 (results (snd (snd (run_loop' commands cur acc ok w))))).
Proof.
  induction commands as [|c rest IH]; intros cur acc ok w.
  - cbn. rewrite app_nil_r. auto.
  - cbn [run_loop map List.filter]. destruct (_to_tokens shlex_split c) as [|t0 args].
    + apply IH.
    + cbn [truthy]. destruct (String.eqb t0 "cd").
      * match goal with |- context [run_loop' rest ?a ?b ?c ?d] =>
          destruct (IH a b c d) as (Hp & He & Hr & Hok) end.
        split; [exact Hp|]. split; [exact He|]. split.
        -- rewrite Hr, map_app, <- app_assoc. reflexivity.
        -- intros Hacc. apply Hok. rewrite forallb_app, <- Hacc. cbn.
           now rewrite andb_true_r.
      * destruct (subprocess_run w (t0 :: args) cur) as [rc out err|msg];
          match goal with |- context [run_loop' rest ?a ?b ?c ?d] =>
            destruct (IH a b c d) as (Hp & He & Hr & Hok) end;
          (split; [exact Hp|]; split; [exact He|]; split;
           [rewrite Hr, map_app, <- app_assoc; reflexivity|]);
          intros Hacc; apply Hok; rewrite forallb_app, <- Hacc; cbn;
          now rewrite ?andb_true_r, ?andb_false_r.
Qed.

Lemma run_no_gate base_cwd commands cwd interactive stdin w :
  gate_fires shlex_split commands interactive = false ->
  run' base_cwd commands cwd interactive stdin w
  = run_loop' commands (start_cwd cwd base_cwd) [] true w.
Proof. unfold gate_fires, run. now intros ->. Qed.

End RunProperties.

(** X10. When the safety gate does not fire (the call is not interactive,
    or the batch does not require confirmation), [run] writes no prompt,
    launches exactly the commands that are neither empty nor [cd], in
    order, records one result per non-empty command, in order, and reports
    no error text. *)
Theorem run_without_gate
  (shlex_split : string -> list string) (path_join : string -> string -> string)
  (is_absolute : string -> bool)
  (subprocess_run : world -> list string -> string -> proc_outcome)
  (base_cwd : option string) (commands : list command) (cwd : option string)
  (interactive : bool) (stdin : console_input) (w : world) :
  gate_fires shlex_split commands interactive = false ->
  let r := run shlex_split path_join is_absolute subprocess_run
               base_cwd commands cwd interactive stdin w in
  prompts (fst r) = prompts w
  /\ map fst (launched (fst r))
     = map fst (launched w)
       ++ List.filter starts_process (map (_to_tokens shlex_split) commands)
  /\ map cmd (results (snd (snd r))) = token_commands shlex_split commands
  /\ error (snd (snd r)) = None.
Proof.
  intros Hgate r. subst r. rewrite run_no_gate by exact Hgate.
  destruct (run_loop_records shlex_split path_join is_absolute subprocess_run
              commands (start_cwd cwd base_cwd) [] true w) as (Hp & He & Hr & _).
  split; [exact Hp|]. split; [apply run_loop_launched|]. split; [exact Hr | exact He].
Qed.

(** A run that is not interactive launches a dangerous batch unprompted. *)
Lemma run_without_gate_witness :
  let r := run no_shlex join_slash never_absolute always_exits_0 None
               [Tokens ["cd"; "/"]; Tokens ["rm"; "-rf"; "build"]] None false EOFError
               (World [] []) in
  prompts (fst r) = []
  /\ map fst (launched (fst r)) = [] ++ [["rm"; "-rf"; "build"]]
  /\ map cmd (results (snd (snd r))) = [["cd"; "/"]; ["rm"; "-rf"; "build"]]
  /\ error (snd (snd r)) = None.
Proof.
  apply (run_without_gate no_shlex join_slash never_absolute always_exits_0 None
           [Tokens ["cd"; "/"]; Tokens ["rm"; "-rf"; "build"]] None false EOFError
           (World [] [])).
  reflexivity.
Defined.

(** X11. Unless the batch was cancelled, the success flag returned by
    [run] is true exactly when every recorded return code is 0 ([cd]
    always records 0, a process that could not be started records -1). *)
Theorem run_success_flag
  (shlex_split : string -> list string) (path_join : string -> string -> string)
  (is_absolute : string -> bool)
  (subprocess_run : world -> list string -> string -> proc_outcome)
  (base_cwd : option string) (commands : list command) (cwd : option string)
  (interactive : bool) (stdin : console_input) (w : world) :
  let r := run shlex_split path_join is_absolute subprocess_run
               base_cwd commands cwd interactive stdin w in
  error (snd (snd r)) = None ->
  fst (snd r) = forallb exited_0 (results (snd (snd r))).
Proof.
  intros r. subst r. unfold run.
  assert (Hloop : forall w',
    fst (snd (run_loop shlex_split path_join is_absolute subprocess_run
                commands (start_cwd cwd base_cwd) [] true w'))
    = forallb exited_0
        (results (snd (snd (run_loop shlex_split path_join is_absolute subprocess_run
                              commands (start_cwd cwd base_cwd) [] true w'))))).
  { intros w'.
    destruct (run_loop_records shlex_split path_join is_absolute subprocess_run
                commands (start_cwd cwd base_cwd) [] true w') as (_ & _ & _ & Hok).
    now apply Hok. }
  destruct (interactive && _); [|intros _; apply Hloop].
  destruct stdin as [s| |]; try discriminate.
  destruct (negb (String.eqb (lower (strip s)) "yes")); [discriminate|].
  intros _. apply Hloop.
Qed.

Definition fails_to_start (w : world) (tokens : list string) (dir : string) : proc_outcome :=
  ProcRaised "No such file or directory".

Lemma run_success_flag_witness :
  let r := run no_shlex join_slash never_absolute fails_to_start None
               [Tokens ["cd"; "src"]; Tokens ["make"]] None true EOFError (World [] []) in
  fst (snd r) = forallb exited_0 (results (snd (snd r))).
Proof.
  apply (run_success_flag no_shlex join_slash never_absolute fails_to_start None
           [Tokens ["cd"; "src"]; Tokens ["make"]] None true EOFError (World [] [])).
  reflexivity.
Defined.

End ShellExecutor.

(* ===================================================================== *)
(** ** src/command_router.py *)
(* ===================================================================== *)

Module CommandRouter.
Import Text.
Import ShellExecutor(command, Tokens, ShellLine).

(** The command library: three tables, in the order of the JSON file. *)
Record command_library : Type := CommandLibrary {
  aliases : list (string * string);            (* phrase -> URL *)
  apps : list (string * command);              (* phrase -> command *)
  workflows : list (string * list command)     (* phrase -> commands *)
}.

Inductive path : Type := dictation | shell | gui.

(** The dictionary returned by [route]. *)
Record route_decision : Type := RouteDecision {
  route_path : path;
  route_commands : option (list command)
}.

(** [self.gui_keywords] *)
Definition gui_keywords : list string :=
  [ "click"; "press"; "compose"; "scroll"; "select"; "button";
    "menu"; "tab"; "play"; "pause"; "submit"; "open compose" ].

(** The test of the alias loop:
    [alias.lower() in low or any(word in low for word in alias.lower().split("_"))] *)
Definition alias_matches (low alias : string) : bool :=
  contains (lower alias) low
  || existsb (fun word => contains word low) (split_on "_" (lower alias)).

(** The test of the app loop: [app_key.lower() in low] *)
Definition app_matches (low app_key : string) : bool := contains (lower app_key) low.

(** [workflow_key.lower().replace("_", " ").split()] *)
Definition key_words (workflow_key : string) : list string :=
  split_ws (replace_char "_" " " (lower workflow_key)).

(** [[w for w in key_words if w in low]] *)
Definition words_present (low workflow_key : string) : list string :=
  List.filter (fun w => contains w low) (key_words workflow_key).

(** The test of the workflow loop:
    [any(word in low for word in key_words)
     and len([w for w in key_words if w in low]) >= len(key_words) // 2] *)
Definition workflow_matches (low workflow_key : string) : bool :=
  existsb (fun word => contains word low) (key_words workflow_key)
  && (length (key_words workflow_key) / 2 <=? length (words_present low workflow_key))%nat.

Section Route.

Variable shlex_split : string -> list string.

(** [lfm.generate_commands(...)]: a list of commands, or [None] when the
    call raises. *)
Variable generate_commands : string -> command_library -> option (list command).

(** [CommandRouter._try_deterministic_match] *)
Definition _try_deterministic_match (lib : command_library) (text : string)
  : option route_decision :=
  let low := strip (lower text) in
  match List.find (fun '(alias, _) => alias_matches low alias) (aliases lib) with
  | Some (_, url) => Some (RouteDecision shell (Some [Tokens ["open"; url]]))
  | None =>
      match List.find (fun '(app_key, _) => app_matches low app_key) (apps lib) with
      | Some (_, cmd) =>
          let tokens := match cmd with
                        | Tokens ts => ts
                        | ShellLine line => shlex_split line
                        end in
          Some (RouteDecision shell (Some [Tokens tokens]))
      | None =>
          match List.find (fun '(workflow_key, _) => workflow_matches low workflow_key)
                          (workflows lib) with
          | Some (_, commands) => Some (RouteDecision shell (Some commands))
          | None => None
          end
      end
  end.

(** [CommandRouter.route] *)
Definition route (lib : command_library) (instruction : string) : route_decision :=
  let text := strip instruction in
  let low := lower text in
  match _try_deterministic_match lib text with
  | Some deterministic_match => deterministic_match
  | None =>
      if existsb (fun k => contains k low) gui_keywords then RouteDecision gui None
      else
        let commands := match generate_commands text lib with
                        | Some cs => cs
                        | None => []
                        end in
        match commands with
        | _ :: _ => RouteDecision shell (Some commands)
        | [] => RouteDecision dictation None
        end
  end.

Lemma find_first {A} (f : A -> bool) (pre : list A) (x : A) (post : list A) :
  Forall (fun y => f y = false) pre -> f x = true ->
  List.find f (pre ++ x :: post) = Some x.
Proof.
  induction 1 as [|y pre Hy _ IH]; intros Hx; cbn.
  - now rewrite Hx.
  - rewrite Hy. now apply IH.
Qed.

Lemma find_none {A} (f : A -> bool) (l : list A) :
  Forall (fun y => f y = false) l -> List.find f l = None.
Proof.
  induction 1 as [|y l Hy _ IH]; cbn; [reflexivity|]. now rewrite Hy.
Qed.

End Route.

Lemma existsb_filter_length {A} (f : A -> bool) (l : list A) :
  existsb f l = true <-> (1 <= length (List.filter f l))%nat.
Proof.
  induction l as [|a l IH]; cbn.
  - split; [discriminate | lia].
  - destruct (f a); cbn; [split; [lia | reflexivity] | exact IH].
Qed.

Definition no_generator (text : string) (lib : command_library) : option (list command) :=
  None.

Definition youtube_library : command_library :=
  CommandLibrary [("youtube", "https://youtube.com")] [] [].

(** The routing example of the specification. *)
Example route_alias :
  route ShellExecutor.no_shlex no_generator youtube_library "open youtube"
  = RouteDecision shell (Some [Tokens ["open"; "https://youtube.com"]]).
Proof. reflexivity. Qed.

Example route_gui :
  route ShellExecutor.no_shlex no_generator youtube_library "Click the send button"
  = RouteDecision gui None.
Proof. reflexivity. Qed.

Example route_dictation :
  route ShellExecutor.no_shlex no_generator youtube_library "hello world"
  = RouteDecision dictation None.
Proof. reflexivity. Qed.

Definition git_library : command_library :=
  CommandLibrary [] []
    [("git_commit_push", [Tokens ["git"; "commit"; "-am"; "wip"]; Tokens ["git"; "push"]])].

(** C6 as stated fails: one of the three words of the key phrase
    [git_commit_push] occurs in the instruction, which is less than half of
    them, and the workflow matches all the same. *)
Lemma workflow_matches_below_half :
  let low := "show the git log" in
  key_words "git_commit_push" = ["git"; "commit"; "push"]
  /\ words_present low "git_commit_push" = ["git"]
  /\ (2 * length (words_present low "git_commit_push")
      < length (key_words "git_commit_push"))%nat
  /\ workflow_matches low "git_commit_push" = true
  /\ route ShellExecutor.no_shlex no_generator git_library "Show the git log"
     = RouteDecision shell
         (Some [Tokens ["git"; "commit"; "-am"; "wip"]; Tokens ["git"; "push"]]).
Proof.
  cbv zeta. split; [reflexivity|]. split; [reflexivity|].
  split; [vm_compute; lia|]. split; reflexivity.
Qed.

(** C6 (amended). In the deterministic lookup a workflow entry matches an
    instruction if and only if at least one word of its key phrase occurs
    in the lowercased instruction and the number of key-phrase words that
    occur is at least half their number rounded down; when no alias and no
    app entry matches, [route] returns path [shell] with the command list
    of the first workflow entry that matches. *)
Theorem workflow_match_routes_shell
  (shlex_split : string -> list string)
  (generate_commands : string -> command_library -> option (list command))
  (lib : command_library) (instruction : string)
  (before : list (string * list command)) (workflow_key : string)
  (commands : list command) (after : list (string * list command)) :
  let low := strip (lower (strip instruction)) in
  Forall (fun '(alias, _) => alias_matches low alias = false) (aliases lib) ->
  Forall (fun '(app_key, _) => app_matches low app_key = false) (apps lib) ->
  workflows lib = before ++ (workflow_key, commands) :: after ->
  Forall (fun '(key, _) => workflow_matches low key = false) before ->
  workflow_matches low workflow_key = true ->
  (forall key, workflow_matches low key = true
     <-> (1 <= length (words_present low key)
          /\ length (key_words key) / 2 <= length (words_present low key))%nat)
  /\ route shlex_split generate_commands lib instruction
     = RouteDecision shell (Some commands).
Proof.
  intros low Hal Hap Hwf Hbefore Hkey. split.
  - intros key. unfold workflow_matches, words_present.
    rewrite andb_true_iff, existsb_filter_length, Nat.leb_le. reflexivity.
  - unfold route, _try_deterministic_match. fold low.
    rewrite find_none, find_none, Hwf.
    + rewrite (find_first _ before (workflow_key, commands) after); [reflexivity | | exact Hkey].
      eapply Forall_impl; [exact Hbefore|]. now intros [k c].
    + eapply Forall_impl; [exact Hap|]. now intros [k c].
    + eapply Forall_impl; [exact Hal|]. now intros [k c].
Qed.

Lemma workflow_match_routes_shell_witness :
  (forall key, workflow_matches "show the git log" key = true
     <-> (1 <= length (words_present "show the git log" key)
          /\ length (key_words key) / 2
             <= length (words_present "show the git log" key))%nat)
  /\ route ShellExecutor.no_shlex no_generator git_library "Show the git log"
     = RouteDecision shell
         (Some [Tokens ["git"; "commit"; "-am"; "wip"]; Tokens ["git"; "push"]]).
Proof.
  apply (workflow_match_routes_shell ShellExecutor.no_shlex no_generator git_library
           "Show the git log" [] "git_commit_push"
           [Tokens ["git"; "commit"; "-am"; "wip"]; Tokens ["git"; "push"]] []).
  - constructor.
  - constructor.
  - reflexivity.
  - constructor.
  - reflexivity.
Defined.

(** *** Further properties of the router *)

Lemma find_Forall_not {A} (f : A -> bool) (l : list A) :
  List.find f l = None -> Forall (fun y => f y = false) l.
Proof.
  induction l as [|a l IH]; cbn; [constructor|].
  destruct (f a) eqn:Ha; [discriminate|]. intros H. constructor; auto.
Qed.

(** X12. A routing decision carries commands exactly when its path is
    [shell]: the [gui] and [dictation] decisions carry none. *)
Theorem route_commands_iff_shell
  (shlex_split : string -> list string)
  (generate_commands : string -> command_library -> option (list command))
  (lib : command_library) (instruction : string) :
  let d := route shlex_split generate_commands lib instruction in
  route_path d = shell <-> route_commands d <> None.
Proof.
  cbv zeta. unfold route, _try_deterministic_match.
  destruct (List.find _ (aliases lib)) as [[a u]|]; [cbn; split; [discriminate | reflexivity]|].
  destruct (List.find _ (apps lib)) as [[a c]|]; [cbn; split; [discriminate | reflexivity]|].
  destruct (List.find _ (workflows lib)) as [[k cs]|]; [cbn; split; [discriminate | reflexivity]|].
  destruct (existsb _ gui_keywords); [cbn; split; [discriminate | congruence]|].
  destruct (match generate_commands _ lib with Some cs => cs | None => [] end);
    cbn; split; try discriminate; try congruence; reflexivity.
Qed.

Lemma route_first_alias
  (shlex_split : string -> list string)
  (generate_commands : string -> command_library -> option (list command))
  (lib : command_library) (instruction : string)
  (before : list (string * string)) (alias url : string)
  (after : list (string * string)) :
  aliases lib = before ++ (alias, url) :: after ->
  Forall (fun '(a, _) => alias_matches (strip (lower (strip instruction))) a = false) before ->
  alias_matches (strip (lower (strip instruction))) alias = true ->
  route shlex_split generate_commands lib instruction
  = RouteDecision shell (Some [Tokens ["open"; url]]).
Proof.
  intros Hal Hbefore Hmatch.
  unfold route, _try_deterministic_match. rewrite Hal.
  rewrite (find_first _ before (alias, url) after); [reflexivity | | exact Hmatch].
  eapply Forall_impl; [exact Hbefore|]. now intros [a u].
Qed.

(** X13. An alias that matches wins over everything else: when an alias
    entry matches and none before it does, [route] returns [shell] with the
    single command that opens its URL, whatever the apps, the workflows,
    the GUI keywords in the instruction and the command generator. *)
Theorem alias_match_wins
  (shlex_split : string -> list string)
  (generate_commands : string -> command_library -> option (list command))
  (lib : command_library) (instruction : string)
  (before : list (string * string)) (alias url : string)
  (after : list (string * string)) :
  let low := strip (lower (strip instruction)) in
  aliases lib = before ++ (alias, url) :: after ->
  Forall (fun '(a, _) => alias_matches low a = false) before ->
  alias_matches low alias = true ->
  route shlex_split generate_commands lib instruction
  = RouteDecision shell (Some [Tokens ["open"; url]]).
Proof. intros low. apply route_first_alias. Qed.

Definition media_library : command_library :=
  CommandLibrary [("youtube", "https://youtube.com")]
                 [("chrome", Tokens ["open"; "-a"; "Google Chrome"])]
                 [("play_music", [Tokens ["open"; "-a"; "Music"]])].

Lemma alias_match_wins_witness :
  route ShellExecutor.no_shlex no_generator media_library
        "Open Chrome and click play on YouTube"
  = RouteDecision shell (Some [Tokens ["open"; "https://youtube.com"]]).
Proof.
  apply (alias_match_wins ShellExecutor.no_shlex no_generator media_library
           "Open Chrome and click play on YouTube" [] "youtube" "https://youtube.com" []).
  - reflexivity.
  - constructor.
  - reflexivity.
Defined.

Lemma contains_empty s : contains EmptyString s = true.
Proof. destruct s; reflexivity. Qed.

(** X14. An alias key with an empty part between underscores (the empty
    key, a leading or trailing underscore, two underscores in a row)
    matches every instruction: placed first in the table, it captures all
    of them. *)
Theorem alias_with_empty_part_matches_all
  (shlex_split : string -> list string)
  (generate_commands : string -> command_library -> option (list command))
  (lib : command_library) (alias url : string) (rest : list (string * string))
  (instruction : string) :
  In EmptyString (split_on "_" (lower alias)) ->
  aliases lib = (alias, url) :: rest ->
  route shlex_split generate_commands lib instruction
  = RouteDecision shell (Some [Tokens ["open"; url]]).
Proof.
  intros Hempty Hal.
  apply (route_first_alias shlex_split generate_commands lib instruction [] alias url rest).
  - exact Hal.
  - constructor.
  - unfold alias_matches. apply orb_true_iff. right.
    apply existsb_exists. exists EmptyString. split; [exact Hempty | apply contains_empty].
Qed.

Lemma alias_with_empty_part_matches_all_witness :
  route ShellExecutor.no_shlex no_generator
        (CommandLibrary [("my_site_", "https://example.org")] [] [])
        "what time is it"
  = RouteDecision shell (Some [Tokens ["open"; "https://example.org"]]).
Proof.
  apply (alias_with_empty_part_matches_all ShellExecutor.no_shlex no_generator
           (CommandLibrary [("my_site_", "https://example.org")] [] [])
           "my_site_" "https://example.org" [] "what time is it").
  - right. right. left. reflexivity.
  - reflexivity.
Defined.

End CommandRouter.

(* ===================================================================== *)
(** ** src/real_time/lfm_client.py *)
(* ===================================================================== *)

Module LFMClient.
Import Text.
Import ShellExecutor(command, Tokens, ShellLine).
Import CommandRouter(command_library).

(** A value returned by [json.loads]. *)
#[local] Unset Elimination Schemes.
Inductive json : Type :=
| JNull
| JBool (b : bool)
| JNumber (q : Q)
| JString (s : string)
| JArray (items : list json)
| JObject (fields : list (string * json)).
#[local] Set Elimination Schemes.

(** The set [dangerous] of [_safety_filter]. *)
Definition dangerous : list string := ["rm"; "shutdown"; "reboot"; "kill"; "killall"].

(** [[t.lower() for t in cmd]]; [None] when a token is not a string and
    [t.lower()] raises. *)
Fixpoint lowered_tokens (cmd : list json) : option (list string) :=
  match cmd with
  | [] => Some []
  | JString s :: rest =>
      match lowered_tokens rest with
      | Some ts => Some (lower s :: ts)
      | None => None
      end
  | _ :: _ => None
  end.

(** The tokens of a command whose tokens are all strings. *)
Fixpoint strings_of (cmd : list json) : list string :=
  match cmd with
  | [] => []
  | JString s :: rest => s :: strings_of rest
  | _ :: rest => strings_of rest
  end.

(** [any(tok in dangerous for tok in tokens)] *)
Definition any_dangerous (tokens : list string) : bool :=
  existsb (fun tok => existsb (String.eqb tok) dangerous) tokens.

(** ["rm" in tokens and "-rf" in tokens] *)
Definition rm_rf (tokens : list string) : bool :=
  existsb (String.eqb "rm") tokens && existsb (String.eqb "-rf") tokens.

(** [LFMClient._safety_filter]; [None] when it raises.  The commands kept
    are returned as they are; their tokens are strings. *)
Fixpoint _safety_filter (commands : list (list json)) : option (list (list string)) :=
  match commands with
  | [] => Some []
  | cmd :: rest =>
      match lowered_tokens cmd with
      | None => None
      | Some tokens =>
          match _safety_filter rest with
          | None => None
          | Some filtered =>
              if any_dangerous tokens then Some filtered
              else if rm_rf tokens then Some filtered
              else Some (strings_of cmd :: filtered)
          end
      end
  end.

(** [isinstance(parsed, list) and all(isinstance(x, list) for x in parsed)]:
    the rows when the test holds. *)
Fixpoint rows_of (items : list json) : option (list (list json)) :=
  match items with
  | [] => Some []
  | JArray row :: rest =>
      match rows_of rest with
      | Some rows => Some (row :: rows)
      | None => None
      end
  | _ :: _ => None
  end.

Definition as_rows (parsed : json) : option (list (list json)) :=
  match parsed with
  | JArray items => rows_of items
  | _ => None
  end.

(** [content.find(c)] and [content.rfind(c)] for one character; [None]
    stands for -1. *)
Fixpoint find_char (c : ascii) (s : string) : option nat :=
  match s with
  | EmptyString => None
  | String d s' => if Ascii.eqb d c then Some 0%nat else S <$> find_char c s'
  end.

Fixpoint rfind_char (c : ascii) (s : string) : option nat :=
  match s with
  | EmptyString => None
  | String d s' =>
      match rfind_char c s' with
      | Some i => Some (S i)
      | None => if Ascii.eqb d c then Some 0%nat else None
      end
  end.

Section Generate.

(** [json.loads]; [None] when it raises. *)
Variable json_loads : string -> option json.

(** The chat completion of the model for an instruction and a library: the
    text of the reply, [None] when the call raises. *)
Variable create_chat_completion : string -> command_library -> option string.

(** One of the two [try] blocks of [generate_commands] on a text: the value
    returned, [None] when the block is left without returning. *)
Definition try_parse (text : string) : option (list (list string)) :=
  match json_loads text with
  | Some parsed =>
      match as_rows parsed with
      | Some rows => _safety_filter rows
      | None => None
      end
  | None => None
  end.

(** Lines 119-137 of [generate_commands], on the stripped content. *)
Definition commands_of_content (content : string) : list (list string) :=
  match try_parse content with
  | Some commands => commands
  | None =>
      match find_char "[" content, rfind_char "]" content with
      | Some start, Some end_ =>
          if (start <? end_)%nat then
            match try_parse (slice content start (S end_)) with
            | Some commands => commands
            | None => []
            end
          else []
      | _, _ => []
      end
  end.

(** [LFMClient.generate_commands]; [None] when it raises. *)
Definition generate_commands (instruction : string) (lib : command_library)
  : option (list (list string)) :=
  match create_chat_completion instruction lib with
  | Some raw => Some (commands_of_content (strip raw))
  | None => None
  end.

(** The generator as the router calls it. *)
Definition generator (instruction : string) (lib : command_library)
  : option (list command) :=
  map Tokens <$> generate_commands instruction lib.

End Generate.

Example _safety_filter_ex :
  _safety_filter [[JString "open"; JString "-a"; JString "Mail"];
                  [JString "RM"; JString "notes.txt"];
                  [JString "killall"; JString "Finder"];
                  [JString "ls"]]
  = Some [["open"; "-a"; "Mail"]; ["ls"]].
Proof. reflexivity. Qed.

Example _safety_filter_raises :
  _safety_filter [[JString "sleep"; JNumber 1]] = None.
Proof. reflexivity. Qed.

Example find_ex : find_char "[" "ok: [[1]]" = Some 4%nat /\ rfind_char "]" "ok: [[1]]" = Some 8%nat.
Proof. split; reflexivity. Qed.

(** *** Properties of the generated commands *)

Definition is_string (t : json) : bool :=
  match t with JString _ => true | _ => false end.

(** A command with a token of the blocklist, compared in lower case. *)
Definition blocklisted (cmd : list string) : bool := any_dangerous (map lower cmd).

Lemma lowered_tokens_spec cmd :
  lowered_tokens cmd
  = if forallb is_string cmd then Some (map lower (strings_of cmd)) else None.
Proof.
  induction cmd as [|t cmd IH]; [reflexivity|].
  destruct t; try reflexivity. cbn [lowered_tokens forallb is_string strings_of map andb].
  rewrite IH. now destruct (forallb is_string cmd).
Qed.

(** The second test of the filter never decides: [rm] is on the blocklist. *)
Lemma rm_rf_any_dangerous tokens : rm_rf tokens = true -> any_dangerous tokens = true.
Proof.
  unfold rm_rf, any_dangerous. intros H. apply andb_true_iff in H as [H _].
  apply existsb_exists in H as (tok & Hin & Heq). apply String.eqb_eq in Heq. subst tok.
  apply existsb_exists. exists "rm". split; [exact Hin | reflexivity].
Qed.

(** X15. [_safety_filter] raises exactly when some token of some command
    is not a string; otherwise it returns, in order, the commands none of
    whose tokens is on the blocklist (compared in lower case).  The extra
    guard on [rm] with [-rf] never removes anything more. *)
Theorem _safety_filter_spec (commands : list (list json)) :
  _safety_filter commands
  = if forallb (forallb is_string) commands
    then Some (List.filter (fun cmd => negb (blocklisted cmd)) (map strings_of commands))
    else None.
Proof.
  induction commands as [|cmd rest IH]; [reflexivity|].
  cbn [_safety_filter forallb map List.filter]. rewrite lowered_tokens_spec, IH.
  destruct (forallb is_string cmd); [|reflexivity]. cbn [andb].
  destruct (forallb (forallb is_string) rest); [|reflexivity].
  unfold blocklisted.
  destruct (any_dangerous (map lower (strings_of cmd))) eqn:Hd; [reflexivity|].
  destruct (rm_rf (map lower (strings_of cmd))) eqn:Hr; [|reflexivity].
  apply rm_rf_any_dangerous in Hr. congruence.
Qed.

Lemma _safety_filter_clean commands out :
  _safety_filter commands = Some out -> Forall (fun cmd => blocklisted cmd = false) out.
Proof.
  rewrite _safety_filter_spec. destruct (forallb _ commands); [|discriminate].
  intros [= <-]. apply List.Forall_forall. intros cmd Hin.
  apply filter_In in Hin as [_ H]. now apply negb_true_iff in H.
Qed.

Section GenerateProperties.

Variable json_loads : string -> option json.
Variable create_chat_completion : string -> command_library -> option string.

Lemma try_parse_clean text out :
  try_parse json_loads text = Some out -> Forall (fun cmd => blocklisted cmd = false) out.
Proof.
  unfold try_parse. destruct (json_loads text) as [parsed|]; [|discriminate].
  destruct (as_rows parsed) as [rows|]; [|discriminate]. apply _safety_filter_clean.
Qed.

Lemma commands_of_content_clean content :
  Forall (fun cmd => blocklisted cmd = false) (commands_of_content json_loads content).
Proof.
  unfold commands_of_content.
  destruct (try_parse json_loads content) as [out|] eqn:E; [now apply (try_parse_clean content)|].
  destruct (find_char "[" content) as [start|]; [|constructor].
  destruct (rfind_char "]" content) as [end_|]; [|constructor].
  destruct (start <? end_)%nat; [|constructor].
  destruct (try_parse json_loads (slice content start (S end_))) as [out|] eqn:E2;
    [now apply (try_parse_clean (slice content start (S end_)) out) | constructor].
Qed.

End GenerateProperties.

(** X16. Whatever the model replies and however the reply parses, no
    command returned by [generate_commands] has a token [rm], [shutdown],
    [reboot], [kill] or [killall] (in any case). *)
Theorem generate_commands_clean
  (json_loads : string -> option json)
  (create_chat_completion : string -> command_library -> option string)
  (instruction : string) (lib : command_library) :
  match generate_commands json_loads create_chat_completion instruction lib with
  | Some commands =>
      forall cmd tok, In cmd commands -> In tok cmd -> ~ In (lower tok) dangerous
  | None => True
  end.
Proof.
  unfold generate_commands. destruct (create_chat_completion instruction lib) as [raw|]; [|exact I].
  intros cmd tok Hcmd Htok Hd.
  pose proof (commands_of_content_clean json_loads (strip raw)) as Hclean.
  rewrite List.Forall_forall in Hclean. specialize (Hclean cmd Hcmd).
  unfold blocklisted, any_dangerous in Hclean.
  assert (Ht : existsb (fun t => existsb (String.eqb t) dangerous) (map lower cmd) = true).
  { apply existsb_exists. exists (lower tok). split; [now apply in_map|].
    apply existsb_exists. exists (lower tok). split; [exact Hd | apply String.eqb_refl]. }
  congruence.
Qed.

(** A command given as a token list without blocklisted token. *)
Definition clean_command (c : command) : Prop :=
  match c with
  | Tokens ts => blocklisted ts = false
  | ShellLine _ => False
  end.

(** X17. With the language-model client as generator, a [shell] decision
    that does not come from the command library holds only commands
    without a blocklisted token. *)
Theorem generated_route_is_clean
  (shlex_split : string -> list string)
  (json_loads : string -> option json)
  (create_chat_completion : string -> command_library -> option string)
  (lib : command_library) (instruction : string) (commands : list command) :
  CommandRouter._try_deterministic_match shlex_split lib (strip instruction) = None ->
  CommandRouter.route_commands
    (CommandRouter.route shlex_split (generator json_loads create_chat_completion)
       lib instruction) = Some commands ->
  Forall clean_command commands.
Proof.
  intros Hdet. unfold CommandRouter.route. rewrite Hdet.
  destruct (existsb _ CommandRouter.gui_keywords); [discriminate|].
  unfold generator, generate_commands.
  destruct (create_chat_completion (strip instruction) lib) as [raw|]; [|discriminate].
  cbn [fmap option_fmap option_map].
  pose proof (commands_of_content_clean json_loads (strip raw)) as Hclean.
  destruct (commands_of_content json_loads (strip raw)) as [|c cs]; [discriminate|].
  cbn [map CommandRouter.route_commands]. intros [= <-].
  change (Tokens c :: map Tokens cs) with (map Tokens (c :: cs)).
  apply Forall_fmap. eapply Forall_impl; [exact Hclean|]. intros ts Hts. exact Hts.
Qed.

(** A stand-in for the model and for [json.loads]: one reply, one parse. *)
Definition one_reply (instruction : string) (lib : command_library) : option string :=
  Some " reply ".

Definition one_parse (text : string) : option json :=
  if String.eqb text "reply"
  then Some (JArray [JArray [JString "ls"; JString "-la"];
                     JArray [JString "Kill"; JString "1"]])
  else None.

Lemma generated_route_is_clean_witness :
  Forall clean_command [Tokens ["ls"; "-la"]].
Proof.
  apply (generated_route_is_clean ShellExecutor.no_shlex one_parse one_reply
           (CommandRouter.CommandLibrary [] [] []) "list the files"
           [Tokens ["ls"; "-la"]]).
  - reflexivity.
  - reflexivity.
Defined.

End LFMClient.

(* ===================================================================== *)
(** ** src/task_parser.py *)
(* ===================================================================== *)

Module TaskParser.
Import Text Re.

Inductive TaskType : Type := PARALLEL | SEQUENTIAL.

Record Task : Type := mkTask {
  id : string;
  instruction : string;
  task_type : TaskType;
  depends_on : list string
}.

(** [self.parallel_connectors] *)
Definition parallel_connectors : list regex :=
  [ word "and";
    word "also";
    WordB :: lits "while you" ++ Opt "'" :: lits "re doing that" ++ [WordB];
    word "at the same time";
    word "meanwhile" ].

(** [self.sequential_connectors] *)
Definition sequential_connectors : list regex :=
  [ word "then";
    word "after";
    word "once" ++ DotStar :: word "done";
    word "when" ++ DotStar :: word "finished";
    word "next";
    word "followed by" ].

(** [TaskParser._is_multi_task] *)
Definition _is_multi_task (text : string) : bool :=
  let all_connectors := parallel_connectors ++ sequential_connectors in
  existsb (fun pattern => found pattern text) all_connectors.

(** An entry of [connectors_found]: [(start, end, type, matched text)]. *)
Definition connector : Type := (nat * nat * TaskType * string)%type.

Definition c_start (c : connector) : nat := fst (fst (fst c)).

(** The matches of every pattern of one list, pattern by pattern. *)
Definition matches_of (patterns : list regex) (ty : TaskType) (remaining : string)
  : list connector :=
  flat_map (fun pattern =>
              map (fun '(s, e) => (s, e, ty, slice remaining s e))
                  (finditer pattern remaining))
           patterns.

(** [list.sort(key=lambda x: x[0])]: a stable sort by start offset. *)
Fixpoint insert_by_start (c : connector) (sorted : list connector) : list connector :=
  match sorted with
  | [] => [c]
  | d :: rest =>
      if (c_start c <? c_start d)%nat then c :: d :: rest
      else d :: insert_by_start c rest
  end.

Definition sort_by_start (cs : list connector) : list connector :=
  fold_left (fun sorted c => insert_by_start c sorted) cs [].

(** The loop [for start, end, task_type, connector in connectors_found] of
    [_split_instruction], with its variables [last_end] and [segments]. *)
Fixpoint split_loop (remaining : string) (connectors_found : list connector)
  (last_end : nat) (segments : list (string * TaskType))
  : nat * list (string * TaskType) :=
  match connectors_found with
  | [] => (last_end, segments)
  | (start, end_, ty, _) :: rest =>
      let segments' :=
        if (last_end <? start)%nat then
          let segment := strip (slice remaining last_end start) in
          if nonempty segment then
            segments ++ [(segment, match segments with [] => PARALLEL | _ => ty end)]
          else segments
        else segments in
      split_loop remaining rest end_ segments'
  end.

(** [TaskParser._split_instruction] *)
Definition _split_instruction (text : string) : list (string * TaskType) :=
  let remaining := text in
  let connectors_found :=
    sort_by_start (matches_of parallel_connectors PARALLEL remaining
                   ++ matches_of sequential_connectors SEQUENTIAL remaining) in
  match connectors_found with
  | [] => [(text, PARALLEL)]
  | _ :: _ =>
      let '(last_end, segments) := split_loop remaining connectors_found 0 [] in
      let segments' :=
        if (last_end <? String.length remaining)%nat then
          let final_segment := strip (slice_from remaining last_end) in
          if nonempty final_segment then
            let final_type :=
              match last connectors_found with
              | Some (_, _, ty, _) => ty
              | None => PARALLEL
              end in
            segments ++ [(final_segment, final_type)]
          else segments
        else segments in
      match segments' with
      | [] => [(text, PARALLEL)]
      | _ :: _ => segments'
      end
  end.

(** [f"task_{i}"] *)
Definition task_id (i : nat) : string := String.append "task_" (str_of_nat i).

(** The loop [for i, (segment, connector_type) in enumerate(segments)] of
    [parse], from index [i] on. *)
Fixpoint tasks_from (i : nat) (segments : list (string * TaskType)) : list Task :=
  match segments with
  | [] => []
  | (segment, connector_type) :: rest =>
      let depends_on :=
        match connector_type, i with
        | SEQUENTIAL, S j => [task_id j]
        | _, _ => []
        end in
      mkTask (task_id i) (strip segment) connector_type depends_on
        :: tasks_from (S i) rest
  end.

(** [TaskParser.parse] *)
Definition parse (instruction : string) : list Task :=
  let text := strip instruction in
  if negb (_is_multi_task text) then [mkTask "task_0" text PARALLEL []]
  else tasks_from 0 (_split_instruction text).

Example parse_single :
  parse "  open the mail app " = [mkTask "task_0" "open the mail app" PARALLEL []].
Proof. reflexivity. Qed.

Example parse_then :
  parse "open mail then compose"
  = [mkTask "task_0" "open mail" PARALLEL [];
     mkTask "task_1" "compose" SEQUENTIAL ["task_0"]].
Proof. reflexivity. Qed.

Example parse_and :
  parse "copy this AND paste it and save"
  = [mkTask "task_0" "copy this" PARALLEL [];
     mkTask "task_1" "paste it" PARALLEL [];
     mkTask "task_2" "save" PARALLEL []].
Proof. reflexivity. Qed.

Example parse_mixed :
  parse "build then test and deploy"
  = [mkTask "task_0" "build" PARALLEL [];
     mkTask "task_1" "test" PARALLEL [];
     mkTask "task_2" "deploy" PARALLEL []].
Proof. reflexivity. Qed.

Example parse_leading_connector :
  parse "then deploy" = [mkTask "task_0" "deploy" SEQUENTIAL []].
Proof. reflexivity. Qed.

(** *** The dependency graph of a task list *)

(** [depends tasks a b]: the task with id [a] lists [b] as a dependency. *)
Definition depends (tasks : list Task) (a b : string) : Prop :=
  exists t, In t tasks /\ id t = a /\ In b (depends_on t).

(** No task reaches itself along dependency edges. *)
Definition acyclic (tasks : list Task) : Prop :=
  forall a, ~ clos_trans string (depends tasks) a a.

Lemma task_id_inj i j : task_id i = task_id j -> i = j.
Proof.
  unfold task_id. intros H. cbn in H. injection H as H. now apply str_of_nat_inj.
Qed.

Lemma tasks_from_length segments : forall i,
  length (tasks_from i segments) = length segments.
Proof.
  induction segments as [|[seg ty] rest IH]; intros i; cbn; [reflexivity|].
  now rewrite IH.
Qed.

(** The task at position [k] of [tasks_from i segments]. *)
Lemma tasks_from_lookup segments : forall i k t,
  tasks_from i segments !! k = Some t ->
  exists seg ty,
    segments !! k = Some (seg, ty)
    /\ t = mkTask (task_id (i + k)) (strip seg) ty
             match ty, (i + k)%nat with
             | SEQUENTIAL, S j => [task_id j]
             | _, _ => []
             end.
Proof.
  induction segments as [|[seg ty] rest IH]; intros i k t H; [discriminate|].
  destruct k as [|k]; cbn in H.
  - injection H as <-. exists seg, ty. rewrite Nat.add_0_r. split; reflexivity.
  - destruct (IH _ _ _ H) as (seg' & ty' & Hk & ->).
    exists seg', ty'. split; [exact Hk|]. now rewrite Nat.add_succ_r.
Qed.

Lemma tasks_from_In segments t :
  In t (tasks_from 0 segments) ->
  exists k seg ty,
    tasks_from 0 segments !! k = Some t
    /\ t = mkTask (task_id k) (strip seg) ty
             match ty, k with
             | SEQUENTIAL, S j => [task_id j]
             | _, _ => []
             end.
Proof.
  intros Hin. apply list_elem_of_In, list_elem_of_lookup in Hin as [k Hk].
  destruct (tasks_from_lookup _ _ _ _ Hk) as (seg & ty & _ & Ht).
  exists k, seg, ty. split; [exact Hk | exact Ht].
Qed.

(** Every dependency edge goes from a position to the one before it. *)
Lemma depends_tasks_from segments a b :
  depends (tasks_from 0 segments) a b ->
  exists j, a = task_id (S j) /\ b = task_id j /\ (S j < length segments)%nat.
Proof.
  intros (t & Hin & Ha & Hb).
  destruct (tasks_from_In _ _ Hin) as (k & seg & ty & Hk & ->).
  apply lookup_lt_Some in Hk. rewrite tasks_from_length in Hk.
  cbn in Ha, Hb. subst a.
  destruct ty; [destruct Hb|]. destruct k as [|j]; [destruct Hb|].
  destruct Hb as [<- | []]. exists j. auto.
Qed.

Lemma reach_tasks_from segments a b :
  clos_trans string (depends (tasks_from 0 segments)) a b ->
  exists i j, a = task_id i /\ b = task_id j /\ (j < i)%nat.
Proof.
  induction 1 as [a b H | a b c _ (i & j & -> & -> & Hij) _ (j' & k & Hj & -> & Hjk)].
  - destruct (depends_tasks_from _ _ _ H) as (j & -> & -> & _). exists (S j), j. auto.
  - apply task_id_inj in Hj. subst j'. exists i, k. split; [|split]; auto. lia.
Qed.

(** The five properties of C8 for the tasks built from any segment list. *)
Lemma tasks_from_well_formed segments :
  let tasks := tasks_from 0 segments in
  (forall t d, In t tasks -> In d (depends_on t) -> exists t', In t' tasks /\ id t' = d)
  /\ (forall t, In t tasks -> ~ In (id t) (depends_on t))
  /\ acyclic tasks
  /\ (forall t, In t tasks -> task_type t = PARALLEL -> depends_on t = [])
  /\ (forall i t, (0 < i)%nat -> tasks !! i = Some t -> task_type t = SEQUENTIAL ->
         exists p, tasks !! (i - 1)%nat = Some p /\ depends_on t = [id p]).
Proof.
  intros tasks. subst tasks. repeat apply conj.
  - intros t d Hin Hd.
    destruct (depends_tasks_from segments (id t) d) as (j & _ & -> & Hlt).
    { exists t. auto. }
    destruct (lookup_lt_is_Some_2 (tasks_from 0 segments) j) as [t' Ht'].
    { rewrite tasks_from_length. lia. }
    exists t'. split.
    + apply list_elem_of_In, list_elem_of_lookup. eauto.
    + destruct (tasks_from_lookup _ _ _ _ Ht') as (seg & ty & _ & ->). reflexivity.
  - intros t Hin Hself.
    destruct (depends_tasks_from segments (id t) (id t)) as (j & Ha & Hb & _).
    { exists t. auto. }
    rewrite Ha in Hb. apply task_id_inj in Hb. lia.
  - intros a Hcyc.
    destruct (reach_tasks_from _ _ _ Hcyc) as (i & j & Hi & Hj & Hlt).
    rewrite Hi in Hj. apply task_id_inj in Hj. lia.
  - intros t Hin Hty.
    destruct (tasks_from_In _ _ Hin) as (k & seg & ty & _ & ->).
    cbn in Hty. subst ty. reflexivity.
  - intros i t Hi Hlook Hty.
    destruct (tasks_from_lookup _ _ _ _ Hlook) as (seg & ty & _ & ->).
    cbn in Hty. subst ty. destruct i as [|j]; [lia|].
    cbn [Nat.add]. replace (S j - 1)%nat with j by lia.
    destruct (lookup_lt_is_Some_2 (tasks_from 0 segments) j) as [p Hp].
    { apply lookup_lt_Some in Hlook. lia. }
    exists p. split; [exact Hp|].
    destruct (tasks_from_lookup _ _ _ _ Hp) as (seg' & ty' & _ & ->). reflexivity.
Qed.

Lemma single_task_is_tasks_from text :
  [mkTask "task_0" (strip text) PARALLEL []] = tasks_from 0 [(text, PARALLEL)].
Proof. reflexivity. Qed.

Lemma reach_first_edge {A} (R : relation A) a b :
  clos_trans A R a b -> exists c, R a c.
Proof. induction 1; eauto. Qed.

(** C8. For every input string, the task list returned by [parse]
    satisfies: each dependency id is the id of a task of the list, no task
    depends on itself, the dependency relation is acyclic, every task of
    kind parallel has an empty dependency set, and a task of kind
    sequential at a position [i > 0] depends exactly on the task at
    position [i - 1]. *)
Theorem parse_dependency_graph (instruction : string) :
  let tasks := parse instruction in
  (forall t d, In t tasks -> In d (depends_on t) -> exists t', In t' tasks /\ id t' = d)
  /\ (forall t, In t tasks -> ~ In (id t) (depends_on t))
  /\ acyclic tasks
  /\ (forall t, In t tasks -> task_type t = PARALLEL -> depends_on t = [])
  /\ (forall i t, (0 < i)%nat -> tasks !! i = Some t -> task_type t = SEQUENTIAL ->
         exists p, tasks !! (i - 1)%nat = Some p /\ depends_on t = [id p]).
Proof.
  unfold parse. destruct (_is_multi_task (strip instruction)); cbn [negb].
  - apply tasks_from_well_formed.
  - cbv zeta. repeat apply conj.
    + intros t d [<- | []] [].
    + intros t [<- | []] [].
    + intros a Hcyc. apply reach_first_edge in Hcyc as (c & t & [<- | []] & _ & []).
    + intros t [<- | []] _. reflexivity.
    + intros [|[|i]] t Hi Hlook; [lia | discriminate | discriminate].
Qed.

(** With no connector in the trimmed text there is one task. *)
Lemma parse_not_multi_task instruction :
  _is_multi_task (strip instruction) = false ->
  parse instruction = [mkTask "task_0" (strip instruction) PARALLEL []].
Proof. unfold parse. now intros ->. Qed.

(** C9. For every instruction string in which no parallel and no
    sequential connector pattern is found, [parse] returns exactly one
    task, [task_0], of kind parallel, with an empty dependency set, whose
    instruction is the trimmed input. *)
Theorem parse_without_connector (instruction : string) :
  (forall pattern, In pattern (parallel_connectors ++ sequential_connectors) ->
                   found pattern instruction = false) ->
  parse instruction = [mkTask "task_0" (strip instruction) PARALLEL []].
Proof.
  intros Hnone. apply parse_not_multi_task.
  unfold _is_multi_task. apply not_true_is_false. intros Hex.
  apply existsb_exists in Hex as (pattern & Hin & Hfound).
  apply found_strip in Hfound. rewrite (Hnone pattern Hin) in Hfound. discriminate.
Qed.

Lemma parse_without_connector_witness :
  parse "  open the mail app " = [mkTask "task_0" (strip "  open the mail app ") PARALLEL []].
Proof.
  apply (parse_without_connector "  open the mail app ").
  intros pattern Hin. cbn in Hin.
  repeat (destruct Hin as [<- | Hin]; [reflexivity|]). destruct Hin.
Defined.

(** *** Further properties of the decomposer *)

Lemma rstrip_idempotent s : rstrip (rstrip s) = rstrip s.
Proof.
  induction s as [|c s IH]; [reflexivity|].
  cbn [rstrip]. destruct (rstrip s) as [|d r] eqn:E.
  - destruct (is_space c) eqn:Hc; [reflexivity|]. cbn [rstrip]. now rewrite Hc.
  - cbn [rstrip]. cbn [rstrip] in IH. rewrite IH. reflexivity.
Qed.

(** Text that does not start with white space. *)
Definition starts_clean (s : string) : Prop :=
  match s with
  | EmptyString => True
  | String c _ => is_space c = false
  end.

Lemma lstrip_starts_clean s : starts_clean (lstrip s).
Proof.
  induction s as [|c s IH]; [exact I|].
  cbn [lstrip]. destruct (is_space c) eqn:Hc; [exact IH | exact Hc].
Qed.

Lemma lstrip_clean s : starts_clean s -> lstrip s = s.
Proof. destruct s as [|c s]; [reflexivity|]. cbn. now intros ->. Qed.

Lemma rstrip_starts_clean s : starts_clean s -> starts_clean (rstrip s).
Proof.
  destruct s as [|c s]; [intros _; exact I|]. cbn [starts_clean rstrip]. intros Hc.
  destruct (rstrip s); [now rewrite Hc | exact Hc].
Qed.

Lemma strip_idempotent s : strip (strip s) = strip s.
Proof.
  unfold strip.
  rewrite (lstrip_clean (rstrip (lstrip s))).
  - apply rstrip_idempotent.
  - apply rstrip_starts_clean, lstrip_starts_clean.
Qed.

Lemma nonempty_true s : nonempty s = true <-> s <> EmptyString.
Proof. destruct s; cbn; split; congruence. Qed.

(** The ids of the tasks built from a segment list count up from [i]. *)
Lemma tasks_from_id_seq segments : forall i,
  map id (tasks_from i segments) = map task_id (seq i (length segments)).
Proof.
  induction segments as [|[seg ty] rest IH]; intros i; [reflexivity|].
  cbn. now rewrite IH.
Qed.

Lemma _split_instruction_nonempty text : _split_instruction text <> [].
Proof.
  unfold _split_instruction.
  destruct (sort_by_start _) as [|c cs]; [discriminate|].
  destruct (split_loop text (c :: cs) 0 []) as [last_end segments].
  match goal with |- match ?x with _ => _ end <> _ => destruct x end; discriminate.
Qed.

(** X1. [parse] never returns the empty list, and the ids of the tasks it
    returns are [task_0], [task_1], ... in order. *)
Theorem parse_ids_in_order (instruction : string) :
  parse instruction <> []
  /\ map id (parse instruction) = map task_id (seq 0 (length (parse instruction))).
Proof.
  unfold parse. destruct (negb (_is_multi_task (strip instruction))).
  - split; [discriminate | reflexivity].
  - split.
    + pose proof (_split_instruction_nonempty (strip instruction)) as H.
      destruct (_split_instruction (strip instruction)) as [|[seg ty] rest];
        [contradiction | discriminate].
    + now rewrite tasks_from_id_seq, tasks_from_length.
Qed.

(** X2. Every task returned by [parse] has at most one dependency, and the
    first task has none, whatever its kind. *)
Theorem parse_dependency_count (instruction : string) :
  (forall t, In t (parse instruction) -> (length (depends_on t) <= 1)%nat)
  /\ (forall t, parse instruction !! 0%nat = Some t -> depends_on t = []).
Proof.
  unfold parse. destruct (negb (_is_multi_task (strip instruction))).
  - split.
    + intros t [<- | []]. cbn. lia.
    + intros t [= <-]. reflexivity.
  - split.
    + intros t Hin. destruct (tasks_from_In _ _ Hin) as (k & seg & ty & _ & ->).
      cbn [depends_on]. destruct ty, k; cbn; lia.
    + intros t H. destruct (tasks_from_lookup _ _ _ _ H) as (seg & ty & _ & ->).
      cbn. now destruct ty.
Qed.

(** The segments gathered by the loop are trimmed and not empty. *)
Definition clean_segment (seg : string * TaskType) : Prop :=
  strip (fst seg) = fst seg /\ fst seg <> EmptyString.

Lemma split_loop_clean remaining : forall connectors_found last_end segments,
  Forall clean_segment segments ->
  Forall clean_segment (snd (split_loop remaining connectors_found last_end segments)).
Proof.
  induction connectors_found as [|[[[start end_] ty] grp] rest IH];
    intros last_end segments Hs; [exact Hs|].
  cbn [split_loop]. apply IH.
  destruct (last_end <? start)%nat; [|exact Hs].
  destruct (nonempty (strip (slice remaining last_end start))) eqn:Hne; [|exact Hs].
  apply Forall_app. split; [exact Hs|]. constructor; [|constructor].
  split; cbn [fst]; [apply strip_idempotent | now apply nonempty_true].
Qed.

Lemma Forall_or_default {A} (P : A -> Prop) (l d : list A) :
  Forall P d -> Forall P l -> Forall P (match l with [] => d | _ :: _ => l end).
Proof. destruct l; auto. Qed.

Lemma _split_instruction_clean text :
  strip text = text -> text <> EmptyString ->
  Forall clean_segment (_split_instruction text).
Proof.
  intros Ht Hne.
  assert (Hwhole : Forall clean_segment [(text, PARALLEL)]).
  { constructor; [split; assumption | constructor]. }
  unfold _split_instruction.
  destruct (sort_by_start _) as [|c cs] eqn:Hsort; [exact Hwhole|].
  assert (Hloop : Forall clean_segment (snd (split_loop text (c :: cs) 0 []))).
  { apply split_loop_clean. constructor. }
  destruct (split_loop text (c :: cs) 0 []) as [last_end segments]. cbn [snd] in Hloop.
  apply Forall_or_default; [exact Hwhole|].
  destruct (last_end <? String.length text)%nat; [|exact Hloop].
  destruct (nonempty (strip (slice_from text last_end))) eqn:Hn; [|exact Hloop].
  apply Forall_app. split; [exact Hloop|]. constructor; [|constructor].
  split; cbn [fst]; [apply strip_idempotent | now apply nonempty_true].
Qed.

Lemma _is_multi_task_empty : _is_multi_task EmptyString = false.
Proof. reflexivity. Qed.

(** X3. Every task returned by [parse] carries a trimmed instruction, and
    an empty one only when the whole input is empty once trimmed: the empty
    segments between connectors are dropped. *)
Theorem parse_instructions_trimmed (instruction : string) (t : Task) :
  In t (parse instruction) ->
  strip (TaskParser.instruction t) = TaskParser.instruction t
  /\ (TaskParser.instruction t = EmptyString -> strip instruction = EmptyString).
Proof.
  unfold parse. destruct (_is_multi_task (strip instruction)) eqn:Hm; cbn [negb].
  - intros Hin.
    assert (Hne : strip instruction <> EmptyString).
    { intros He. rewrite He, _is_multi_task_empty in Hm. discriminate. }
    pose proof (_split_instruction_clean _ (strip_idempotent instruction) Hne) as Hclean.
    apply list_elem_of_In, list_elem_of_lookup in Hin as [k Hk].
    destruct (tasks_from_lookup _ _ _ _ Hk) as (seg & ty & Hseg & ->).
    rewrite Forall_lookup in Hclean. destruct (Hclean _ _ Hseg) as [Hstrip Hnon].
    cbn [fst] in *. cbn [TaskParser.instruction]. rewrite Hstrip.
    split; [exact Hstrip | intros He; contradiction].
  - intros [<- | []]. cbn [TaskParser.instruction].
    split; [apply strip_idempotent | auto].
Qed.

Lemma parse_instructions_trimmed_witness :
  strip "compose" = "compose" /\ ("compose" = EmptyString -> strip "open mail then compose" = EmptyString).
Proof.
  apply (parse_instructions_trimmed "open mail then compose"
           (mkTask "task_1" "compose" SEQUENTIAL ["task_0"])).
  vm_compute. right. left. reflexivity.
Defined.

(** *** Instructions with parallel connectors only *)

Definition c_type (c : connector) : TaskType := snd (fst c).

Lemma search_none_finditer r : forall s prev pos pos' skip,
  search_from r prev s pos = None -> finditer_from r prev s pos' skip = [].
Proof.
  induction s as [|c s IH]; intros prev pos pos' skip H; cbn [search_from finditer_from] in *.
  - destruct (match_here r prev EmptyString); [discriminate|]. now destruct skip.
  - destruct (match_here r prev (String c s)); [discriminate|].
    destruct skip; now apply (IH _ (S pos)).
Qed.

Lemma not_found_finditer r s : found r s = false -> finditer r s = [].
Proof.
  unfold found, search, finditer. intros H.
  destruct (search_from r None s 0) eqn:E; [discriminate|].
  now apply (search_none_finditer r s None 0%nat).
Qed.

Lemma matches_of_none patterns ty s :
  (forall pattern, In pattern patterns -> found pattern s = false) ->
  matches_of patterns ty s = [].
Proof.
  unfold matches_of. induction patterns as [|p ps IH]; intros H; [reflexivity|].
  cbn [flat_map]. rewrite (not_found_finditer p s) by (apply H; now left).
  cbn. apply IH. intros q Hq. apply H. now right.
Qed.

Lemma matches_of_type patterns ty s :
  Forall (fun c => c_type c = ty) (matches_of patterns ty s).
Proof.
  unfold matches_of. induction patterns as [|p ps IH]; [constructor|].
  cbn [flat_map]. apply Forall_app. split; [|exact IH].
  apply List.Forall_forall. intros c Hc. apply in_map_iff in Hc as ([a b] & <- & _).
  reflexivity.
Qed.

Lemma insert_by_start_Forall (P : connector -> Prop) c sorted :
  P c -> Forall P sorted -> Forall P (insert_by_start c sorted).
Proof.
  intros Hc. induction 1 as [|d rest Hd Hrest IH]; cbn [insert_by_start].
  - constructor; [exact Hc | constructor].
  - destruct (c_start c <? c_start d)%nat.
    + constructor; [exact Hc|]. constructor; assumption.
    + constructor; assumption.
Qed.

Lemma sort_by_start_Forall (P : connector -> Prop) cs :
  Forall P cs -> Forall P (sort_by_start cs).
Proof.
  unfold sort_by_start.
  assert (H : forall acc, Forall P acc -> Forall P cs ->
                          Forall P (fold_left (fun sorted c => insert_by_start c sorted) cs acc)).
  { induction cs as [|c cs IH]; intros acc Hacc Hcs; [exact Hacc|].
    cbn [fold_left]. apply List.Forall_cons_iff in Hcs as [Hc Hcs].
    apply IH; [now apply insert_by_start_Forall | exact Hcs]. }
  intros Hcs. apply H; [constructor | exact Hcs].
Qed.

Definition parallel_segment (seg : string * TaskType) : Prop := snd seg = PARALLEL.

Lemma split_loop_parallel remaining : forall connectors_found last_end segments,
  Forall (fun c => c_type c = PARALLEL) connectors_found ->
  Forall parallel_segment segments ->
  Forall parallel_segment (snd (split_loop remaining connectors_found last_end segments)).
Proof.
  induction connectors_found as [|[[[start end_] ty] grp] rest IH];
    intros last_end segments Hc Hs; [exact Hs|].
  apply List.Forall_cons_iff in Hc as [Hty Hrest]. cbn in Hty. subst ty.
  cbn [split_loop]. apply IH; [exact Hrest|].
  destruct (last_end <? start)%nat; [|exact Hs].
  destruct (nonempty (strip (slice remaining last_end start))); [|exact Hs].
  apply Forall_app. split; [exact Hs|]. constructor; [|constructor].
  unfold parallel_segment. cbn [snd]. now destruct segments.
Qed.

Lemma last_Forall {A} (P : A -> Prop) (l : list A) x :
  Forall P l -> last l = Some x -> P x.
Proof.
  intros Hl Hx. apply last_Some in Hx as [l' ->].
  apply Forall_app in Hl as [_ Hl]. now apply List.Forall_cons_iff in Hl as [Hl _].
Qed.

Lemma _split_instruction_parallel text :
  (forall pattern, In pattern sequential_connectors -> found pattern text = false) ->
  Forall parallel_segment (_split_instruction text).
Proof.
  intros Hnone.
  assert (Hwhole : Forall parallel_segment [(text, PARALLEL)]).
  { constructor; [reflexivity | constructor]. }
  unfold _split_instruction.
  rewrite (matches_of_none sequential_connectors SEQUENTIAL text Hnone), app_nil_r.
  pose proof (sort_by_start_Forall _ _ (matches_of_type parallel_connectors PARALLEL text))
    as Hsorted.
  destruct (sort_by_start _) as [|c cs]; [exact Hwhole|].
  assert (Hloop : Forall parallel_segment (snd (split_loop text (c :: cs) 0 []))).
  { apply split_loop_parallel; [exact Hsorted | constructor]. }
  destruct (split_loop text (c :: cs) 0 []) as [last_end segments]. cbn [snd] in Hloop.
  apply Forall_or_default; [exact Hwhole|].
  destruct (last_end <? String.length text)%nat; [|exact Hloop].
  destruct (nonempty (strip (slice_from text last_end))); [|exact Hloop].
  apply Forall_app. split; [exact Hloop|]. constructor; [|constructor].
  unfold parallel_segment. cbn [snd].
  destruct (last (c :: cs)) as [[[[s e] ty] grp]|] eqn:Hlast; [|reflexivity].
  exact (last_Forall _ _ _ Hsorted Hlast).
Qed.

(** X4. For every instruction in which no sequential connector pattern is
    found (only parallel connectors, or none), every task returned by
    [parse] is of kind parallel and has an empty dependency set. *)
Theorem parse_parallel_only (instruction : string) :
  (forall pattern, In pattern sequential_connectors -> found pattern instruction = false) ->
  forall t, In t (parse instruction) -> task_type t = PARALLEL /\ depends_on t = [].
Proof.
  intros Hnone t. unfold parse.
  destruct (negb (_is_multi_task (strip instruction))).
  - intros [<- | []]. split; reflexivity.
  - intros Hin.
    assert (Hpar : Forall parallel_segment (_split_instruction (strip instruction))).
    { apply _split_instruction_parallel. intros pattern Hp.
      apply not_true_is_false. intros Hf. apply found_strip in Hf.
      rewrite (Hnone pattern Hp) in Hf. discriminate. }
    apply list_elem_of_In, list_elem_of_lookup in Hin as [k Hk].
    destruct (tasks_from_lookup _ _ _ _ Hk) as (seg & ty & Hseg & ->).
    rewrite Forall_lookup in Hpar. specialize (Hpar _ _ Hseg).
    unfold parallel_segment in Hpar. cbn [snd] in Hpar. subst ty.
    split; reflexivity.
Qed.

Lemma parse_parallel_only_witness :
  task_type (mkTask "task_1" "paste it" PARALLEL []) = PARALLEL
  /\ depends_on (mkTask "task_1" "paste it" PARALLEL []) = [].
Proof.
  apply (parse_parallel_only "copy this and paste it").
  - intros pattern Hin. cbn in Hin.
    repeat (destruct Hin as [<- | Hin]; [reflexivity|]). destruct Hin.
  - vm_compute. right. left. reflexivity.
Defined.

End TaskParser.

(* ===================================================================== *)
(** ** src/context_manager.py *)
(* ===================================================================== *)

Module ContextManager.
Import TaskParser.

Inductive TaskStatus : Type := PENDING | RUNNING | COMPLETED | FAILED.

Definition status_eqb (a b : TaskStatus) : bool :=
  match a, b with
  | PENDING, PENDING | RUNNING, RUNNING | COMPLETED, COMPLETED | FAILED, FAILED => true
  | _, _ => false
  end.

(** [dep_status in [TaskStatus.COMPLETED, TaskStatus.FAILED]] *)
Definition terminal (st : TaskStatus) : bool :=
  match st with
  | COMPLETED | FAILED => true
  | PENDING | RUNNING => false
  end.

(** The dictionary returned by [_execute_single_task]: the path taken and
    the success flag (the modality-specific details are not modelled). *)
Record task_result : Type := TaskResult {
  path : CommandRouter.path;
  success : bool
}.

Record TaskExecution : Type := mkExecution {
  task : Task;
  status : TaskStatus;
  result : option task_result;
  error : option string;
  started_at : option Q;
  completed_at : option Q
}.

Definition set_status (st : TaskStatus) (e : TaskExecution) : TaskExecution :=
  mkExecution (task e) st (result e) (error e) (started_at e) (completed_at e).

Definition set_result (r : task_result) (e : TaskExecution) : TaskExecution :=
  mkExecution (task e) (status e) (Some r) (error e) (started_at e) (completed_at e).

Definition set_error (msg : string) (e : TaskExecution) : TaskExecution :=
  mkExecution (task e) (status e) (result e) (Some msg) (started_at e) (completed_at e).

Definition set_started_at (now : Q) (e : TaskExecution) : TaskExecution :=
  mkExecution (task e) (status e) (result e) (error e) (Some now) (completed_at e).

Definition set_completed_at (now : Q) (e : TaskExecution) : TaskExecution :=
  mkExecution (task e) (status e) (result e) (error e) (started_at e) (Some now).

(** A future of the thread pool: queued, running in a worker thread, or
    done with the value returned or the text of the exception raised. *)
Inductive future_state : Type :=
| Queued
| Started
| Finished (outcome : task_result + string).

Record future : Type := Future {
  f_task : Task;
  f_state : future_state
}.

(** Where the thread that called [execute_tasks] stands: in the loop that
    waits for dependencies and submits (line 59), in the loop that collects
    the futures (line 76), or returned (line 85). *)
Inductive pc : Type :=
| Submitting (todo : list Task)
| Collecting (todo : list (string * nat))
| Returned.

Record state : Type := State {
  executions : gmap string TaskExecution;   (* self.executions *)
  pool : list future;                       (* the futures, by submission *)
  futures : list (string * nat);            (* futures: task id -> future *)
  main : pc
}.

(** What can happen next.  [Main] lets the calling thread make progress:
    one poll of [_wait_for_dependencies] followed by the submit when the
    poll succeeds, or the collection of a future that is done.  [Timeout]
    is the expiry of [future.result(timeout=300)].  The other events are
    the worker threads: lines 114-116, the normal return of lines 147-148
    and the exceptional exit of lines 150-152. *)
Inductive event : Type :=
| Main
| Timeout
| WorkerStart (f : nat) (now : Q)
| WorkerReturn (f : nat) (r : task_result) (now : Q)
| WorkerRaise (f : nat) (msg : string) (now : Q).

(** [d[k] = v] on a dictionary kept in insertion order. *)
Fixpoint dict_set {V} (d : list (string * V)) (k : string) (v : V) : list (string * V) :=
  match d with
  | [] => [(k, v)]
  | (k', v') :: rest =>
      if String.eqb k' k then (k', v) :: rest else (k', v') :: dict_set rest k v
  end.

(** One evaluation of the body of [while True] in [_wait_for_dependencies]:
    the value of [all_deps_done]. *)
Fixpoint all_deps_done (ex : gmap string TaskExecution) (deps : list string) : bool :=
  match deps with
  | [] => true
  | dep_id :: rest =>
      match ex !! dep_id with
      | Some dep =>
          if negb (terminal (status dep)) then false else all_deps_done ex rest
      | None => all_deps_done ex rest
      end
  end.

(** One poll of [ContextManager._wait_for_dependencies] for [t]: [true]
    when the loop is left, [false] when the thread sleeps and polls again. *)
Definition _wait_for_dependencies (ex : gmap string TaskExecution) (t : Task) : bool :=
  all_deps_done ex (depends_on t).

Definition is_started (fu : future) : bool :=
  match f_state fu with Started => true | _ => false end.

(** The worker threads that are busy. *)
Definition busy (s : state) : nat := length (List.filter is_started (pool s)).

Definition set_future (f : nat) (st : future_state) (p : list future) : list future :=
  match p !! f with
  | Some fu => <[f := Future (f_task fu) st]> p
  | None => p
  end.

(** The first loop of [execute_tasks] (lines 53-54). *)
Fixpoint init_executions (ex : gmap string TaskExecution) (tasks : list Task)
  : gmap string TaskExecution :=
  match tasks with
  | [] => ex
  | t :: rest =>
      init_executions (<[id t := mkExecution t PENDING None None None None]> ex) rest
  end.

(** The state in which the submit loop is entered, for a manager whose
    execution map is [ex] and whose pool is idle. *)
Definition start (ex : gmap string TaskExecution) (tasks : list Task) : state :=
  State (init_executions ex tasks) [] [] (Submitting tasks).

Section Step.

(** [max_parallel_tasks], the number of worker threads. *)
Variable max_workers : nat.

Definition step_main (s : state) : state :=
  match main s with
  | Submitting [] => State (executions s) (pool s) (futures s) (Collecting (futures s))
  | Submitting (t :: rest) =>
      if _wait_for_dependencies (executions s) t
      then State (executions s) (pool s ++ [Future t Queued])
                 (dict_set (futures s) (id t) (length (pool s))) (Submitting rest)
      else s                                                       (* time.sleep(0.1) *)
  | Collecting [] => State (executions s) (pool s) (futures s) Returned
  | Collecting ((task_id, f) :: rest) =>
      match f_state <$> pool s !! f with
      | Some (Finished (inl r)) =>
          State (alter (fun e => set_status COMPLETED (set_result r e)) task_id (executions s))
                (pool s) (futures s) (Collecting rest)
      | Some (Finished (inr msg)) =>
          State (alter (fun e => set_status FAILED (set_error msg e)) task_id (executions s))
                (pool s) (futures s) (Collecting rest)
      | _ => s                                                     (* still waiting *)
      end
  | Returned => s
  end.

Definition step_timeout (s : state) : state :=
  match main s with
  | Collecting ((task_id, f) :: rest) =>
      match f_state <$> pool s !! f with
      | Some (Finished _) => s
      | _ =>
          (* [str(TimeoutError())] is the empty string *)
          State (alter (fun e => set_status FAILED (set_error "" e)) task_id (executions s))
                (pool s) (futures s) (Collecting rest)
      end
  | _ => s
  end.

Definition step_worker_start (f : nat) (now : Q) (s : state) : state :=
  match pool s !! f with
  | Some (Future t Queued) =>
      if (busy s <? max_workers)%nat
      then State (alter (fun e => set_started_at now (set_status RUNNING e)) (id t)
                        (executions s))
                 (set_future f Started (pool s)) (futures s) (main s)
      else s
  | _ => s
  end.

Definition step_worker_exit (f : nat) (outcome : task_result + string) (now : Q)
  (s : state) : state :=
  match pool s !! f with
  | Some (Future t Started) =>
      State (alter (set_completed_at now) (id t) (executions s))
            (set_future f (Finished outcome) (pool s)) (futures s) (main s)
  | _ => s
  end.

(** One event; an event that cannot happen in [s] leaves [s] as it is. *)
Definition step (s : state) (e : event) : state :=
  match e with
  | Main => step_main s
  | Timeout => step_timeout s
  | WorkerStart f now => step_worker_start f now s
  | WorkerReturn f r now => step_worker_exit f (inl r) now s
  | WorkerRaise f msg now => step_worker_exit f (inr msg) now s
  end.

(** A schedule, run from [s]. *)
Definition exec (s : state) (schedule : list event) : state :=
  fold_left step schedule s.

(** [execute_tasks] under a schedule: the execution map, once the calling
    thread has returned. *)
Definition execute_tasks (ex : gmap string TaskExecution) (tasks : list Task)
  (schedule : list event) : option (gmap string TaskExecution) :=
  let s := exec (start ex tasks) schedule in
  match main s with
  | Returned => Some (executions s)
  | _ => None
  end.

End Step.

(** [self.executions.values()] *)
Definition values (ex : gmap string TaskExecution) : list TaskExecution :=
  (map_to_list ex).*2.

(** [sum(1 for e in self.executions.values() if e.status == st)] *)
Definition count_status (st : TaskStatus) (ex : gmap string TaskExecution) : nat :=
  length (List.filter (fun e => status_eqb (status e) st) (values ex)).

(** Truthiness of an optional stamp: present and not zero. *)
Definition stamp_truthy (t : option Q) : bool :=
  match t with
  | Some q => negb (Qeq_bool q 0%Q)
  | None => false
  end.

(** [t or 0] *)
Definition or_zero (t : option Q) : Q :=
  if stamp_truthy t then match t with Some q => q | None => 0%Q end else 0%Q.

(** [e.completed_at and e.started_at] *)
Definition stamped (e : TaskExecution) : bool :=
  stamp_truthy (completed_at e) && stamp_truthy (started_at e).

(** [(e.completed_at or 0) - (e.started_at or 0)] *)
Definition duration (e : TaskExecution) : Q :=
  (or_zero (completed_at e) - or_zero (started_at e))%Q.

(** [sum(...)] of the built-in: from [0], left to right. *)
Definition sum (qs : list Q) : Q := fold_left Qplus qs 0%Q.

Record summary : Type := Summary {
  total_tasks : nat;
  completed : nat;
  failed : nat;
  running : nat;
  pending : nat;
  total_execution_time : option Q     (* the key is absent when [None] *)
}.

(** [ContextManager.get_execution_summary] *)
Definition get_execution_summary (ex : gmap string TaskExecution) : summary :=
  let n_completed := count_status COMPLETED ex in
  Summary (size ex)
          n_completed
          (count_status FAILED ex)
          (count_status RUNNING ex)
          (count_status PENDING ex)
          (if (0 <? n_completed)%nat
           then Some (sum (map duration (List.filter stamped (values ex))))
           else None).

(** *** The dependency wait *)

Definition status_of (s : state) (task_id : string) : option TaskStatus :=
  status <$> executions s !! task_id.

(** After the first loop every task of the list is registered as pending. *)
Lemma init_executions_pending tasks : forall ex d,
  In d (map id tasks) \/ status <$> ex !! d = Some PENDING ->
  status <$> init_executions ex tasks !! d = Some PENDING.
Proof.
  induction tasks as [|t rest IH]; intros ex d H; cbn [init_executions].
  - destruct H as [[] | H]. exact H.
  - apply IH. destruct (decide (id t = d)) as [<- | Hne].
    + right. now rewrite lookup_insert_eq.
    + destruct H as [[Heq | Hin] | H]; [contradiction | now left |].
      right. now rewrite lookup_insert_ne.
Qed.

(** A dependency that is registered and not terminal fails the poll. *)
Lemma all_deps_done_blocked ex deps d st :
  In d deps -> status <$> ex !! d = Some st -> terminal st = false ->
  all_deps_done ex deps = false.
Proof.
  intros Hin Hd Hst. induction deps as [|x deps IH]; [destruct Hin|].
  cbn [all_deps_done]. destruct (decide (x = d)) as [-> | Hne].
  - destruct (ex !! d) as [e|]; [|discriminate].
    cbn in Hd. injection Hd as ->. now rewrite Hst.
  - destruct Hin as [Heq | Hin]; [contradiction|].
    destruct (ex !! x) as [e|]; [|now apply IH].
    destruct (negb (terminal (status e))); [reflexivity | now apply IH].
Qed.

(** The calling thread has not yet submitted [t], and the dependency [d]
    is registered with a status that is not terminal. *)
Definition waiting_for (t : Task) (after : list Task) (d : string) (s : state) : Prop :=
  (exists pre, main s = Submitting (pre ++ t :: after))
  /\ (exists st, status_of s d = Some st /\ terminal st = false).

Lemma status_of_alter (g : TaskExecution -> TaskExecution) k ex p fs m d :
  status_of (State (alter g k ex) p fs m) d
  = if decide (k = d) then status <$> (g <$> ex !! k) else status <$> ex !! d.
Proof.
  unfold status_of. cbn [executions]. rewrite lookup_alter. now destruct (decide (k = d)).
Qed.

(** No event ends the wait: a worker only ever sets [RUNNING], and the
    terminal statuses are set by the collection loop, which comes after
    the submit loop. *)
Lemma waiting_for_step max_workers t after d s e :
  In d (depends_on t) ->
  waiting_for t after d s -> waiting_for t after d (step max_workers s e).
Proof.
  intros Hd [[pre Hmain] (st & Hst & Hterm)].
  destruct e as [| |f now|f r now|f msg now]; cbn [step].
  - unfold step_main, _wait_for_dependencies. rewrite Hmain.
    destruct pre as [|p pre]; cbn [app].
    + unfold status_of in Hst.
      rewrite (all_deps_done_blocked _ _ d st Hd Hst Hterm).
      split; [exists []; exact Hmain | eauto].
    + destruct (all_deps_done (executions s) (depends_on p)).
      * split; [exists pre; reflexivity | exists st; auto].
      * split; [exists (p :: pre); exact Hmain | eauto].
  - unfold step_timeout. rewrite Hmain. split; [eauto | eauto].
  - unfold step_worker_start.
    destruct (pool s !! f) as [[t' [| |o]]|]; try (split; eauto; fail).
    destruct (busy s <? max_workers)%nat; [|split; eauto].
    split; [exists pre; exact Hmain|].
    rewrite status_of_alter. destruct (decide (id t' = d)) as [-> | Hne].
    + unfold status_of in Hst. destruct (executions s !! d); [|discriminate].
      exists RUNNING. split; reflexivity.
    + eauto.
  - unfold step_worker_exit.
    destruct (pool s !! f) as [[t' [| |o]]|]; try (split; eauto; fail).
    split; [exists pre; exact Hmain|].
    rewrite status_of_alter. destruct (decide (id t' = d)) as [-> | Hne]; [|eauto].
    unfold status_of in Hst. destruct (executions s !! d); [|discriminate]. eauto.
  - unfold step_worker_exit.
    destruct (pool s !! f) as [[t' [| |o]]|]; try (split; eauto; fail).
    split; [exists pre; exact Hmain|].
    rewrite status_of_alter. destruct (decide (id t' = d)) as [-> | Hne]; [|eauto].
    unfold status_of in Hst. destruct (executions s !! d); [|discriminate]. eauto.
Qed.

Lemma waiting_for_exec max_workers t after d schedule : forall s,
  In d (depends_on t) ->
  waiting_for t after d s -> waiting_for t after d (exec max_workers s schedule).
Proof.
  induction schedule as [|e schedule IH]; intros s Hd H; [exact H|].
  cbn [exec fold_left]. apply IH; [exact Hd|]. now apply waiting_for_step.
Qed.

(** C1 fails on the code.  Whenever a task of the list depends on the id
    of a task of the same list (as every sequential task produced by the
    decomposer does), the dependency poll of [_wait_for_dependencies]
    never succeeds, under any schedule of the worker threads: the task is
    never submitted and [execute_tasks] never returns. *)
Theorem execute_tasks_never_returns (max_workers : nat)
  (ex : gmap string TaskExecution) (before : list Task) (t : Task)
  (after : list Task) (d : string) (schedule : list event) :
  In d (depends_on t) ->
  In d (map id (before ++ t :: after)) ->
  execute_tasks max_workers ex (before ++ t :: after) schedule = None
  /\ exists pre,
       main (exec max_workers (start ex (before ++ t :: after)) schedule)
       = Submitting (pre ++ t :: after).
Proof.
  intros Hdep Hreg.
  assert (H : waiting_for t after d
                (exec max_workers (start ex (before ++ t :: after)) schedule)).
  { apply waiting_for_exec; [exact Hdep|]. split.
    - exists before. reflexivity.
    - exists PENDING. split; [|reflexivity].
      unfold status_of, start. cbn [executions].
      apply init_executions_pending. now left. }
  destruct H as [[pre Hmain] _]. split; [|eauto].
  unfold execute_tasks. now rewrite Hmain.
Qed.

Definition ok_result : task_result := TaskResult CommandRouter.shell true.

Lemma execute_tasks_never_returns_witness :
  let tasks := parse "open mail then compose" in
  let schedule := [Main; WorkerStart 0 1%Q; WorkerReturn 0 ok_result 2%Q;
                   Main; Main; Timeout; Main] in
  execute_tasks 3 ∅ tasks schedule = None
  /\ exists pre,
       main (exec 3 (start ∅ tasks) schedule)
       = Submitting (pre ++ [mkTask "task_1" "compose" SEQUENTIAL ["task_0"]]).
Proof.
  apply (execute_tasks_never_returns 3 ∅
           [mkTask "task_0" "open mail" PARALLEL []]
           (mkTask "task_1" "compose" SEQUENTIAL ["task_0"]) [] "task_0").
  - cbn. auto.
  - cbn. auto.
Defined.

(** *** The execution summary *)

Lemma fold_left_Qplus_acc (qs : list Q) : forall a : Q,
  (fold_left Qplus qs a == a + fold_left Qplus qs 0)%Q.
Proof.
  induction qs as [|q qs IH]; intros a; cbn [fold_left].
  - ring.
  - rewrite IH, (IH (0 + q)%Q). ring.
Qed.

Lemma sum_cons (q : Q) (qs : list Q) : (sum (q :: qs) == q + sum qs)%Q.
Proof. unfold sum. cbn [fold_left]. rewrite fold_left_Qplus_acc. ring. Qed.

(** The time accounted to the entries of one status: the durations of those
    that carry both stamps. *)
Definition time_of (st : TaskStatus) (ex : gmap string TaskExecution) : Q :=
  sum (map duration
         (List.filter (fun e => stamped e && status_eqb (status e) st) (values ex))).

Lemma count_partition (vs : list TaskExecution) :
  length vs
  = (length (List.filter (fun e => status_eqb (status e) COMPLETED) vs)
     + length (List.filter (fun e => status_eqb (status e) FAILED) vs)
     + length (List.filter (fun e => status_eqb (status e) RUNNING) vs)
     + length (List.filter (fun e => status_eqb (status e) PENDING) vs))%nat.
Proof.
  induction vs as [|e vs IH]; [reflexivity|].
  cbn [List.filter length]. destruct (status e); cbn [status_eqb length]; lia.
Qed.

Lemma time_partition (vs : list TaskExecution) :
  (sum (map duration (List.filter stamped vs))
   == sum (map duration (List.filter (fun e => stamped e && status_eqb (status e) COMPLETED) vs))
      + sum (map duration (List.filter (fun e => stamped e && status_eqb (status e) FAILED) vs))
      + sum (map duration (List.filter (fun e => stamped e && status_eqb (status e) RUNNING) vs))
      + sum (map duration (List.filter (fun e => stamped e && status_eqb (status e) PENDING) vs)))%Q.
Proof.
  induction vs as [|e vs IH]; [reflexivity|].
  cbn [List.filter]. destruct (stamped e); cbn [andb]; [|exact IH].
  destruct (status e); cbn [status_eqb map]; rewrite !sum_cons, IH; ring.
Qed.

Definition two_task_schedule : list event :=
  [Main; Main;
   WorkerStart 0 10%Q; WorkerStart 1 10%Q;
   WorkerReturn 0 ok_result 12%Q; WorkerRaise 1 "boom" 15%Q;
   Main; Main; Main; Main].

(** C7 as stated fails: after a run in which [task_0] completes in 2
    seconds and [task_1] raises after 5 seconds, the summary reports a
    total execution time of 7, while the durations of the completed tasks
    sum to 2. *)
Lemma summary_counts_failed_time :
  let s := exec 3 (start ∅ (parse "build and test")) two_task_schedule in
  main s = Returned
  /\ status_of s "task_0" = Some COMPLETED
  /\ status_of s "task_1" = Some FAILED
  /\ total_execution_time (get_execution_summary (executions s)) = Some 7%Q
  /\ (time_of COMPLETED (executions s) == 2)%Q
  /\ ~ (7 == 2)%Q.
Proof.
  cbv zeta.
  split; [vm_compute; reflexivity|]. split; [vm_compute; reflexivity|].
  split; [vm_compute; reflexivity|]. split; [vm_compute; reflexivity|].
  split; [vm_compute; reflexivity|].
  intros H. vm_compute in H. discriminate H.
Qed.

(** C7 (amended). The summary reports total/completed/failed/running/
    pending counts that partition the TaskExecution map.  Its total
    execution time is present exactly when at least one task is completed,
    and then equals the sum of the durations (completed_at - started_at)
    over the tasks that carry both stamps, whatever their status: the time
    of the completed tasks plus the time of the failed, running and pending
    tasks that have both stamps. *)
Theorem summary_partition_and_time (ex : gmap string TaskExecution) :
  let sm := get_execution_summary ex in
  total_tasks sm = (completed sm + failed sm + running sm + pending sm)%nat
  /\ match total_execution_time sm with
     | Some t =>
         (0 < completed sm)%nat
         /\ (t == time_of COMPLETED ex + time_of FAILED ex
                  + time_of RUNNING ex + time_of PENDING ex)%Q
     | None => completed sm = 0%nat
     end.
Proof.
  cbv zeta. unfold get_execution_summary.
  cbn [total_tasks completed failed running pending total_execution_time]. split.
  - unfold count_status. rewrite <- count_partition.
    unfold values. now rewrite length_fmap, length_map_to_list.
  - destruct (0 <? count_status COMPLETED ex)%nat eqn:Hc.
    + split; [now apply Nat.ltb_lt|]. apply time_partition.
    + apply Nat.ltb_ge in Hc. lia.
Qed.

(** *** The status of a task along a run *)

(** The status changes an event can make: a worker that starts sets
    [RUNNING], the collection of a finished future sets [COMPLETED] or
    [FAILED], an expired wait sets [FAILED]. *)
Definition allowed (e : event) (a b : TaskStatus) : bool :=
  match e, a, b with
  | WorkerStart _ _, PENDING, RUNNING => true
  | WorkerStart _ _, FAILED, RUNNING => true
  | Main, RUNNING, COMPLETED => true
  | Main, RUNNING, FAILED => true
  | Timeout, RUNNING, FAILED => true
  | Timeout, PENDING, FAILED => true
  | _, _, _ => false
  end.

Definition pool_ids (s : state) : list string :=
  map (fun fu => id (f_task fu)) (pool s).

Definition todo_ids (s : state) : list string :=
  match main s with
  | Submitting todo => map id todo
  | _ => []
  end.

(** The future [f] has not been collected yet. *)
Definition uncollected (s : state) (f : nat) : bool :=
  match main s with
  | Submitting _ => true
  | Collecting todo => bool_decide (f ∈ todo.*2)
  | Returned => false
  end.

(** The status that goes with the state of a task's future. *)
Definition status_fits (unc : bool) (fs : future_state) (st : TaskStatus) : Prop :=
  match unc, fs with
  | true, Queued => st = PENDING
  | true, _ => st = RUNNING
  | false, Queued => st = FAILED
  | false, _ => True
  end.

(** The invariant of a run over tasks with distinct ids. *)
Record consistent (s : state) : Prop := Consistent {
  c_keys : (futures s).*1 = pool_ids s;
  c_vals : (futures s).*2 = seq 0 (length (pool s));
  c_nodup : NoDup (pool_ids s ++ todo_ids s);
  c_status : forall f fu, pool s !! f = Some fu ->
     exists st, status_of s (id (f_task fu)) = Some st
                /\ status_fits (uncollected s f) (f_state fu) st;
  c_todo : forall todo t, main s = Submitting todo -> In t todo ->
     status_of s (id t) = Some PENDING;
  c_collect : forall todo, main s = Collecting todo ->
     exists done, futures s = done ++ todo
}.

Lemma consistent_start ex tasks :
  NoDup (map id tasks) -> consistent (start ex tasks).
Proof.
  intros Hnd. split; cbn; try reflexivity.
  - exact Hnd.
  - intros f fu H. discriminate.
  - intros todo t [= <-] Hin. unfold status_of, start. cbn [executions].
    apply init_executions_pending. left. now apply in_map.
  - intros todo [=].
Qed.

(** The entry of [futures] at position [i] is the id of the [i]-th future
    together with [i]. *)
Lemma futures_lookup s i task_id f :
  consistent s -> futures s !! i = Some (task_id, f) ->
  f = i /\ exists fu, pool s !! f = Some fu /\ id (f_task fu) = task_id.
Proof.
  intros Hc Hi.
  assert (Hv : (futures s).*2 !! i = Some f) by (rewrite list_lookup_fmap, Hi; reflexivity).
  assert (Hk : (futures s).*1 !! i = Some task_id) by (rewrite list_lookup_fmap, Hi; reflexivity).
  rewrite (c_vals s Hc) in Hv. apply lookup_seq in Hv as [-> _].
  rewrite (c_keys s Hc) in Hk. unfold pool_ids in Hk.
  rewrite list_lookup_fmap in Hk. split; [reflexivity|].
  cbn [Nat.add]. destruct (pool s !! i) as [fu|]; [|discriminate].
  exists fu. split; [reflexivity|]. now injection Hk.
Qed.

(** The future about to be collected belongs to the task id it is filed
    under, and is not filed again further on. *)
Lemma collect_head s task_id f rest :
  consistent s -> main s = Collecting ((task_id, f) :: rest) ->
  (exists fu, pool s !! f = Some fu /\ id (f_task fu) = task_id) /\ f ∉ rest.*2.
Proof.
  intros Hc Hm. destruct (c_collect s Hc _ Hm) as [done Hf]. split.
  - apply (futures_lookup s (length done) task_id f Hc).
    rewrite Hf. now rewrite list_lookup_middle.
  - assert (Hnd : NoDup ((futures s).*2)) by (rewrite (c_vals s Hc); apply NoDup_seq).
    rewrite Hf, fmap_app, fmap_cons in Hnd.
    apply NoDup_app in Hnd as (_ & _ & Hnd). now apply NoDup_cons in Hnd as [Hnd _].
Qed.

(** Two futures of one task id are the same future. *)
Lemma pool_id_inj s f f' fu fu' :
  consistent s -> pool s !! f = Some fu -> pool s !! f' = Some fu' ->
  id (f_task fu) = id (f_task fu') -> f = f'.
Proof.
  intros Hc Hf Hf' Hid.
  assert (Hnd : NoDup (pool_ids s)).
  { pose proof (c_nodup s Hc) as H. now apply NoDup_app in H as [H _]. }
  apply (NoDup_lookup _ f f' (id (f_task fu)) Hnd); unfold pool_ids;
    rewrite list_lookup_fmap; [now rewrite Hf | now rewrite Hf', Hid].
Qed.

Lemma status_of_state ex p fs m d : status_of (State ex p fs m) d = status <$> ex !! d.
Proof. reflexivity. Qed.

(** Every change of status made by an event is an allowed one. *)
Lemma step_status_allowed max_workers s e task_id a b :
  consistent s ->
  status_of s task_id = Some a ->
  status_of (step max_workers s e) task_id = Some b ->
  a = b \/ allowed e a b = true.
Proof.
  intros Hc Ha Hb.
  assert (Hsame : forall s', executions s' = executions s ->
                             status_of s' task_id = Some b -> a = b).
  { intros s' Hex H. unfold status_of in *. rewrite Hex, Ha in H. now injection H. }
  destruct e as [| |f now|f r now|f msg now]; cbn [step] in Hb.
  - unfold step_main, _wait_for_dependencies in Hb.
    destruct (main s) as [[|t rest] | [|[tid f] rest] | ] eqn:Hm;
      try (left; apply (Hsame _ eq_refl Hb); fail).
    + destruct (all_deps_done (executions s) (depends_on t));
        left; apply (Hsame _ eq_refl Hb).
    + destruct (collect_head s tid f rest Hc Hm) as [(fu & Hfu & Hid) _].
      destruct (c_status s Hc f fu Hfu) as (st & Hst & Hfit).
      unfold uncollected in Hfit. rewrite Hm in Hfit.
      rewrite bool_decide_eq_true_2 in Hfit by (rewrite fmap_cons; left).
      rewrite Hfu in Hb. cbn [fmap option_fmap option_map] in Hb.
      destruct (f_state fu) as [| |[r|msg]] eqn:Hfs;
        try (left; apply (Hsame _ eq_refl Hb); fail);
        rewrite status_of_alter in Hb;
        (destruct (decide (tid = task_id)) as [<- | Hne];
         [| left; unfold status_of in Ha; rewrite Ha in Hb; now injection Hb]);
        rewrite <- Hid, Hst in Ha; injection Ha as <-;
        cbn in Hfit; subst st; right;
        unfold status_of in Hst; rewrite Hid in Hst;
        destruct (executions s !! tid); try discriminate;
        cbn in Hb; injection Hb as <-; reflexivity.
  - unfold step_timeout in Hb.
    destruct (main s) as [todo | [|[tid f] rest] | ] eqn:Hm;
      try (left; apply (Hsame _ eq_refl Hb); fail).
    destruct (collect_head s tid f rest Hc Hm) as [(fu & Hfu & Hid) _].
    destruct (c_status s Hc f fu Hfu) as (st & Hst & Hfit).
    unfold uncollected in Hfit. rewrite Hm in Hfit.
    rewrite bool_decide_eq_true_2 in Hfit by (rewrite fmap_cons; left).
    rewrite Hfu in Hb. cbn [fmap option_fmap option_map] in Hb.
    destruct (f_state fu) as [| |o] eqn:Hfs;
      try (left; apply (Hsame _ eq_refl Hb); fail);
      rewrite status_of_alter in Hb;
      (destruct (decide (tid = task_id)) as [<- | Hne];
       [| left; unfold status_of in Ha; rewrite Ha in Hb; now injection Hb]);
      rewrite <- Hid, Hst in Ha; injection Ha as <-;
      cbn in Hfit; subst st; right;
      unfold status_of in Hst; rewrite Hid in Hst;
      destruct (executions s !! tid); try discriminate;
      cbn in Hb; injection Hb as <-; reflexivity.
  - unfold step_worker_start in Hb.
    destruct (pool s !! f) as [[t [| |o]]|] eqn:Hfu;
      try (left; apply (Hsame _ eq_refl Hb); fail).
    destruct (busy s <? max_workers)%nat; [|left; apply (Hsame _ eq_refl Hb)].
    destruct (c_status s Hc f _ Hfu) as (st & Hst & Hfit). cbn [f_task f_state] in *.
    rewrite status_of_alter in Hb.
    destruct (decide (id t = task_id)) as [<- | Hne];
      [| left; unfold status_of in Ha; rewrite Ha in Hb; now injection Hb].
    rewrite Hst in Ha. injection Ha as <-. right.
    unfold status_of in Hst. destruct (executions s !! id t); [|discriminate].
    cbn in Hb. injection Hb as <-.
    destruct (uncollected s f); cbn in Hfit; subst st; reflexivity.
  - unfold step_worker_exit in Hb.
    destruct (pool s !! f) as [[t [| |o]]|] eqn:Hfu;
      try (left; apply (Hsame _ eq_refl Hb); fail).
    rewrite status_of_alter in Hb. left.
    destruct (decide (id t = task_id)) as [<- | Hne];
      unfold status_of in Ha; [|rewrite Ha in Hb; now injection Hb].
    destruct (executions s !! id t); [|discriminate].
    cbn in *. congruence.
  - unfold step_worker_exit in Hb.
    destruct (pool s !! f) as [[t [| |o]]|] eqn:Hfu;
      try (left; apply (Hsame _ eq_refl Hb); fail).
    rewrite status_of_alter in Hb. left.
    destruct (decide (id t = task_id)) as [<- | Hne];
      unfold status_of in Ha; [|rewrite Ha in Hb; now injection Hb].
    destruct (executions s !! id t); [|discriminate].
    cbn in *. congruence.
Qed.

Lemma uncollected_state ex p fs m ex' p' fs' f :
  uncollected (State ex p fs m) f = uncollected (State ex' p' fs' m) f.
Proof. reflexivity. Qed.

Lemma dict_set_fresh {V} (d : list (string * V)) k v :
  k ∉ d.*1 -> dict_set d k v = d ++ [(k, v)].
Proof.
  induction d as [|[k' v'] d IH]; intros Hk; [reflexivity|].
  cbn [dict_set]. rewrite fmap_cons, not_elem_of_cons in Hk. destruct Hk as [Hne Hk].
  destruct (String.eqb_spec k' k) as [-> | _]; [contradiction|].
  cbn [app]. now rewrite IH.
Qed.

(** The submit of lines 64-73. *)
Lemma submit_consistent s t rest :
  consistent s -> main s = Submitting (t :: rest) ->
  consistent (State (executions s) (pool s ++ [Future t Queued])
                    (dict_set (futures s) (id t) (length (pool s))) (Submitting rest)).
Proof.
  intros Hc Hm.
  pose proof (c_nodup s Hc) as Hnd. unfold todo_ids in Hnd. rewrite Hm in Hnd.
  cbn [map] in Hnd.
  assert (Hfresh : id t ∉ (futures s).*1).
  { rewrite (c_keys s Hc). apply NoDup_app in Hnd as (_ & Hdis & _).
    intros Hin. apply (Hdis _ Hin). left. }
  rewrite (dict_set_fresh _ _ _ Hfresh).
  split; cbn [futures pool main executions].
  - unfold pool_ids. cbn [pool]. rewrite fmap_app, map_app. cbn.
    now rewrite (c_keys s Hc).
  - rewrite fmap_app, length_app, (c_vals s Hc). cbn [length fmap list_fmap].
    rewrite Nat.add_1_r, seq_S. reflexivity.
  - unfold pool_ids, todo_ids. cbn [pool main]. rewrite map_app. cbn [map].
    rewrite <- app_assoc. exact Hnd.
  - intros f fu Hf. rewrite (uncollected_state _ _ _ _ (executions s) (pool s) (futures s)).
    apply lookup_app_Some in Hf as [Hf | [Hlen Hf]].
    + destruct (c_status s Hc f fu Hf) as (st & Hst & Hfit). exists st. split; [exact Hst|].
      unfold uncollected in *. now rewrite Hm in Hfit.
    + destruct (f - length (pool s))%nat; [|discriminate]. injection Hf as <-.
      exists PENDING. split; [|reflexivity].
      apply (c_todo s Hc _ t Hm). now left.
  - intros todo t' [= <-] Hin. apply (c_todo s Hc _ t' Hm). now right.
  - intros todo [=].
Qed.

(** The collection of one future (lines 77-83) by a function [g] that
    sets a terminal status, [FAILED] when the future is still queued. *)
Lemma collect_consistent s task_id f rest (g : TaskExecution -> TaskExecution) :
  consistent s -> main s = Collecting ((task_id, f) :: rest) ->
  (forall fu e, pool s !! f = Some fu -> f_state fu = Queued -> status (g e) = FAILED) ->
  consistent (State (alter g task_id (executions s)) (pool s) (futures s) (Collecting rest)).
Proof.
  intros Hc Hm Hg.
  destruct (collect_head s task_id f rest Hc Hm) as [(fu & Hfu & Hid) Hnotin].
  split; cbn [futures pool main executions].
  - exact (c_keys s Hc).
  - exact (c_vals s Hc).
  - pose proof (c_nodup s Hc) as Hnd. unfold todo_ids in *. now rewrite Hm in Hnd.
  - intros f' fu' Hf'. destruct (c_status s Hc f' fu' Hf') as (st & Hst & Hfit).
    rewrite status_of_alter.
    destruct (decide (task_id = id (f_task fu'))) as [Heq | Hne].
    + assert (f' = f) by (apply (pool_id_inj s f' f fu' fu Hc Hf' Hfu); congruence).
      subst f'. assert (fu' = fu) by congruence. subst fu'.
      unfold status_of in Hst. rewrite <- Heq in Hst.
      destruct (executions s !! task_id) as [e|]; [|discriminate].
      exists (status (g e)). split; [reflexivity|].
      unfold uncollected. cbn [main]. rewrite bool_decide_eq_false_2 by exact Hnotin.
      destruct (f_state fu) eqn:Hfs; cbn; auto. now apply (Hg fu e).
    + exists st. split; [exact Hst|].
      unfold uncollected in *. cbn [main]. rewrite Hm in Hfit.
      assert (Hff : f' <> f).
      { intros ->. apply Hne. assert (fu' = fu) by congruence. now subst fu'. }
      rewrite fmap_cons in Hfit. cbn [snd] in Hfit.
      destruct (decide (f' ∈ rest.*2)) as [Hin | Hout].
      * rewrite bool_decide_eq_true_2 by exact Hin.
        rewrite bool_decide_eq_true_2 in Hfit; [exact Hfit | now right].
      * rewrite bool_decide_eq_false_2 by exact Hout.
        rewrite bool_decide_eq_false_2 in Hfit; [exact Hfit|].
        rewrite not_elem_of_cons. auto.
  - intros todo t [=].
  - intros todo [= <-]. destruct (c_collect s Hc _ Hm) as [done Hf].
    exists (done ++ [(task_id, f)]). rewrite Hf, <- app_assoc. reflexivity.
Qed.

Lemma state_eta s : State (executions s) (pool s) (futures s) (main s) = s.
Proof. now destruct s. Qed.

Lemma insert_same_id (p : list future) f t fs fs' :
  p !! f = Some (Future t fs) ->
  map (fun fu => id (f_task fu)) (<[f := Future t fs']> p)
  = map (fun fu => id (f_task fu)) p.
Proof.
  intros Hf. change (map ?h ?l) with (h <$> l).
  rewrite list_fmap_insert. apply list_insert_id.
  rewrite list_lookup_fmap, Hf. reflexivity.
Qed.

(** A worker moves its future from [fs] to [fs'] and updates the entry of
    its task with [g]. *)
Lemma worker_consistent s f t fs fs' (g : TaskExecution -> TaskExecution) :
  consistent s -> pool s !! f = Some (Future t fs) ->
  (forall unc e, status_fits unc fs (status e) -> status_fits unc fs' (status (g e))) ->
  consistent (State (alter g (id t) (executions s)) (<[f := Future t fs']> (pool s))
                    (futures s) (main s)).
Proof.
  intros Hc Hf Hg.
  assert (Hids : pool_ids (State (alter g (id t) (executions s))
                                 (<[f := Future t fs']> (pool s)) (futures s) (main s))
                 = pool_ids s).
  { unfold pool_ids. cbn [pool]. now apply (insert_same_id _ _ _ fs). }
  split.
  - rewrite Hids. exact (c_keys s Hc).
  - cbn [futures pool]. rewrite length_insert. exact (c_vals s Hc).
  - rewrite Hids. exact (c_nodup s Hc).
  - cbn [pool]. intros f' fu' Hf'.
    rewrite (uncollected_state _ _ _ _ (executions s) (pool s) (futures s)), state_eta.
    rewrite status_of_alter.
    destruct (decide (f = f')) as [<- | Hff].
    + rewrite list_lookup_insert_eq in Hf' by (now apply lookup_lt_Some in Hf).
      injection Hf' as <-. cbn [f_task f_state].
      destruct (c_status s Hc f _ Hf) as (st & Hst & Hfit). cbn [f_task f_state] in *.
      rewrite decide_True by reflexivity.
      unfold status_of in Hst. destruct (executions s !! id t) as [e|]; [|discriminate].
      cbn in Hst. injection Hst as <-.
      exists (status (g e)). split; [reflexivity | now apply Hg].
    + rewrite list_lookup_insert_ne in Hf' by exact Hff.
      destruct (c_status s Hc f' fu' Hf') as (st & Hst & Hfit).
      rewrite decide_False; [eauto|].
      intros Heq. apply Hff. now apply (pool_id_inj s f f' _ fu' Hc Hf Hf').
  - cbn [main]. intros todo t' Hm Hin. rewrite status_of_alter.
    rewrite decide_False; [now apply (c_todo s Hc todo)|].
    intros Heq. pose proof (c_nodup s Hc) as Hnd.
    apply NoDup_app in Hnd as (_ & Hdis & _).
    apply (Hdis (id t)).
    + unfold pool_ids. apply list_elem_of_fmap. exists (Future t fs). split; [reflexivity|].
      now apply list_elem_of_lookup_2 in Hf.
    + unfold todo_ids. rewrite Hm, Heq. apply list_elem_of_In. now apply in_map.
  - exact (c_collect s Hc).
Qed.

(** The invariant is kept by every event. *)
Lemma consistent_step max_workers s e :
  consistent s -> consistent (step max_workers s e).
Proof.
  intros Hc. destruct e as [| |f now|f r now|f msg now]; cbn [step].
  - unfold step_main, _wait_for_dependencies.
    destruct (main s) as [[|t rest] | [|[tid f] rest] | ] eqn:Hm; try exact Hc.
    + split; cbn [futures pool main executions].
      * exact (c_keys s Hc).
      * exact (c_vals s Hc).
      * pose proof (c_nodup s Hc) as Hnd. unfold todo_ids in *. now rewrite Hm in Hnd.
      * intros f fu Hf. destruct (c_status s Hc f fu Hf) as (st & Hst & Hfit).
        exists st. split; [exact Hst|].
        unfold uncollected in *. cbn [main]. rewrite Hm in Hfit.
        rewrite bool_decide_eq_true_2; [exact Hfit|].
        rewrite (c_vals s Hc). apply elem_of_seq. apply lookup_lt_Some in Hf. lia.
      * intros todo t [=].
      * intros todo [= <-]. exists []. reflexivity.
    + destruct (all_deps_done (executions s) (depends_on t)); [|exact Hc].
      now apply submit_consistent.
    + split; cbn [futures pool main executions].
      * exact (c_keys s Hc).
      * exact (c_vals s Hc).
      * pose proof (c_nodup s Hc) as Hnd. unfold todo_ids in *. now rewrite Hm in Hnd.
      * intros f fu Hf. destruct (c_status s Hc f fu Hf) as (st & Hst & Hfit).
        exists st. split; [exact Hst|].
        unfold uncollected in *. cbn [main]. rewrite Hm in Hfit. exact Hfit.
      * intros todo t [=].
      * intros todo [=].
    + destruct (pool s !! f) as [fu|] eqn:Hfu; [|exact Hc]. cbn [fmap option_fmap option_map].
      destruct (f_state fu) as [| |[r|msg]] eqn:Hfs; try exact Hc;
        apply (collect_consistent s tid f rest); try assumption; intros fu' e Hfu' Hq; congruence.
  - unfold step_timeout.
    destruct (main s) as [todo | [|[tid f] rest] | ] eqn:Hm; try exact Hc.
    destruct (pool s !! f) as [fu|] eqn:Hfu; cbn [fmap option_fmap option_map].
    + destruct (f_state fu) as [| |o] eqn:Hfs; try exact Hc;
        apply (collect_consistent s tid f rest); try assumption; reflexivity.
    + apply (collect_consistent s tid f rest); try assumption; reflexivity.
  - unfold step_worker_start.
    destruct (pool s !! f) as [[t [| |o]]|] eqn:Hfu; try exact Hc.
    destruct (busy s <? max_workers)%nat; [|exact Hc].
    unfold set_future. rewrite Hfu. cbn [f_task].
    apply (worker_consistent s f t Queued Started); try assumption.
    intros [] e _; reflexivity.
  - unfold step_worker_exit.
    destruct (pool s !! f) as [[t [| |o]]|] eqn:Hfu; try exact Hc.
    unfold set_future. rewrite Hfu. cbn [f_task].
    apply (worker_consistent s f t Started (Finished (inl r))); try assumption.
    intros [] e H; exact H.
  - unfold step_worker_exit.
    destruct (pool s !! f) as [[t [| |o]]|] eqn:Hfu; try exact Hc.
    unfold set_future. rewrite Hfu. cbn [f_task].
    apply (worker_consistent s f t Started (Finished (inr msg))); try assumption.
    intros [] e H; exact H.
Qed.

Lemma consistent_exec max_workers schedule : forall s,
  consistent s -> consistent (exec max_workers s schedule).
Proof.
  induction schedule as [|e schedule IH]; intros s Hc; [exact Hc|].
  cbn [exec fold_left]. apply IH. now apply consistent_step.
Qed.

(** The ids given by the decomposer are distinct. *)
Lemma tasks_from_ids segments : forall i x,
  In x (map id (tasks_from i segments)) -> exists k, x = task_id k /\ (i <= k)%nat.
Proof.
  induction segments as [|[seg ty] rest IH]; intros i x H; [destruct H|].
  cbn in H. destruct H as [<- | H]; [eauto|].
  destruct (IH _ _ H) as (k & -> & Hk). exists k. split; [reflexivity | lia].
Qed.

Lemma tasks_from_nodup segments : forall i, NoDup (map id (tasks_from i segments)).
Proof.
  induction segments as [|[seg ty] rest IH]; intros i; cbn; constructor.
  - rewrite list_elem_of_In. intros H.
    destruct (tasks_from_ids _ _ _ H) as (k & Hk & Hle).
    apply task_id_inj in Hk. lia.
  - apply IH.
Qed.

Lemma parse_ids_nodup instruction : NoDup (map id (parse instruction)).
Proof.
  unfold parse. destruct (negb (_is_multi_task (Text.strip instruction))).
  - cbn. constructor; [|constructor]. intros H. inversion H.
  - apply tasks_from_nodup.
Qed.

(** Four independent tasks on three worker threads: all are submitted, the
    first three start and keep their threads, and the waits of the calling
    thread for them expire. *)
Definition saturated_schedule : list event :=
  [Main; Main; Main; Main;
   WorkerStart 0 1%Q; WorkerStart 1 1%Q; WorkerStart 2 1%Q;
   Main;
   Timeout; Timeout; Timeout].

(** C4 as stated fails: with the three worker threads busy, the fourth task
    is still queued and pending when the wait for its future expires, and
    its status is set from pending directly to failed; its worker function
    has not started and cannot start. *)
Lemma queued_task_fails_from_pending :
  let tasks := parse "build and test and lint and deploy" in
  let s := exec 3 (start ∅ tasks) saturated_schedule in
  let s' := exec 3 (start ∅ tasks) (saturated_schedule ++ [Timeout; Main]) in
  status_of s "task_3" = Some PENDING
  /\ option_map f_state (pool s !! 3%nat) = Some Queued
  /\ busy s = 3%nat
  /\ step 3 s (WorkerStart 3 2%Q) = s
  /\ status_of (step 3 s Timeout) "task_3" = Some FAILED
  /\ main s' = Returned
  /\ status_of s' "task_3" = Some FAILED
  /\ option_map started_at (executions s' !! "task_3") = Some None.
Proof.
  cbv zeta.
  split; [vm_compute; reflexivity|]. split; [vm_compute; reflexivity|].
  split; [vm_compute; reflexivity|]. split; [vm_compute; reflexivity|].
  split; [vm_compute; reflexivity|]. split; [vm_compute; reflexivity|].
  split; vm_compute; reflexivity.
Qed.

(** C4 (amended). For a list of tasks with distinct ids and any schedule,
    every change of a task's status is one of: pending to running and
    failed to running (its worker starts), running to completed and running
    to failed (its finished future is collected), running to failed and
    pending to failed (the wait for its future expires).  So completed is
    only reached through running, while a task whose future times out
    before its worker function has started goes from pending directly to
    failed. *)
Theorem status_changes_allowed (max_workers : nat) (ex : gmap string TaskExecution)
  (tasks : list Task) (schedule : list event) (e : event) (task_id : string)
  (a b : TaskStatus) :
  NoDup (map id tasks) ->
  status_of (exec max_workers (start ex tasks) schedule) task_id = Some a ->
  status_of (step max_workers (exec max_workers (start ex tasks) schedule) e) task_id
  = Some b ->
  a = b \/ allowed e a b = true.
Proof.
  intros Hnd Ha Hb.
  apply (step_status_allowed max_workers (exec max_workers (start ex tasks) schedule)
           e task_id a b); try assumption.
  apply consistent_exec. now apply consistent_start.
Qed.

Lemma status_changes_allowed_witness :
  PENDING = FAILED \/ allowed Timeout PENDING FAILED = true.
Proof.
  apply (status_changes_allowed 3 ∅ (parse "build and test and lint and deploy")
           saturated_schedule Timeout "task_3" PENDING FAILED).
  - apply (bool_decide_unpack _). vm_compute. exact I.
  - vm_compute. reflexivity.
  - vm_compute. reflexivity.
Defined.

(** *** The decomposer and the orchestrator together *)

(** X18. For every instruction whose decomposition holds a sequential
    task after the first position (such as [X then Y]), [execute_tasks] on
    the decomposition never returns, under any schedule: the task waits for
    the task before it, whose status is only made terminal after the
    submit loop. *)
Theorem sequential_instruction_never_returns (max_workers : nat)
  (ex : gmap string TaskExecution) (instruction : string) (i : nat) (t : Task)
  (schedule : list event) :
  (0 < i)%nat ->
  parse instruction !! i = Some t ->
  task_type t = SEQUENTIAL ->
  execute_tasks max_workers ex (parse instruction) schedule = None.
Proof.
  intros Hi Hlook Hty.
  assert (Hdep : In (task_id (i - 1)) (depends_on t)
                 /\ In (task_id (i - 1)) (map id (parse instruction))).
  { unfold parse in *. destruct (negb (_is_multi_task (Text.strip instruction))).
    - destruct i as [|[|i]]; [lia | discriminate | discriminate].
    - destruct (tasks_from_lookup _ _ _ _ Hlook) as (seg & ty & Hseg & ->).
      cbn in Hty. subst ty. destruct i as [|j]; [lia|].
      cbn [Nat.add depends_on]. replace (S j - 1)%nat with j by lia.
      split; [now left|].
      rewrite tasks_from_id_seq. apply in_map, in_seq.
      apply lookup_lt_Some in Hseg. lia. }
  destruct Hdep as [Hdep Hreg].
  pose proof (take_drop_middle _ _ _ Hlook) as Hsplit.
  assert (H : waiting_for t (drop (S i) (parse instruction)) (task_id (i - 1))
                (exec max_workers (start ex (parse instruction)) schedule)).
  { apply waiting_for_exec; [exact Hdep|]. split.
    - exists (take i (parse instruction)). cbn [main start]. now rewrite Hsplit.
    - exists PENDING. split; [|reflexivity].
      unfold status_of, start. cbn [executions].
      apply init_executions_pending. now left. }
  destruct H as [[pre Hmain] _]. unfold execute_tasks. now rewrite Hmain.
Qed.

Lemma sequential_instruction_never_returns_witness :
  execute_tasks 3 ∅ (parse "build the app, test it and then deploy")
    [Main; Main; WorkerStart 0 1%Q; WorkerStart 1 1%Q; Main; Timeout; Main] = None.
Proof.
  apply (sequential_instruction_never_returns 3 ∅
           "build the app, test it and then deploy" 1
           (mkTask "task_1" "deploy" SEQUENTIAL ["task_0"])).
  - lia.
  - vm_compute. reflexivity.
  - reflexivity.
Defined.

(** *** What a run keeps: submission order and the execution map *)

(** The tasks that are still to be submitted. *)
Definition to_submit (s : state) : list Task :=
  match main s with
  | Submitting todo => todo
  | _ => []
  end.

(** The entries that are still to be collected. *)
Definition to_collect (s : state) : list (string * nat) :=
  match main s with
  | Collecting todo => todo
  | _ => []
  end.

Record well_run (ex : gmap string TaskExecution) (tasks : list Task) (s : state)
  : Prop := WellRun {
  w_order : map f_task (pool s) ++ to_submit s = tasks;
  w_keys : Forall (fun kv => In (fst kv) (map id tasks)) (futures s);
  w_collect : Forall (fun kv => In (fst kv) (map id tasks)) (to_collect s);
  w_present : forall k, In k (map id tasks) -> is_Some (executions s !! k);
  w_stale : forall k, ~ In k (map id tasks) -> executions s !! k = ex !! k
}.

Lemma init_executions_lookup tasks : forall ex k,
  (In k (map id tasks) -> is_Some (init_executions ex tasks !! k))
  /\ (~ In k (map id tasks) -> init_executions ex tasks !! k = ex !! k).
Proof.
  induction tasks as [|t rest IH]; intros ex k; cbn [init_executions map In].
  - split; [intros [] | reflexivity].
  - destruct (IH (<[id t := mkExecution t PENDING None None None None]> ex) k) as [Hin Hout].
    split.
    + intros [Heq | Hk]; [|now apply Hin].
      destruct (in_dec String.string_dec k (map id rest)) as [Hr | Hr]; [now apply Hin|].
      rewrite (Hout Hr), <- Heq, lookup_insert_eq. eauto.
    + intros Hk. rewrite Hout by tauto. apply lookup_insert_ne. tauto.
Qed.

Lemma well_run_start ex tasks : well_run ex tasks (start ex tasks).
Proof.
  split; cbn; try constructor.
  - intros k Hk. now apply init_executions_lookup.
  - intros k Hk. now apply init_executions_lookup.
Qed.

Lemma dict_set_keys {V} (Q : string -> Prop) (d : list (string * V)) k v :
  Forall (fun kv => Q (fst kv)) d -> Q k -> Forall (fun kv => Q (fst kv)) (dict_set d k v).
Proof.
  intros Hd Hk. induction Hd as [|[k' v'] d Hkv Hd IH]; cbn [dict_set].
  - constructor; [exact Hk | constructor].
  - destruct (String.eqb k' k); constructor; assumption.
Qed.

Lemma set_future_tasks f st p :
  map f_task (set_future f st p) = map f_task p.
Proof.
  unfold set_future. destruct (p !! f) as [fu|] eqn:Hf; [|reflexivity].
  change (map ?h ?l) with (h <$> l). rewrite list_fmap_insert. apply list_insert_id.
  rewrite list_lookup_fmap, Hf. reflexivity.
Qed.

(** An update of one entry of a task of the list keeps the invariant. *)
Lemma well_run_alter ex tasks s (g : TaskExecution -> TaskExecution) k p m :
  well_run ex tasks s -> In k (map id tasks) ->
  map f_task p = map f_task (pool s) ->
  match m with
  | Submitting todo => todo = to_submit s
  | Collecting todo => Forall (fun kv => In (fst kv) (map id tasks)) todo /\ to_submit s = []
  | Returned => to_submit s = []
  end ->
  well_run ex tasks (State (alter g k (executions s)) p (futures s) m).
Proof.
  intros Hw Hk Hp Hm. split; cbn [pool futures executions].
  - rewrite Hp, <- (w_order ex tasks s Hw). f_equal. unfold to_submit at 1. cbn [main].
    destruct m as [todo|todo|]; [exact Hm | | ]; symmetry; tauto.
  - exact (w_keys ex tasks s Hw).
  - unfold to_collect. cbn [main]. destruct m as [todo|todo|]; [constructor | tauto | constructor].
  - intros k' Hk'. rewrite lookup_alter. destruct (decide (k = k')) as [<- | _].
    + destruct (w_present ex tasks s Hw k Hk) as [e ->]. cbn. eauto.
    + now apply (w_present ex tasks s Hw).
  - intros k' Hk'. rewrite lookup_alter_ne by congruence. now apply (w_stale ex tasks s Hw).
Qed.

Lemma pool_task_listed ex tasks s f fu :
  well_run ex tasks s -> pool s !! f = Some fu -> In (id (f_task fu)) (map id tasks).
Proof.
  intros Hw Hf. apply in_map. rewrite <- (w_order ex tasks s Hw).
  apply in_or_app. left. apply in_map. apply list_elem_of_In.
  now apply list_elem_of_lookup_2 in Hf.
Qed.

Lemma well_run_step max_workers ex tasks s e :
  well_run ex tasks s -> well_run ex tasks (step max_workers s e).
Proof.
  intros Hw. destruct e as [| |f now|f r now|f msg now]; cbn [step].
  - unfold step_main.
    destruct (main s) as [[|t rest] | [|[tid f] rest] | ] eqn:Hm; try exact Hw.
    + pose proof (w_order ex tasks s Hw) as Ho. unfold to_submit in Ho. rewrite Hm in Ho.
      split; cbn [pool futures executions]; unfold to_submit, to_collect; cbn [main].
      * exact Ho.
      * exact (w_keys ex tasks s Hw).
      * exact (w_keys ex tasks s Hw).
      * exact (w_present ex tasks s Hw).
      * exact (w_stale ex tasks s Hw).
    + destruct (_wait_for_dependencies (executions s) t); [|exact Hw].
      pose proof (w_order ex tasks s Hw) as Ho. unfold to_submit in Ho. rewrite Hm in Ho.
      split; cbn [pool futures executions]; unfold to_submit, to_collect; cbn [main].
      * rewrite map_app, <- app_assoc. exact Ho.
      * apply (dict_set_keys (fun k => In k (map id tasks))); [exact (w_keys ex tasks s Hw)|].
        apply in_map. rewrite <- Ho. apply in_or_app. right. now left.
      * constructor.
      * exact (w_present ex tasks s Hw).
      * exact (w_stale ex tasks s Hw).
    + pose proof (w_order ex tasks s Hw) as Ho. unfold to_submit in Ho. rewrite Hm in Ho.
      split; cbn [pool futures executions]; unfold to_submit, to_collect; cbn [main].
      * exact Ho.
      * exact (w_keys ex tasks s Hw).
      * constructor.
      * exact (w_present ex tasks s Hw).
      * exact (w_stale ex tasks s Hw).
    + pose proof (w_collect ex tasks s Hw) as Hcol. unfold to_collect in Hcol.
      rewrite Hm in Hcol. apply List.Forall_cons_iff in Hcol as [Hk Hrest]. cbn [fst] in Hk.
      assert (Hsub : to_submit s = []) by (unfold to_submit; now rewrite Hm).
      destruct (f_state <$> pool s !! f) as [[| |[r|msg]]|]; try exact Hw;
        apply well_run_alter; auto.
  - unfold step_timeout.
    destruct (main s) as [todo | [|[tid f] rest] | ] eqn:Hm; try exact Hw.
    pose proof (w_collect ex tasks s Hw) as Hcol. unfold to_collect in Hcol.
    rewrite Hm in Hcol. apply List.Forall_cons_iff in Hcol as [Hk Hrest]. cbn [fst] in Hk.
    assert (Hsub : to_submit s = []) by (unfold to_submit; now rewrite Hm).
    destruct (f_state <$> pool s !! f) as [[| |o]|]; try exact Hw;
      apply well_run_alter; auto.
  - unfold step_worker_start.
    destruct (pool s !! f) as [[t [| |o]]|] eqn:Hfu; try exact Hw.
    destruct (busy s <? max_workers)%nat; [|exact Hw].
    apply well_run_alter; [exact Hw | | apply set_future_tasks |].
    + exact (pool_task_listed ex tasks s f _ Hw Hfu).
    + pose proof (w_collect ex tasks s Hw) as Hcol. unfold to_collect, to_submit in *.
      destruct (main s); auto.
  - unfold step_worker_exit.
    destruct (pool s !! f) as [[t [| |o]]|] eqn:Hfu; try exact Hw.
    apply well_run_alter; [exact Hw | | apply set_future_tasks |].
    + exact (pool_task_listed ex tasks s f _ Hw Hfu).
    + pose proof (w_collect ex tasks s Hw) as Hcol. unfold to_collect, to_submit in *.
      destruct (main s); auto.
  - unfold step_worker_exit.
    destruct (pool s !! f) as [[t [| |o]]|] eqn:Hfu; try exact Hw.
    apply well_run_alter; [exact Hw | | apply set_future_tasks |].
    + exact (pool_task_listed ex tasks s f _ Hw Hfu).
    + pose proof (w_collect ex tasks s Hw) as Hcol. unfold to_collect, to_submit in *.
      destruct (main s); auto.
Qed.

Lemma well_run_exec max_workers ex tasks schedule : forall s,
  well_run ex tasks s -> well_run ex tasks (exec max_workers s schedule).
Proof.
  induction schedule as [|e schedule IH]; intros s Hw; [exact Hw|].
  cbn [exec fold_left]. apply IH. now apply well_run_step.
Qed.

(** X19. Tasks are submitted to the pool in the order of the list, each
    exactly once: at any point of a run the tasks of the futures created
    so far, followed by the tasks not yet submitted, are the task list; so
    once the collection has begun every task has its future. *)
Theorem tasks_submitted_in_order (max_workers : nat) (ex : gmap string TaskExecution)
  (tasks : list Task) (schedule : list event) :
  let s := exec max_workers (start ex tasks) schedule in
  map f_task (pool s) ++ to_submit s = tasks.
Proof.
  intros s.
  exact (w_order ex tasks _
           (well_run_exec max_workers ex tasks schedule _ (well_run_start ex tasks))).
Qed.

(** *** Workers left over from earlier calls *)

(** The thread pool is created once, in [__init__] (line 37), and every
    call submits to it.  A future on which an earlier call gave up after
    its timeout (lines 78-83) is still queued or running when that call
    returns, and its worker goes on writing into the execution map: lines
    114-116 when it starts, line 147 or 151 when it ends.  No call collects
    such a future, so its outcome reaches no entry.  [EarlierExit] is the
    end of a worker whose entry, taken at line 114, is still the one in
    the map; a worker whose entry was replaced since (line 54 of a later
    call) writes into an object the map no longer holds, which is no event
    here.  Such workers also occupy threads of the pool, which can only
    delay the workers of the present call. *)
Inductive shared_event : Type :=
| Own (e : event)                               (* an event of the present call *)
| EarlierStart (task_id : string) (now : Q)     (* lines 114-116 *)
| EarlierExit (task_id : string) (now : Q).     (* line 147 or 151 *)

Definition shared_step (max_workers : nat) (s : state) (e : shared_event) : state :=
  match e with
  | Own e => step max_workers s e
  | EarlierStart task_id now =>
      State (alter (fun e => set_started_at now (set_status RUNNING e)) task_id
                   (executions s))
            (pool s) (futures s) (main s)
  | EarlierExit task_id now =>
      State (alter (set_completed_at now) task_id (executions s))
            (pool s) (futures s) (main s)
  end.

Definition shared_exec (max_workers : nat) (s : state) (schedule : list shared_event)
  : state :=
  fold_left (shared_step max_workers) schedule s.

(** The ids under which workers of earlier calls write during a schedule. *)
Definition earlier_ids (schedule : list shared_event) : list string :=
  flat_map (fun e => match e with
                     | Own _ => []
                     | EarlierStart k _ | EarlierExit k _ => [k]
                     end) schedule.

(** What a worker of an earlier call can change in an entry: the stamps,
    and the status, to [RUNNING]. *)
Definition rewritten (e e' : TaskExecution) : Prop :=
  task e' = task e /\ result e' = result e /\ error e' = error e
  /\ (status e' = status e \/ status e' = RUNNING).

Definition kept (ex ex' : gmap string TaskExecution) : Prop :=
  forall k, match ex !! k, ex' !! k with
            | Some e, Some e' => rewritten e e'
            | None, None => True
            | _, _ => False
            end.

(** A schedule without workers of earlier calls is a schedule of [exec]. *)
Lemma shared_exec_own max_workers schedule : forall s,
  shared_exec max_workers s (map Own schedule) = exec max_workers s schedule.
Proof.
  induction schedule as [|e schedule IH]; intros s; [reflexivity|].
  cbn [map]. unfold shared_exec, exec in *. cbn [fold_left shared_step]. apply IH.
Qed.

(** A worker of an earlier call that starts late rewrites the entry of a
    task that the earlier call had already marked as failed. *)
Example leftover_worker_rewrites_stale_entry :
  let old := mkTask "task_2" "deploy" PARALLEL [] in
  let ex : gmap string TaskExecution :=
    {[ "task_2" := mkExecution old FAILED None (Some "") None None ]} in
  let tasks := [mkTask "task_0" "build" PARALLEL []] in
  let s := shared_exec 3 (start ex tasks) [Own Main; EarlierStart "task_2" 5%Q] in
  executions s !! "task_2"
  = Some (mkExecution old RUNNING None (Some "") (Some 5%Q) None).
Proof. vm_compute. reflexivity. Qed.

Lemma rewritten_refl e : rewritten e e.
Proof. unfold rewritten. auto. Qed.

Lemma rewritten_trans a b c : rewritten a b -> rewritten b c -> rewritten a c.
Proof.
  unfold rewritten. intros (Ht & Hr & He & Hs) (Ht' & Hr' & He' & Hs').
  repeat split; try congruence. destruct Hs' as [Hs' | Hs']; [|now right].
  destruct Hs as [Hs | Hs]; [left | right]; congruence.
Qed.

Lemma kept_refl ex : kept ex ex.
Proof. intros k. destruct (ex !! k); [apply rewritten_refl | exact I]. Qed.

Lemma kept_trans a b c : kept a b -> kept b c -> kept a c.
Proof.
  intros Hab Hbc k. specialize (Hab k). specialize (Hbc k).
  destruct (a !! k), (b !! k), (c !! k); try tauto. eapply rewritten_trans; eassumption.
Qed.

Lemma kept_alter (g : TaskExecution -> TaskExecution) k ex :
  (forall e, rewritten e (g e)) -> kept ex (alter g k ex).
Proof.
  intros Hg k'. rewrite lookup_alter. destruct (decide (k = k')) as [<- | _].
  - destruct (ex !! k); cbn; [apply Hg | exact I].
  - destruct (ex !! k'); [apply rewritten_refl | exact I].
Qed.

(** A write of a worker of an earlier call keeps the invariant, for the
    map of the earlier calls with the same write when the id is not one of
    the present list. *)
Lemma well_run_earlier ex tasks s (g : TaskExecution -> TaskExecution) k :
  (forall e, rewritten e (g e)) ->
  well_run ex tasks s ->
  exists ex', well_run ex' tasks (State (alter g k (executions s)) (pool s) (futures s) (main s))
    /\ kept ex ex'
    /\ forall k', k' <> k -> ex' !! k' = ex !! k'.
Proof.
  intros Hg Hw. destruct (in_dec String.string_dec k (map id tasks)) as [Hk | Hk].
  - exists ex. split; [|split; [apply kept_refl | reflexivity]].
    apply well_run_alter; [exact Hw | exact Hk | reflexivity |].
    pose proof (w_collect ex tasks s Hw) as Hcol. unfold to_collect, to_submit in *.
    destruct (main s); auto.
  - exists (alter g k ex). split; [|split; [now apply kept_alter |]].
    + split; cbn [pool futures executions].
      * rewrite <- (w_order ex tasks s Hw). reflexivity.
      * exact (w_keys ex tasks s Hw).
      * exact (w_collect ex tasks s Hw).
      * intros k' Hk'. rewrite lookup_alter_ne by congruence.
        now apply (w_present ex tasks s Hw).
      * intros k' Hk'. rewrite !lookup_alter.
        destruct (decide (k = k')) as [<- | _];
          rewrite (w_stale ex tasks s Hw _ Hk'); reflexivity.
    + intros k' Hk'. apply lookup_alter_ne. congruence.
Qed.

Lemma shared_exec_well_run max_workers tasks schedule : forall s ex,
  well_run ex tasks s ->
  exists ex', well_run ex' tasks (shared_exec max_workers s schedule)
    /\ kept ex ex'
    /\ forall k, ~ In k (earlier_ids schedule) -> ex' !! k = ex !! k.
Proof.
  induction schedule as [|e schedule IH]; intros s ex Hw.
  - exists ex. split; [exact Hw | split; [apply kept_refl | reflexivity]].
  - assert (Hstep : exists ex1, well_run ex1 tasks (shared_step max_workers s e)
                      /\ kept ex ex1
                      /\ forall k, ~ In k (earlier_ids [e]) -> ex1 !! k = ex !! k).
    { destruct e as [e|k now|k now]; cbn [shared_step].
      - exists ex. split; [now apply well_run_step | split; [apply kept_refl | reflexivity]].
      - destruct (well_run_earlier ex tasks s
                    (fun e => set_started_at now (set_status RUNNING e)) k)
          as (ex1 & Hw1 & Hk1 & Hs1); [|exact Hw|].
        { intros e. unfold rewritten. cbn. auto. }
        exists ex1. split; [exact Hw1 | split; [exact Hk1|]].
        intros k' Hk'. apply Hs1. intros ->. apply Hk'. cbn. auto.
      - destruct (well_run_earlier ex tasks s (set_completed_at now) k)
          as (ex1 & Hw1 & Hk1 & Hs1); [|exact Hw|].
        { intros e. unfold rewritten. cbn. auto. }
        exists ex1. split; [exact Hw1 | split; [exact Hk1|]].
        intros k' Hk'. apply Hs1. intros ->. apply Hk'. cbn. auto. }
    destruct Hstep as (ex1 & Hw1 & Hk1 & Hs1).
    destruct (IH _ ex1 Hw1) as (ex' & Hw' & Hk' & Hs').
    exists ex'. split; [exact Hw' | split; [eapply kept_trans; eassumption|]].
    intros k Hk. change (e :: schedule) with ([e] ++ schedule) in Hk.
    unfold earlier_ids in Hk. rewrite flat_map_app, in_app_iff in Hk.
    rewrite Hs' by tauto. apply Hs1. tauto.
Qed.

(** X20. The execution map is never cleared, also when workers that
    earlier calls left in the shared pool are still writing.  At any point
    of a run the map holds an entry for every task of the list, and for
    every other id it holds an entry exactly if it did on entry: such an
    entry keeps its task, its result and its error text, its status is the
    old one or [RUNNING], and it is unchanged when no worker of an earlier
    call wrote under its id. *)
Theorem execute_tasks_keeps_stale_entries (max_workers : nat)
  (ex : gmap string TaskExecution) (tasks : list Task) (schedule : list shared_event) :
  let s := shared_exec max_workers (start ex tasks) schedule in
  (forall t, In t tasks -> is_Some (executions s !! id t))
  /\ (forall k, ~ In k (map id tasks) ->
        match ex !! k, executions s !! k with
        | Some e, Some e' =>
            task e' = task e /\ result e' = result e /\ error e' = error e
            /\ (status e' = status e \/ status e' = RUNNING)
        | None, None => True
        | _, _ => False
        end)
  /\ (forall k, ~ In k (map id tasks) -> ~ In k (earlier_ids schedule) ->
        executions s !! k = ex !! k).
Proof.
  intros s.
  destruct (shared_exec_well_run max_workers tasks schedule _ ex (well_run_start ex tasks))
    as (ex' & Hw & Hkept & Hsame).
  fold s in Hw. split; [|split].
  - intros t Ht. apply (w_present ex' tasks _ Hw). now apply in_map.
  - intros k Hk. rewrite (w_stale ex' tasks _ Hw k Hk). exact (Hkept k).
  - intros k Hk Hno. rewrite (w_stale ex' tasks _ Hw k Hk). now apply Hsame.
Qed.

(** *** Runs without dependencies come to an end *)

(** A bound on the steps the calling thread still has to make. *)
Definition remaining_steps (s : state) : nat :=
  match main s with
  | Submitting todo => 2 * length todo + length (futures s) + 2
  | Collecting todo => length todo + 1
  | Returned => 0
  end.

(** No task that is still to be submitted has a dependency. *)
Definition independent (s : state) : Prop :=
  Forall (fun t => depends_on t = []) (to_submit s).

Lemma dict_set_length {V} (d : list (string * V)) k v :
  (length (dict_set d k v) <= S (length d))%nat.
Proof.
  induction d as [|[k' v'] d IH]; cbn [dict_set length]; [lia|].
  destruct (String.eqb k' k); cbn [length]; lia.
Qed.

Lemma step_worker_start_main max_workers f now s :
  main (step_worker_start max_workers f now s) = main s
  /\ futures (step_worker_start max_workers f now s) = futures s.
Proof.
  unfold step_worker_start. destruct (pool s !! f) as [[t [| |o]]|]; auto.
  destruct (busy s <? max_workers)%nat; auto.
Qed.

Lemma step_worker_exit_main f o now s :
  main (step_worker_exit f o now s) = main s
  /\ futures (step_worker_exit f o now s) = futures s.
Proof. unfold step_worker_exit. destruct (pool s !! f) as [[t [| |o']]|]; auto. Qed.

Lemma step_main_le s : (remaining_steps (step_main s) <= remaining_steps s)%nat.
Proof.
  unfold step_main, remaining_steps.
  destruct (main s) as [[|t rest] | [|[tid f] rest] | ] eqn:Hm; cbn [main futures length].
  - lia.
  - destruct (_wait_for_dependencies (executions s) t); cbn [main futures]; rewrite ?Hm.
    + pose proof (dict_set_length (futures s) (id t) (length (pool s))). cbn [length]. lia.
    + cbn [length]. lia.
  - lia.
  - destruct (f_state <$> pool s !! f) as [[| |[r|msg]]|]; cbn [main]; rewrite ?Hm;
      cbn [length]; lia.
  - rewrite Hm. lia.
Qed.

Lemma step_timeout_le s : (remaining_steps (step_timeout s) <= remaining_steps s)%nat.
Proof.
  unfold step_timeout, remaining_steps.
  destruct (main s) as [todo | [|[tid f] rest] | ] eqn:Hm; rewrite ?Hm; try lia.
  destruct (f_state <$> pool s !! f) as [[| |o]|]; cbn [main]; rewrite ?Hm; cbn [length]; lia.
Qed.

Lemma step_le max_workers s e :
  (remaining_steps (step max_workers s e) <= remaining_steps s)%nat.
Proof.
  destruct e as [| |f now|f r now|f msg now]; cbn [step].
  - apply step_main_le.
  - apply step_timeout_le.
  - unfold remaining_steps.
    destruct (step_worker_start_main max_workers f now s) as [-> ->]. lia.
  - unfold remaining_steps. destruct (step_worker_exit_main f (inl r) now s) as [-> ->]. lia.
  - unfold remaining_steps. destruct (step_worker_exit_main f (inr msg) now s) as [-> ->]. lia.
Qed.

Lemma independent_step max_workers s e :
  independent s -> independent (step max_workers s e).
Proof.
  unfold independent, to_submit. intros Hi.
  destruct e as [| |f now|f r now|f msg now]; cbn [step].
  - unfold step_main.
    destruct (main s) as [[|t rest] | [|[tid f] rest] | ] eqn:Hm; cbn [main]; rewrite ?Hm;
      try constructor; try exact Hi.
    + destruct (_wait_for_dependencies (executions s) t); cbn [main]; rewrite ?Hm.
      * now apply List.Forall_cons_iff in Hi as [_ Hi].
      * exact Hi.
    + destruct (f_state <$> pool s !! f) as [[| |[r|msg]]|]; cbn [main]; rewrite ?Hm; constructor.
  - unfold step_timeout.
    destruct (main s) as [todo | [|[tid f] rest] | ] eqn:Hm; rewrite ?Hm; try exact Hi.
    destruct (f_state <$> pool s !! f) as [[| |o]|]; cbn [main]; rewrite ?Hm; constructor.
  - destruct (step_worker_start_main max_workers f now s) as [-> _]. exact Hi.
  - destruct (step_worker_exit_main f (inl r) now s) as [-> _]. exact Hi.
  - destruct (step_worker_exit_main f (inr msg) now s) as [-> _]. exact Hi.
Qed.

(** A turn of the calling thread followed by an expired wait makes
    progress. *)
Lemma turn_progress s :
  independent s -> (0 < remaining_steps s)%nat ->
  (remaining_steps (step_timeout (step_main s)) < remaining_steps s)%nat.
Proof.
  intros Hi Hpos.
  assert (Hmain : (remaining_steps (step_main s) < remaining_steps s)%nat
                  \/ (step_main s = s
                      /\ (remaining_steps (step_timeout s) < remaining_steps s)%nat)).
  { unfold independent, to_submit in Hi. unfold step_main, step_timeout, remaining_steps in *.
    destruct (main s) as [[|t rest] | [|[tid f] rest] | ] eqn:Hm; cbn [main futures length].
    - left. lia.
    - apply List.Forall_cons_iff in Hi as [Ht _].
      unfold _wait_for_dependencies. rewrite Ht. cbn [all_deps_done main futures].
      pose proof (dict_set_length (futures s) (id t) (length (pool s))). left. cbn [length]. lia.
    - left. lia.
    - destruct (f_state <$> pool s !! f) as [[| |[r|msg]]|]; cbn [main length];
        try (left; lia); right; (split; [reflexivity | lia]).
    - lia. }
  destruct Hmain as [H | [Heq H]].
  - pose proof (step_timeout_le (step_main s)). lia.
  - now rewrite Heq.
Qed.

Lemma exec_app max_workers s a b :
  exec max_workers s (a ++ b) = exec max_workers (exec max_workers s a) b.
Proof. unfold exec. apply fold_left_app. Qed.

Lemma exec_le max_workers schedule : forall s,
  (remaining_steps (exec max_workers s schedule) <= remaining_steps s)%nat.
Proof.
  induction schedule as [|e schedule IH]; intros s; [cbn; lia|].
  cbn [exec fold_left]. pose proof (IH (step max_workers s e)).
  pose proof (step_le max_workers s e). unfold exec in *. lia.
Qed.

Lemma independent_exec max_workers schedule : forall s,
  independent s -> independent (exec max_workers s schedule).
Proof.
  induction schedule as [|e schedule IH]; intros s Hi; [exact Hi|].
  cbn [exec fold_left]. apply IH. now apply independent_step.
Qed.

(** [k] turns, each followed by an expired wait. *)
Definition turns (k : nat) : list event := concat (replicate k [Main; Timeout]).

Lemma turns_return max_workers : forall k s,
  independent s -> (remaining_steps s <= k)%nat ->
  main (exec max_workers s (turns k)) = Returned.
Proof.
  induction k as [|k IH]; intros s Hi Hk.
  - cbn. unfold remaining_steps in Hk. destruct (main s); [lia | lia | reflexivity].
  - unfold turns. cbn [replicate concat]. fold (turns k).
    change ([Main; Timeout] ++ turns k) with (Main :: Timeout :: turns k).
    cbn [exec fold_left step]. apply IH.
    + apply (independent_step max_workers _ Timeout).
      apply (independent_step max_workers _ Main). exact Hi.
    + destruct (Nat.eq_dec (remaining_steps s) 0) as [Hz | Hnz].
      * pose proof (step_timeout_le (step_main s)). pose proof (step_main_le s). lia.
      * pose proof (turn_progress s Hi). lia.
Qed.

(** X21. A task list without dependencies (such as the decomposition of
    [X and Y]) is always brought to an end: after any schedule whatsoever,
    [2 * n + 2] further turns of the calling thread, each followed by the
    expiry of its current wait, make [execute_tasks] return. *)
Theorem independent_tasks_return (max_workers : nat) (ex : gmap string TaskExecution)
  (tasks : list Task) (schedule : list event) :
  Forall (fun t => depends_on t = []) tasks ->
  is_Some (execute_tasks max_workers ex tasks
             (schedule ++ turns (2 * length tasks + 2))).
Proof.
  intros Hdeps. unfold execute_tasks. rewrite exec_app.
  rewrite (turns_return max_workers (2 * length tasks + 2)
             (exec max_workers (start ex tasks) schedule)); [eauto | |].
  - apply independent_exec. exact Hdeps.
  - pose proof (exec_le max_workers schedule (start ex tasks)) as H.
    unfold remaining_steps at 2 in H. cbn in H. lia.
Qed.

Lemma independent_tasks_return_witness :
  is_Some (execute_tasks 3 ∅ (parse "build and test")
             ([Main; WorkerStart 0 1%Q] ++ turns (2 * 2 + 2))).
Proof.
  apply (independent_tasks_return 3 ∅ (parse "build and test") [Main; WorkerStart 0 1%Q]).
  vm_compute. repeat constructor.
Defined.

(** *** What a finished task carries *)

(** The stamps that go with the state of a future. *)
Definition stamps_fit (fs : future_state) (e : TaskExecution) : Prop :=
  match fs with
  | Queued => True
  | Started => is_Some (started_at e)
  | Finished _ => is_Some (started_at e) /\ is_Some (completed_at e)
  end.

(** What the status of an entry says about its other fields. *)
Definition fields_fit (e : TaskExecution) : Prop :=
  (status e = COMPLETED ->
   is_Some (result e) /\ is_Some (started_at e) /\ is_Some (completed_at e))
  /\ (status e = FAILED -> is_Some (error e)).

Record recorded (tasks : list Task) (s : state) : Prop := Recorded {
  r_stamps : forall f fu, pool s !! f = Some fu ->
     exists e, executions s !! id (f_task fu) = Some e /\ stamps_fit (f_state fu) e;
  r_fields : forall k e, In k (map id tasks) -> executions s !! k = Some e -> fields_fit e
}.

(** An update that only sets stamps. *)
Definition keeps_stamps (g : TaskExecution -> TaskExecution) : Prop :=
  forall e, (is_Some (started_at e) -> is_Some (started_at (g e)))
            /\ (is_Some (completed_at e) -> is_Some (completed_at (g e))).

Lemma stamps_fit_keep g fs e : keeps_stamps g -> stamps_fit fs e -> stamps_fit fs (g e).
Proof.
  intros Hg. destruct (Hg e) as [Hs Hc]. destruct fs; cbn; [auto | auto |].
  intros [H1 H2]. auto.
Qed.

Lemma recorded_start ex tasks : recorded tasks (start ex tasks).
Proof.
  split; cbn [start pool executions].
  - intros f fu H. discriminate.
  - intros k e Hk He.
    pose proof (init_executions_pending tasks ex k (or_introl Hk)) as Hp.
    rewrite He in Hp. cbn in Hp. injection Hp as Hp.
    split; rewrite Hp; discriminate.
Qed.

(** An update of the entry [k] by [g], the pool and the rest unchanged. *)
Lemma recorded_alter tasks s (g : TaskExecution -> TaskExecution) k m :
  recorded tasks s -> keeps_stamps g ->
  (forall e, executions s !! k = Some e -> fields_fit (g e)) ->
  recorded tasks (State (alter g k (executions s)) (pool s) (futures s) m).
Proof.
  intros Hr Hg Hfit. split; cbn [pool executions].
  - intros f fu Hf. destruct (r_stamps tasks s Hr f fu Hf) as (e & He & Hs).
    rewrite lookup_alter. destruct (decide (k = id (f_task fu))) as [-> | _].
    + rewrite He. exists (g e). split; [reflexivity | now apply stamps_fit_keep].
    + eauto.
  - intros k' e Hk He. rewrite lookup_alter in He.
    destruct (decide (k = k')) as [<- | _].
    + destruct (executions s !! k) as [e0|] eqn:E; [|discriminate].
      cbn in He. injection He as <-. now apply Hfit.
    + now apply (r_fields tasks s Hr k').
Qed.

(** A worker moves its future to [fs'] and updates the entry of its task. *)
Lemma recorded_worker tasks s f t fs fs' (g : TaskExecution -> TaskExecution) :
  recorded tasks s -> pool s !! f = Some (Future t fs) -> keeps_stamps g ->
  (forall e, stamps_fit fs e -> stamps_fit fs' (g e)) ->
  (forall e, fields_fit e -> fields_fit (g e)) ->
  recorded tasks (State (alter g (id t) (executions s)) (<[f := Future t fs']> (pool s))
                        (futures s) (main s)).
Proof.
  intros Hr Hf Hg Hst Hfit. split; cbn [pool executions].
  - intros f' fu' Hf'. rewrite lookup_alter.
    destruct (decide (f = f')) as [<- | Hff].
    + rewrite list_lookup_insert_eq in Hf' by (now apply lookup_lt_Some in Hf).
      injection Hf' as <-. cbn [f_task f_state].
      destruct (r_stamps tasks s Hr f _ Hf) as (e & He & Hs). cbn [f_task f_state] in *.
      rewrite decide_True by reflexivity. rewrite He.
      exists (g e). split; [reflexivity | now apply Hst].
    + rewrite list_lookup_insert_ne in Hf' by exact Hff.
      destruct (r_stamps tasks s Hr f' fu' Hf') as (e & He & Hs).
      destruct (decide (id t = id (f_task fu'))) as [Heq | _].
      * rewrite <- Heq in He. rewrite He. exists (g e).
        split; [reflexivity | now apply stamps_fit_keep].
      * eauto.
  - intros k e Hk He. rewrite lookup_alter in He.
    destruct (decide (id t = k)) as [<- | _].
    + destruct (executions s !! id t) as [e0|] eqn:E; [|discriminate].
      cbn in He. injection He as <-. apply Hfit. now apply (r_fields tasks s Hr (id t)).
    + now apply (r_fields tasks s Hr k).
Qed.

Lemma recorded_step max_workers tasks s e :
  consistent s -> recorded tasks s -> recorded tasks (step max_workers s e).
Proof.
  intros Hc Hr. destruct e as [| |f now|f r now|f msg now]; cbn [step].
  - unfold step_main.
    destruct (main s) as [[|t rest] | [|[tid f] rest] | ] eqn:Hm; try exact Hr.
    + split; [exact (r_stamps tasks s Hr) | exact (r_fields tasks s Hr)].
    + destruct (_wait_for_dependencies (executions s) t); [|exact Hr].
      split; cbn [pool executions]; [|exact (r_fields tasks s Hr)].
      intros f fu Hf. apply lookup_app_Some in Hf as [Hf | [_ Hf]].
      * exact (r_stamps tasks s Hr f fu Hf).
      * destruct (f - length (pool s))%nat; [|discriminate]. injection Hf as <-.
        pose proof (c_todo s Hc _ t Hm (or_introl eq_refl)) as Hp. unfold status_of in Hp.
        cbn [f_task f_state]. destruct (executions s !! id t) as [e|]; [|discriminate].
        exists e. split; [reflexivity | exact I].
    + split; [exact (r_stamps tasks s Hr) | exact (r_fields tasks s Hr)].
    + destruct (collect_head s tid f rest Hc Hm) as [(fu & Hfu & Hid) _].
      rewrite Hfu. cbn [fmap option_fmap option_map].
      destruct (f_state fu) as [| |[r|msg]] eqn:Hfs; try exact Hr.
      * apply recorded_alter; [exact Hr | intros e; cbn; auto |].
        intros e He. destruct (r_stamps tasks s Hr f fu Hfu) as (e' & He' & Hs).
        rewrite Hid, He in He'. injection He' as <-. rewrite Hfs in Hs. destruct Hs as [H1 H2].
        split; cbn; [eauto | discriminate].
      * apply recorded_alter; [exact Hr | intros e; cbn; auto |].
        intros e He. split; cbn; [discriminate | eauto].
  - unfold step_timeout.
    destruct (main s) as [todo | [|[tid f] rest] | ] eqn:Hm; try exact Hr.
    assert (Hfail : recorded tasks
              (State (alter (fun e => set_status FAILED (set_error "" e)) tid (executions s))
                     (pool s) (futures s) (Collecting rest))).
    { apply recorded_alter; [exact Hr | intros e; cbn; auto |].
      intros e He. split; cbn; [discriminate | eauto]. }
    destruct (f_state <$> pool s !! f) as [[| |o]|]; [exact Hfail | exact Hfail | exact Hr | exact Hfail].
  - unfold step_worker_start.
    destruct (pool s !! f) as [[t [| |o]]|] eqn:Hfu; try exact Hr.
    destruct (busy s <? max_workers)%nat; [|exact Hr].
    unfold set_future. rewrite Hfu. cbn [f_task].
    apply (recorded_worker tasks s f t Queued Started); try assumption.
    + intros e; cbn; eauto.
    + intros e _. cbn. eauto.
    + intros e _. split; cbn; discriminate.
  - unfold step_worker_exit.
    destruct (pool s !! f) as [[t [| |o]]|] eqn:Hfu; try exact Hr.
    unfold set_future. rewrite Hfu. cbn [f_task].
    apply (recorded_worker tasks s f t Started (Finished (inl r))); try assumption.
    + intros e; cbn; eauto.
    + intros e H. cbn in *. eauto.
    + intros e [H1 H2]. split; cbn; [intros H; destruct (H1 H) as (? & ? & ?); eauto | exact H2].
  - unfold step_worker_exit.
    destruct (pool s !! f) as [[t [| |o]]|] eqn:Hfu; try exact Hr.
    unfold set_future. rewrite Hfu. cbn [f_task].
    apply (recorded_worker tasks s f t Started (Finished (inr msg))); try assumption.
    + intros e; cbn; eauto.
    + intros e H. cbn in *. eauto.
    + intros e [H1 H2]. split; cbn; [intros H; destruct (H1 H) as (? & ? & ?); eauto | exact H2].
Qed.

Lemma recorded_exec max_workers tasks schedule : forall s,
  consistent s -> recorded tasks s -> recorded tasks (exec max_workers s schedule).
Proof.
  induction schedule as [|e schedule IH]; intros s Hc Hr; [exact Hr|].
  cbn [exec fold_left]. apply IH; [now apply consistent_step | now apply recorded_step].
Qed.

(** X22. In a run over tasks with distinct ids, at any point, a task whose
    status is completed carries its result and both its start and its
    completion stamp, and a task whose status is failed carries an error
    text. *)
Theorem finished_task_is_recorded (max_workers : nat) (ex : gmap string TaskExecution)
  (tasks : list Task) (schedule : list event) (t : Task) (e : TaskExecution) :
  NoDup (map id tasks) ->
  In t tasks ->
  executions (exec max_workers (start ex tasks) schedule) !! id t = Some e ->
  (status e = COMPLETED ->
   is_Some (result e) /\ is_Some (started_at e) /\ is_Some (completed_at e))
  /\ (status e = FAILED -> is_Some (error e)).
Proof.
  intros Hnd Ht He.
  assert (Hr : recorded tasks (exec max_workers (start ex tasks) schedule)).
  { apply recorded_exec; [now apply consistent_start | apply recorded_start]. }
  apply (r_fields tasks _ Hr (id t) e); [now apply in_map | exact He].
Qed.

Lemma finished_task_is_recorded_witness :
  let e := mkExecution (mkTask "task_0" "build" PARALLEL []) COMPLETED
             (Some ok_result) None (Some 10%Q) (Some 12%Q) in
  (status e = COMPLETED ->
   is_Some (result e) /\ is_Some (started_at e) /\ is_Some (completed_at e))
  /\ (status e = FAILED -> is_Some (error e)).
Proof.
  apply (finished_task_is_recorded 3 ∅ (parse "build and test") two_task_schedule
           (mkTask "task_0" "build" PARALLEL [])).
  - apply (bool_decide_unpack _). vm_compute. exact I.
  - vm_compute. left. reflexivity.
  - vm_compute. reflexivity.
Defined.

End ContextManager.

(* ===================================================================== *)
(** ** src/executors/gui_executor.py *)
(* ===================================================================== *)

Module GUIExecutor.
Import Text.

(** A target as returned by the vision service: a dictionary whose keys
    may be missing.  [confidence] is [None] when the key is missing or its
    value is not a number. *)
Record target : Type := Target {
  x : option Z;
  y : option Z;
  label : option string;
  confidence : option Q
}.

(** [out["target"]] *)
Record chosen : Type := Chosen {
  chosen_x : Z;
  chosen_y : Z;
  chosen_label : string;
  chosen_confidence : Q
}.

(** The dictionary [out]. *)
Record out : Type := Out {
  success : bool;
  out_target : option chosen;
  screenshots : list string;              (* the keys, in insertion order *)
  error : string;
  retries_used : nat;
  mouse_move_from : option (Z * Z);
  mouse_click_at : option (Z * Z);
  fallback : option string
}.

Definition initial_out : out := Out false None [] "" 0 None None None.

(** What the executor does to the outside, in order. *)
Inductive action : Type :=
| Capture (prefix : string)              (* capture_fullscreen(prefix=...) *)
| Predict (temperature : Q)              (* suggest_targets on the capture *)
| Verify                                 (* suggest_targets on the verify capture *)
| Click (cx cy : Z)                      (* move the pointer and click *)
| FallbackEntered                        (* _fallback_keyboard_action is called *)
| Shortcut (key : string).               (* cmd + key *)

Record world : Type := World {
  mouse : Z * Z;                          (* self.mouse.position *)
  trace : list action
}.

Definition emit (a : action) (w : world) : world := World (mouse w) (trace w ++ [a]).

(** A reply of the vision service: it raises, or [targets] of the reply (a
    reply that is not a dictionary counts as the empty list). *)
Inductive reply : Type :=
| Raises (msg : string)
| Replies (targets : list target).

(** What the collaborators do during one attempt.  A capture is [Some msg]
    when [capture_fullscreen] raises. *)
Record attempt_env : Type := AttemptEnv {
  before_capture : option string;
  prediction : reply;
  verify_capture : option string;
  verification : reply;
  after_capture : option string
}.

Definition get {A} (v : option A) (default : A) : A :=
  match v with Some a => a | None => default end.

(** The local function [conf]. *)
Definition conf (t : target) : Q := get (confidence t) 0%Q.

Definition Qlt_bool (a b : Q) : bool := negb (Qle_bool b a).

(** [max(targets, key=conf)] running from [best]: the first of the
    greatest. *)
Fixpoint max_by_conf (best : target) (rest : list target) : target :=
  match rest with
  | [] => best
  | t :: rest' =>
      if Qlt_bool (conf best) (conf t) then max_by_conf t rest' else max_by_conf best rest'
  end.

(** The square of [_dist((vx, vy), (tx, ty))]. *)
Definition sq_dist (vx vy tx ty : Z) : Z := ((vx - tx) * (vx - tx) + (vy - ty) * (vy - ty))%Z.

(** The square of [self._dist((int(t.get("x", 0)), int(t.get("y", 0))), (tx, ty))]. *)
Definition target_dist (tx ty : Z) (t : target) : Z :=
  sq_dist (get (x t) 0%Z) (get (y t) 0%Z) tx ty.

(** [self._dist((vx, vy), (tx, ty)) <= verify_radius], on exact numbers. *)
Definition within (verify_radius : Z) (t : target) (tx ty : Z) : bool :=
  (0 <=? verify_radius)%Z
  && (target_dist tx ty t <=? verify_radius * verify_radius)%Z.

(** The loop [for t in v_targets] that computes [near]. *)
Definition near (verify_radius : Z) (v_targets : list target) (tx ty : Z) : bool :=
  existsb (fun t => within verify_radius t tx ty) v_targets.

(** [min(v_targets, key=lambda t: self._dist(..., (tx, ty)))] running from
    [best]: the first of the closest. *)
Fixpoint min_by_dist (tx ty : Z) (best : target) (rest : list target) : target :=
  match rest with
  | [] => best
  | t :: rest' =>
      if (target_dist tx ty t <? target_dist tx ty best)%Z
      then min_by_dist tx ty t rest' else min_by_dist tx ty best rest'
  end.

(** The outcome of lines 121-135. *)
Inductive verdict : Type :=
| RetryCapture                   (* continue *)
| ClickAt (cx cy : Z).

(** Lines 121-135: the check of the verification targets. *)
Definition verify_decision (verify_radius : Z) (max_retries attempt : nat)
  (tx ty : Z) (v_targets : list target) : verdict :=
  let is_near := near verify_radius v_targets tx ty in
  match v_targets with
  | [] => ClickAt tx ty
  | v :: vs =>
      if negb is_near && (attempt <? max_retries - 1)%nat then RetryCapture
      else if negb is_near then
        let closest := min_by_dist tx ty v vs in
        ClickAt (get (x closest) tx) (get (y closest) ty)
      else ClickAt tx ty
  end.

(** [GUIExecutor._fallback_keyboard_action]; [keyboard_error] is [Some msg]
    when the keyboard controller raises. *)
Definition _fallback_keyboard_action (keyboard_error : option string)
  (instruction : string) (o : out) (w : world) : out * world :=
  let w := emit FallbackEntered w in
  let low_instruction := lower instruction in
  let press (key : string) (name : string) : out * world :=
    match keyboard_error with
    | Some msg =>
        (Out (success o) (out_target o) (screenshots o)
             (String.append "fallback_failed: " msg) (retries_used o)
             (mouse_move_from o) (mouse_click_at o) (fallback o), w)
    | None =>
        (Out true (out_target o) (screenshots o) (error o) (retries_used o)
             (mouse_move_from o) (mouse_click_at o) (Some name), emit (Shortcut key) w)
    end in
  if contains "compose" low_instruction || contains "new" low_instruction
  then press "n" "keyboard_shortcut_cmd_n"
  else if contains "save" low_instruction then press "s" "keyboard_shortcut_cmd_s"
  else if contains "copy" low_instruction then press "c" "keyboard_shortcut_cmd_c"
  else if contains "paste" low_instruction then press "v" "keyboard_shortcut_cmd_v"
  else (Out (success o) (out_target o) (screenshots o) "no_fallback_available"
            (retries_used o) (mouse_move_from o) (mouse_click_at o) (fallback o), w).

(** How one iteration of [for attempt in range(max_retries)] ends. *)
Inductive control : Type :=
| Continue
| Return.

Definition add_screenshot (key : string) (o : out) : out :=
  Out (success o) (out_target o)
      (if existsb (String.eqb key) (screenshots o) then screenshots o
       else screenshots o ++ [key])
      (error o) (retries_used o) (mouse_move_from o) (mouse_click_at o) (fallback o).

Definition set_target (c : chosen) (o : out) : out :=
  Out (success o) (Some c) (screenshots o) (error o) (retries_used o)
      (mouse_move_from o) (mouse_click_at o) (fallback o).

Definition set_error (msg : string) (o : out) : out :=
  Out (success o) (out_target o) (screenshots o) msg (retries_used o)
      (mouse_move_from o) (mouse_click_at o) (fallback o).

Section Execute.

Variable instruction : string.
Variable verify_radius : Z.
Variable max_retries : nat.
Variable keyboard_error : option string.

(** The handler [except Exception as e] of the loop body. *)
Definition handler (attempt : nat) (msg : string) (o : out) (w : world)
  : control * out * world :=
  if (attempt =? max_retries - 1)%nat then (Return, set_error msg o, w)
  else (Continue, o, w).

(** The prefix of the capture of an attempt. *)
Definition capture_prefix (attempt : nat) : string :=
  match attempt with
  | 0%nat => "before"
  | 1%nat => "retry1"
  | _ => "retry2"
  end.

(** [min(0.3 + attempt * 0.1, 0.7)] *)
Definition temperature (attempt : nat) : Q :=
  Qmin ((3 # 10) + inject_Z (Z.of_nat attempt) * (1 # 10)) (7 # 10).

(** Lines 137-149: the click. *)
Definition act (attempt : nat) (env : attempt_env) (tx ty : Z) (o : out) (w : world)
  : control * out * world :=
  let prev_pos := mouse w in
  let w := emit (Click tx ty) (World (tx, ty) (trace w)) in
  let w := emit (Capture "after") w in
  match after_capture env with
  | Some msg => handler attempt msg o w
  | None =>
      let o := add_screenshot "after" o in
      (Return,
       Out true (out_target o) (screenshots o) (error o) attempt
           (Some prev_pos) (Some (tx, ty)) (fallback o),
       w)
  end.

(** Lines 103-135: VERIFY, entered with the chosen point [(tx, ty)]. *)
Definition verify (attempt : nat) (env : attempt_env) (tx ty : Z) (o : out) (w : world)
  : control * out * world :=
  let w := emit (Capture "verify") w in
  match verify_capture env with
  | Some msg => handler attempt msg o w
  | None =>
      let o := add_screenshot "verify" o in
      let w := emit Verify w in
      match verification env with
      | Raises msg => handler attempt msg o w
      | Replies v_targets =>
          match verify_decision verify_radius max_retries attempt tx ty v_targets with
          | RetryCapture => (Continue, o, w)
          | ClickAt cx cy => act attempt env cx cy o w
          end
      end
  end.

(** The body of the loop: one attempt. *)
Definition attempt_body (attempt : nat) (env : attempt_env) (o : out) (w : world)
  : control * out * world :=
  let w := emit (Capture (capture_prefix attempt)) w in
  match before_capture env with
  | Some msg => handler attempt msg o w
  | None =>
      let o := add_screenshot (String.append "attempt_" (str_of_nat attempt)) o in
      let w := emit (Predict (temperature attempt)) w in
      match prediction env with
      | Raises msg => handler attempt msg o w
      | Replies [] =>
          if (attempt =? max_retries - 1)%nat then
            let '(o', w') := _fallback_keyboard_action keyboard_error instruction o w in
            (Return, o', w')
          else (Continue, o, w)
      | Replies (t :: ts) =>
          let best := max_by_conf t ts in
          let confidence := conf best in
          if (attempt <? 2)%nat && Qlt_bool confidence (1 # 2) then (Continue, o, w)
          else
            let tx := get (x best) 0%Z in
            let ty := get (y best) 0%Z in
            let o := set_target (Chosen tx ty (get (label best) "") confidence) o in
            verify attempt env tx ty o w
      end
  end.

(** The loop, from [attempt] on, with [remaining] iterations to go; after
    the loop come lines 157-160. *)
Fixpoint attempts (env : nat -> attempt_env) (remaining attempt : nat)
  (o : out) (w : world) : out * world :=
  match remaining with
  | O =>
      (Out (success o) (out_target o) (screenshots o) "max_retries_exceeded"
           max_retries (mouse_move_from o) (mouse_click_at o) (fallback o), w)
  | S remaining' =>
      match attempt_body attempt (env attempt) o w with
      | (Return, o', w') => (o', w')
      | (Continue, o', w') => attempts env remaining' (S attempt) o' w'
      end
  end.

(** [GUIExecutor.execute]: the result and what was done, with the pointer
    at [pointer] on entry and [env n] the collaborators' behaviour during
    attempt [n]. *)
Definition execute (env : nat -> attempt_env) (pointer : Z * Z) : out * world :=
  attempts env max_retries 0 initial_out (World pointer []).

End Execute.

(** The clicks of a trace. *)
Definition clicks (tr : list action) : list (Z * Z) :=
  flat_map (fun a => match a with Click cx cy => [(cx, cy)] | _ => [] end) tr.

(** The captures of a trace. *)
Definition captures (tr : list action) : list string :=
  flat_map (fun a => match a with Capture p => [p] | _ => [] end) tr.

Definition fallback_entered (tr : list action) : bool :=
  existsb (fun a => match a with FallbackEntered => true | _ => false end) tr.

Definition one_target (tx ty : Z) (c : Q) : target :=
  Target (Some tx) (Some ty) (Some "button") (Some c).

(** An attempt in which the service finds [ts] and the verification finds
    [vts], and no capture fails. *)
Definition sees (ts vts : list target) : attempt_env :=
  AttemptEnv None (Replies ts) None (Replies vts) None.

(** The first GUI example of the specification: one target of confidence
    0.9, confirmed by the verification pass. *)
Example execute_first_attempt :
  let r := execute "click send" 32 3 None
             (fun _ => sees [one_target 100 200 (9 # 10)] [one_target 110 190 (8 # 10)])
             (0, 0)%Z in
  success (fst r) = true
  /\ retries_used (fst r) = 0%nat
  /\ mouse_click_at (fst r) = Some (100, 200)%Z
  /\ clicks (trace (snd r)) = [(100, 200)%Z]
  /\ captures (trace (snd r)) = ["before"; "verify"; "after"].
Proof. cbv zeta. repeat split. Qed.

(** The second GUI example: no targets on any attempt, no known keyword. *)
Example execute_no_fallback :
  let r := execute "drag the slider" 32 3 None (fun _ => sees [] []) (0, 0)%Z in
  success (fst r) = false
  /\ error (fst r) = "no_fallback_available"
  /\ fallback_entered (trace (snd r)) = true
  /\ captures (trace (snd r)) = ["before"; "retry1"; "retry2"].
Proof. cbv zeta. repeat split. Qed.

Example execute_fallback_save :
  let r := execute "Save the file" 32 3 None (fun _ => sees [] []) (0, 0)%Z in
  success (fst r) = true
  /\ fallback (fst r) = Some "keyboard_shortcut_cmd_s".
Proof. cbv zeta. repeat split. Qed.

(** *** Traces *)

Lemma fallback_entered_emit a w :
  fallback_entered (trace (emit a w))
  = fallback_entered (trace w) || match a with FallbackEntered => true | _ => false end.
Proof.
  unfold fallback_entered, emit. cbn [trace]. rewrite existsb_app. cbn.
  now rewrite orb_false_r.
Qed.

Lemma clicks_emit a w :
  clicks (trace (emit a w))
  = clicks (trace w) ++ match a with Click cx cy => [(cx, cy)] | _ => [] end.
Proof.
  unfold clicks, emit. cbn [trace]. rewrite flat_map_app. cbn.
  now rewrite app_nil_r.
Qed.

Section Properties.

Variable instruction : string.
Variable verify_radius : Z.
Variable max_retries : nat.
Variable keyboard_error : option string.

Abbreviation handler := (handler max_retries).
Abbreviation act := (act max_retries).
Abbreviation verify := (verify verify_radius max_retries).
Abbreviation attempt_body := (attempt_body instruction verify_radius max_retries keyboard_error).
Abbreviation attempts := (attempts instruction verify_radius max_retries keyboard_error).

Lemma handler_world n msg o w : snd (handler n msg o w) = w.
Proof. unfold GUIExecutor.handler. now destruct (n =? max_retries - 1)%nat. Qed.

Lemma handler_continue n msg o w :
  (n <? max_retries - 1)%nat = true -> fst (fst (handler n msg o w)) = Continue.
Proof.
  intros H. unfold GUIExecutor.handler. apply Nat.ltb_lt in H.
  destruct (Nat.eqb_spec n (max_retries - 1)); [lia | reflexivity].
Qed.

Lemma act_fallback n env tx ty o w :
  fallback_entered (trace (snd (act n env tx ty o w))) = fallback_entered (trace w).
Proof.
  unfold GUIExecutor.act. destruct (after_capture env).
  - rewrite handler_world, !fallback_entered_emit. cbn. now rewrite !orb_false_r.
  - cbn [snd]. rewrite !fallback_entered_emit. cbn. now rewrite !orb_false_r.
Qed.

Lemma act_clicks n env tx ty o w :
  clicks (trace (snd (act n env tx ty o w))) = clicks (trace w) ++ [(tx, ty)].
Proof.
  unfold GUIExecutor.act. destruct (after_capture env).
  - rewrite handler_world, !clicks_emit. cbn. now rewrite app_nil_r.
  - cbn [snd]. rewrite !clicks_emit. cbn. now rewrite app_nil_r.
Qed.

Lemma verify_fallback n env tx ty o w :
  fallback_entered (trace (snd (verify n env tx ty o w))) = fallback_entered (trace w).
Proof.
  unfold GUIExecutor.verify. destruct (verify_capture env).
  { rewrite handler_world, fallback_entered_emit. cbn. now rewrite orb_false_r. }
  destruct (verification env) as [msg|v_targets].
  { rewrite handler_world, !fallback_entered_emit. cbn. now rewrite !orb_false_r. }
  destruct (verify_decision verify_radius max_retries n tx ty v_targets).
  - cbn [snd]. rewrite !fallback_entered_emit. cbn. now rewrite !orb_false_r.
  - rewrite act_fallback, !fallback_entered_emit. cbn. now rewrite !orb_false_r.
Qed.

(** The fallback is entered by an attempt only when it is the last one and
    its prediction is empty. *)
Lemma attempt_body_fallback n env o w :
  fallback_entered (trace (snd (attempt_body n env o w))) = true ->
  fallback_entered (trace w) = true
  \/ (n = (max_retries - 1)%nat /\ prediction env = Replies []).
Proof.
  unfold GUIExecutor.attempt_body. destruct (before_capture env).
  { rewrite handler_world, fallback_entered_emit. cbn. rewrite orb_false_r. auto. }
  destruct (prediction env) as [msg|[|t ts]].
  - rewrite handler_world, !fallback_entered_emit. cbn. rewrite !orb_false_r. auto.
  - destruct (Nat.eqb_spec n (max_retries - 1)) as [-> | Hne]; [auto|].
    cbn [snd]. rewrite !fallback_entered_emit. cbn. rewrite !orb_false_r. auto.
  - destruct ((n <? 2)%nat && _).
    + cbn [snd]. rewrite !fallback_entered_emit. cbn. rewrite !orb_false_r. auto.
    + rewrite verify_fallback, !fallback_entered_emit. cbn. rewrite !orb_false_r. auto.
Qed.

Lemma attempts_fallback env : forall remaining n o w,
  (n + remaining)%nat = max_retries ->
  fallback_entered (trace (snd (attempts env remaining n o w))) = true ->
  fallback_entered (trace w) = true
  \/ ((0 < max_retries)%nat /\ prediction (env (max_retries - 1)%nat) = Replies []).
Proof.
  induction remaining as [|remaining IH]; intros n o w Hn H; [now left|].
  cbn [GUIExecutor.attempts] in H.
  pose proof (attempt_body_fallback n (env n) o w) as Hbody.
  destruct (attempt_body n (env n) o w) as [[[|] o'] w'] eqn:E; cbn [snd] in *.
  - apply (IH (S n) o' w') in H; [|lia].
    destruct H as [H | H]; [|now right].
    destruct (Hbody H) as [Hw | [-> Hp]]; [now left | right]. split; [lia | exact Hp].
  - destruct (Hbody H) as [Hw | [-> Hp]]; [now left | right]. split; [lia | exact Hp].
Qed.


End Properties.

(** *** FALLBACK *)

(** Weak candidates on the first attempt, none afterwards. *)
Definition weak_then_nothing (n : nat) : attempt_env :=
  match n with
  | O => sees [one_target 100 200 (2 # 10)] []
  | _ => sees [] []
  end.

(** C2 as stated fails: the PREDICT step of the first attempt returns a
    non-empty target list (rejected for its low confidence), the last
    attempt returns none, and the keyboard fallback is invoked. *)
Lemma fallback_after_weak_candidate :
  let r := execute "save the file" 32 3 None weak_then_nothing (0, 0)%Z in
  prediction (weak_then_nothing 0) = Replies [one_target 100 200 (2 # 10)]
  /\ fallback_entered (trace (snd r)) = true
  /\ fallback (fst r) = Some "keyboard_shortcut_cmd_s"
  /\ captures (trace (snd r)) = ["before"; "retry1"; "retry2"].
Proof. cbv zeta. repeat split. Qed.

(** C2 (amended). In the retry loop the keyboard-shortcut FALLBACK path is
    entered only when the PREDICT step of the final attempt returned zero
    candidate targets: for every run of [execute] in which the fallback is
    invoked, there is a final attempt and its prediction is the empty list
    (whatever the earlier attempts returned). *)
Theorem fallback_only_on_empty_final_prediction
  (instruction : string) (verify_radius : Z) (max_retries : nat)
  (keyboard_error : option string) (env : nat -> attempt_env) (pointer : Z * Z) :
  fallback_entered
    (trace (snd (execute instruction verify_radius max_retries keyboard_error env pointer)))
  = true ->
  (0 < max_retries)%nat /\ prediction (env (max_retries - 1)%nat) = Replies [].
Proof.
  intros H. unfold execute in H.
  apply attempts_fallback in H; [|reflexivity].
  destruct H as [H | H]; [discriminate H | exact H].
Qed.

Lemma fallback_only_on_empty_final_prediction_witness :
  (0 < 3)%nat /\ prediction (weak_then_nothing (3 - 1)) = Replies [].
Proof.
  apply (fallback_only_on_empty_final_prediction "save the file" 32 3 None
           weak_then_nothing (0, 0)%Z).
  reflexivity.
Defined.

(** *** VERIFY *)




(** The final attempt of the same run snaps the click to the fresh target. *)
Example verify_final_attempt_snaps :
  let env := sees [one_target 100 200 (9 # 10)] [one_target 500 500 (9 # 10)] in
  let r := attempt_body "click send" 32 3 None 2 env initial_out (World (0, 0)%Z []) in
  fst (fst r) = Return
  /\ clicks (trace (snd r)) = [(500, 500)%Z]
  /\ mouse_click_at (snd (fst r)) = Some (500, 500)%Z
  /\ out_target (snd (fst r)) = Some (Chosen 100 200 "button" (9 # 10)).
Proof. cbv zeta. repeat split. Qed.

(** On the final attempt a closest target that carries no coordinates is
    measured at (0, 0) and leaves the click on the original choice. *)
Example verify_final_attempt_without_coordinates :
  near 32 [Target None None None None] 100 200 = false
  /\ verify_decision 32 3 2 100 200 [Target None None None None] = ClickAt 100 200.
Proof. split; reflexivity. Qed.

(** *** Further properties of the retry loop *)

Lemma captures_emit a w :
  captures (trace (emit a w))
  = captures (trace w) ++ match a with Capture p => [p] | _ => [] end.
Proof.
  unfold captures, emit. cbn [trace]. rewrite flat_map_app. cbn. now rewrite app_nil_r.
Qed.

Lemma mouse_emit a w : mouse (emit a w) = mouse w.
Proof. reflexivity. Qed.

(** What the keyboard fallback leaves alone, and when it succeeds. *)
Lemma fallback_action_effects keyboard_error instruction o w :
  let r := _fallback_keyboard_action keyboard_error instruction o w in
  clicks (trace (snd r)) = clicks (trace w)
  /\ captures (trace (snd r)) = captures (trace w)
  /\ mouse (snd r) = mouse w
  /\ (success (fst r) = true -> success o = false -> fallback (fst r) <> None).
Proof.
  cbv zeta. unfold _fallback_keyboard_action.
  assert (Hpress : forall key name,
    let r := match keyboard_error with
             | Some msg =>
                 (Out (success o) (out_target o) (screenshots o)
                      (String.append "fallback_failed: " msg) (retries_used o)
                      (mouse_move_from o) (mouse_click_at o) (fallback o),
                  emit FallbackEntered w)
             | None =>
                 (Out true (out_target o) (screenshots o) (error o) (retries_used o)
                      (mouse_move_from o) (mouse_click_at o) (Some name),
                  emit (Shortcut key) (emit FallbackEntered w))
             end in
    clicks (trace (snd r)) = clicks (trace w)
    /\ captures (trace (snd r)) = captures (trace w)
    /\ mouse (snd r) = mouse w
    /\ (success (fst r) = true -> success o = false -> fallback (fst r) <> None)).
  { intros key name. destruct keyboard_error as [msg|]; cbn [fst snd success fallback];
      rewrite ?clicks_emit, ?captures_emit, ?mouse_emit, ?app_nil_r;
      (split; [reflexivity|]; split; [reflexivity|]; split; [reflexivity|]);
      [congruence | discriminate]. }
  destruct (contains "compose" (lower instruction) || contains "new" (lower instruction));
    [apply Hpress|].
  destruct (contains "save" (lower instruction)); [apply Hpress|].
  destruct (contains "copy" (lower instruction)); [apply Hpress|].
  destruct (contains "paste" (lower instruction)); [apply Hpress|].
  cbn [fst snd success fallback]. rewrite clicks_emit, captures_emit, mouse_emit, !app_nil_r.
  repeat split; congruence.
Qed.

Section LoopProperties.

Variable instruction : string.
Variable verify_radius : Z.
Variable max_retries : nat.
Variable keyboard_error : option string.

Abbreviation handler' := (handler max_retries).
Abbreviation act' := (act max_retries).
Abbreviation verify' := (verify verify_radius max_retries).
Abbreviation attempt_body' :=
  (attempt_body instruction verify_radius max_retries keyboard_error).
Abbreviation attempts' := (attempts instruction verify_radius max_retries keyboard_error).

Lemma handler_out n msg o w :
  success (snd (fst (handler' n msg o w))) = success o
  /\ fallback (snd (fst (handler' n msg o w))) = fallback o.
Proof. unfold handler. destruct (n =? max_retries - 1)%nat; split; reflexivity. Qed.

(** What a successful click leaves in [out] and in the world. *)
Definition clicked (n : nat) (target : option chosen) (o : out) (w : world) : Prop :=
  retries_used o = n
  /\ out_target o = target
  /\ exists p, mouse_click_at o = Some p
               /\ last (clicks (trace w)) = Some p
               /\ mouse w = p.

Lemma act_success n env tx ty o w :
  success o = false ->
  success (snd (fst (act' n env tx ty o w))) = true ->
  clicked n (out_target o) (snd (fst (act' n env tx ty o w))) (snd (act' n env tx ty o w))
  /\ fallback (snd (fst (act' n env tx ty o w))) = fallback o.
Proof.
  intros Ho. pose proof (act_clicks max_retries n env tx ty o w) as Hclicks.
  unfold act in *. destruct (after_capture env) as [msg|].
  - destruct (handler_out n msg o
                (emit (Capture "after") (emit (Click tx ty) (World (tx, ty) (trace w)))))
      as [Hs _].
    rewrite Hs, Ho. discriminate.
  - intros _. cbn [fst snd] in *. split; [|reflexivity].
    split; [reflexivity|]. split; [reflexivity|]. exists (tx, ty).
    split; [reflexivity|]. split; [|reflexivity].
    rewrite Hclicks. apply last_snoc.
Qed.

Lemma verify_success n env tx ty o w :
  success o = false ->
  success (snd (fst (verify' n env tx ty o w))) = true ->
  clicked n (out_target o) (snd (fst (verify' n env tx ty o w)))
          (snd (verify' n env tx ty o w))
  /\ fallback (snd (fst (verify' n env tx ty o w))) = fallback o.
Proof.
  intros Ho. unfold verify. destruct (verify_capture env) as [msg|].
  { destruct (handler_out n msg o (emit (Capture "verify") w)) as [Hs _].
    rewrite Hs, Ho. discriminate. }
  destruct (verification env) as [msg|v_targets].
  { destruct (handler_out n msg (add_screenshot "verify" o)
                (emit Verify (emit (Capture "verify") w))) as [Hs _].
    rewrite Hs. cbn. rewrite Ho. discriminate. }
  destruct (verify_decision verify_radius max_retries n tx ty v_targets) as [|cx cy].
  - cbn. rewrite Ho. discriminate.
  - intros H. apply act_success in H; [exact H | exact Ho].
Qed.

(** An attempt that ends in a click without the fallback. *)
Lemma attempt_body_success n env o w :
  success o = false -> fallback o = None ->
  success (snd (fst (attempt_body' n env o w))) = true ->
  fallback (snd (fst (attempt_body' n env o w))) = None ->
  exists t ts,
    prediction env = Replies (t :: ts)
    /\ (n <? 2)%nat && Qlt_bool (conf (max_by_conf t ts)) (1 # 2) = false
    /\ clicked n
         (Some (Chosen (get (x (max_by_conf t ts)) 0%Z) (get (y (max_by_conf t ts)) 0%Z)
                       (get (label (max_by_conf t ts)) "") (conf (max_by_conf t ts))))
         (snd (fst (attempt_body' n env o w))) (snd (attempt_body' n env o w)).
Proof.
  intros Ho Hf. unfold attempt_body. destruct (before_capture env) as [msg|].
  { destruct (handler_out n msg o (emit (Capture (capture_prefix n)) w)) as [Hs _].
    rewrite Hs, Ho. discriminate. }
  destruct (prediction env) as [msg|[|t ts]].
  - match goal with |- context [handler' n msg ?o' ?w'] =>
      destruct (handler_out n msg o' w') as [Hs _] end.
    rewrite Hs. cbn. rewrite Ho. discriminate.
  - destruct (n =? max_retries - 1)%nat; [|cbn; rewrite Ho; discriminate].
    match goal with |- context [_fallback_keyboard_action ?k ?i ?o' ?w'] =>
      pose proof (fallback_action_effects k i o' w') as (_ & _ & _ & Hfb);
      destruct (_fallback_keyboard_action k i o' w') as [o2 w2] end.
    cbn [fst snd] in *. intros Hs Hn. exfalso. apply (Hfb Hs); [exact Ho | exact Hn].
  - destruct ((n <? 2)%nat && Qlt_bool (conf (max_by_conf t ts)) (1 # 2)) eqn:Hlow.
    + cbn. rewrite Ho. discriminate.
    + intros Hs _. apply verify_success in Hs; [|exact Ho].
      destruct Hs as [Hclicked _]. exists t, ts. split; [reflexivity|].
      split; [exact Hlow | exact Hclicked].
Qed.

(** An attempt that is followed by another leaves [out] unsuccessful. *)
Lemma attempt_body_continue n env o w :
  success o = false -> fallback o = None ->
  fst (fst (attempt_body' n env o w)) = Continue ->
  success (snd (fst (attempt_body' n env o w))) = false
  /\ fallback (snd (fst (attempt_body' n env o w))) = None.
Proof.
  intros Ho Hf. unfold attempt_body, verify, act.
  repeat match goal with
  | |- context [handler' n ?m ?o' ?w'] =>
      let Hs := fresh "Hs" in let Hb := fresh "Hb" in
      destruct (handler_out n m o' w') as [Hs Hb];
      destruct (handler' n m o' w') as [[c1 o1] w1]; cbn [fst snd] in *;
      intros _; rewrite Hs, Hb; cbn; auto
  | |- context [match ?e with _ => _ end] =>
      lazymatch e with
      | _fallback_keyboard_action _ _ _ _ => destruct e as [o2 w2]; cbn; discriminate
      | _ => destruct e
      end
  end; cbn; try discriminate; auto.
Qed.

(** The loop ends in success without the fallback only through a click. *)
Lemma attempts_success env : forall remaining n o w,
  success o = false -> fallback o = None ->
  success (fst (attempts' env remaining n o w)) = true ->
  fallback (fst (attempts' env remaining n o w)) = None ->
  exists k t ts,
    (n <= k < n + remaining)%nat
    /\ prediction (env k) = Replies (t :: ts)
    /\ (k <? 2)%nat && Qlt_bool (conf (max_by_conf t ts)) (1 # 2) = false
    /\ clicked k
         (Some (Chosen (get (x (max_by_conf t ts)) 0%Z) (get (y (max_by_conf t ts)) 0%Z)
                       (get (label (max_by_conf t ts)) "") (conf (max_by_conf t ts))))
         (fst (attempts' env remaining n o w)) (snd (attempts' env remaining n o w)).
Proof.
  induction remaining as [|remaining IH]; intros n o w Ho Hf.
  - cbn. rewrite Ho. discriminate.
  - cbn [attempts].
    pose proof (attempt_body_success n (env n) o w Ho Hf) as Hsucc.
    pose proof (attempt_body_continue n (env n) o w Ho Hf) as Hcont.
    destruct (attempt_body' n (env n) o w) as [[[|] o'] w']; cbn [fst snd] in *.
    + destruct (Hcont eq_refl) as [Ho' Hf']. intros Hs Hn.
      destruct (IH (S n) o' w' Ho' Hf' Hs Hn) as (k & t & ts & Hk & H).
      exists k, t, ts. split; [lia | exact H].
    + intros Hs Hn. destruct (Hsucc Hs Hn) as (t & ts & H).
      exists n, t, ts. split; [lia | exact H].
Qed.

(** Fields of [out] that only a click or the fallback changes. *)
Definition same_report (o o' : out) : Prop :=
  success o' = success o
  /\ out_target o' = out_target o
  /\ retries_used o' = retries_used o
  /\ mouse_click_at o' = mouse_click_at o
  /\ fallback o' = fallback o.

(** The exception, if any, that ends an attempt before it has candidates. *)
Definition raises_early (env : attempt_env) : option string :=
  match before_capture env with
  | Some msg => Some msg
  | None =>
      match prediction env with
      | Raises msg => Some msg
      | Replies _ => None
      end
  end.

Lemma attempt_body_raises n env o w msg :
  raises_early env = Some msg ->
  exists o1 w1,
    attempt_body' n env o w = handler' n msg o1 w1
    /\ same_report o o1
    /\ clicks (trace w1) = clicks (trace w)
    /\ captures (trace w1) = captures (trace w) ++ [capture_prefix n]
    /\ fallback_entered (trace w1) = fallback_entered (trace w)
    /\ mouse w1 = mouse w.
Proof.
  unfold raises_early, attempt_body. destruct (before_capture env) as [m|].
  - intros [= ->]. eexists _, _. split; [reflexivity|].
    rewrite clicks_emit, captures_emit, fallback_entered_emit, app_nil_r, orb_false_r.
    repeat split.
  - destruct (prediction env) as [m|ts]; [|discriminate]. intros [= ->].
    eexists _, _. split; [reflexivity|].
    rewrite !clicks_emit, !captures_emit, !fallback_entered_emit, !app_nil_r, !orb_false_r.
    repeat split.
Qed.

Lemma attempts_raise env (msgs : nat -> string) : forall remaining n o w,
  (n + remaining = max_retries)%nat ->
  (0 < remaining)%nat ->
  (forall k, (k < max_retries)%nat -> raises_early (env k) = Some (msgs k)) ->
  same_report o (fst (attempts' env remaining n o w))
  /\ error (fst (attempts' env remaining n o w)) = msgs (max_retries - 1)%nat
  /\ clicks (trace (snd (attempts' env remaining n o w))) = clicks (trace w)
  /\ length (captures (trace (snd (attempts' env remaining n o w))))
     = (length (captures (trace w)) + remaining)%nat
  /\ fallback_entered (trace (snd (attempts' env remaining n o w)))
     = fallback_entered (trace w)
  /\ mouse (snd (attempts' env remaining n o w)) = mouse w.
Proof.
  induction remaining as [|remaining IH]; intros n o w Hsum Hpos Hall; [lia|].
  cbn [attempts].
  destruct (attempt_body_raises n (env n) o w (msgs n)) as
    (o1 & w1 & -> & Hsame & Hc & Hcap & Hfb & Hm); [apply Hall; lia|].
  unfold handler. destruct (n =? max_retries - 1)%nat eqn:Hlast.
  - apply Nat.eqb_eq in Hlast. cbn [fst snd]. assert (remaining = 0%nat) as -> by lia.
    rewrite Hc, Hcap, Hfb, Hm, length_app. cbn [length error set_error].
    rewrite <- Hlast. unfold same_report in *. cbn. tauto.
  - apply Nat.eqb_neq in Hlast.
    destruct (IH (S n) o1 w1) as (Hs & He & Hc' & Hcap' & Hfb' & Hm');
      [lia | lia | exact Hall |].
    rewrite He, Hc', Hcap', Hfb', Hm', Hc, Hcap, Hfb, Hm, length_app. cbn [length].
    split; [|repeat split; lia].
    unfold same_report in *. intuition congruence.
Qed.

(** What one attempt does to the pointer: nothing, or one click that moves
    it there; without a failing last capture a click ends the loop and is
    reported. *)
Lemma act_click n env tx ty o w :
  clicks (trace (snd (act' n env tx ty o w))) = clicks (trace w) ++ [(tx, ty)]
  /\ mouse (snd (act' n env tx ty o w)) = (tx, ty)
  /\ (after_capture env = None ->
      fst (fst (act' n env tx ty o w)) = Return
      /\ success (snd (fst (act' n env tx ty o w))) = true
      /\ mouse_click_at (snd (fst (act' n env tx ty o w))) = Some (tx, ty)).
Proof.
  split; [apply act_clicks|]. unfold act. destruct (after_capture env) as [msg|].
  - rewrite handler_world. split; [reflexivity | discriminate].
  - cbn. repeat split.
Qed.

Lemma attempt_body_click n env o w :
  (clicks (trace (snd (attempt_body' n env o w))) = clicks (trace w)
   /\ mouse (snd (attempt_body' n env o w)) = mouse w
   /\ mouse_click_at (snd (fst (attempt_body' n env o w))) = mouse_click_at o)
  \/ exists p,
       clicks (trace (snd (attempt_body' n env o w))) = clicks (trace w) ++ [p]
       /\ mouse (snd (attempt_body' n env o w)) = p
       /\ (after_capture env = None ->
           fst (fst (attempt_body' n env o w)) = Return
           /\ success (snd (fst (attempt_body' n env o w))) = true
           /\ mouse_click_at (snd (fst (attempt_body' n env o w))) = Some p).
Proof.
  assert (Hh : forall msg o1 w1,
    clicks (trace w1) = clicks (trace w) -> mouse w1 = mouse w ->
    mouse_click_at o1 = mouse_click_at o ->
    clicks (trace (snd (handler' n msg o1 w1))) = clicks (trace w)
    /\ mouse (snd (handler' n msg o1 w1)) = mouse w
    /\ mouse_click_at (snd (fst (handler' n msg o1 w1))) = mouse_click_at o).
  { intros msg o1 w1 Hc Hm Ho. rewrite handler_world. unfold handler.
    destruct (n =? max_retries - 1)%nat; cbn; auto. }
  unfold attempt_body. destruct (before_capture env) as [msg|].
  { left. apply Hh; [|reflexivity|reflexivity]. now rewrite clicks_emit, app_nil_r. }
  destruct (prediction env) as [msg|[|t ts]].
  - left. apply Hh; [|reflexivity|reflexivity]. now rewrite !clicks_emit, !app_nil_r.
  - left. destruct (n =? max_retries - 1)%nat.
    + match goal with |- context [_fallback_keyboard_action ?k ?i ?o' ?w'] =>
        pose proof (fallback_action_effects k i o' w') as (Hc & _ & Hm & _);
        assert (Hk : mouse_click_at (fst (_fallback_keyboard_action k i o' w'))
                     = mouse_click_at o');
        [ unfold _fallback_keyboard_action;
          repeat match goal with |- context [if ?b then _ else _] => destruct b end;
          destruct k; reflexivity |];
        destruct (_fallback_keyboard_action k i o' w') as [o2 w2] end.
      cbn [fst snd] in *. rewrite Hc, Hm, Hk, !clicks_emit, !app_nil_r. auto.
    + cbn [fst snd]. rewrite !clicks_emit, !app_nil_r. auto.
  - destruct ((n <? 2)%nat && Qlt_bool (conf (max_by_conf t ts)) (1 # 2)).
    { left. cbn [fst snd]. rewrite !clicks_emit, !app_nil_r. auto. }
    unfold verify. destruct (verify_capture env) as [msg|].
    { left. apply Hh; [|reflexivity|reflexivity]. now rewrite !clicks_emit, !app_nil_r. }
    destruct (verification env) as [msg|v_targets].
    { left. apply Hh; [|reflexivity|reflexivity]. now rewrite !clicks_emit, !app_nil_r. }
    destruct (verify_decision verify_radius max_retries n _ _ v_targets) as [|cx cy].
    { left. cbn [fst snd]. rewrite !clicks_emit, !app_nil_r. auto. }
    right. exists (cx, cy).
    match goal with |- context [act' n env cx cy ?o' ?w'] =>
      destruct (act_click n env cx cy o' w') as (Hc & Hm & Hr) end.
    rewrite Hc, Hm, !clicks_emit, !app_nil_r. auto.
Qed.

Lemma attempts_click_bound env : forall remaining n o w,
  (length (clicks (trace (snd (attempts' env remaining n o w))))
   <= length (clicks (trace w)) + remaining)%nat
  /\ forall pointer, mouse w = get (last (clicks (trace w))) pointer ->
     mouse (snd (attempts' env remaining n o w))
     = get (last (clicks (trace (snd (attempts' env remaining n o w))))) pointer.
Proof.
  induction remaining as [|remaining IH]; intros n o w.
  - cbn. split; [lia | auto].
  - cbn [attempts].
    destruct (attempt_body_click n (env n) o w) as [(Hc & Hm & _) | (p & Hc & Hm & _)];
      destruct (attempt_body' n (env n) o w) as [[[|] o'] w']; cbn [fst snd] in *.
    + destruct (IH (S n) o' w') as [Hlen Hptr].
      split; [rewrite Hc in Hlen; lia|].
      intros pointer Hp. apply Hptr. now rewrite Hc, Hm.
    + split; [rewrite Hc; lia|]. intros pointer Hp. now rewrite Hc, Hm.
    + destruct (IH (S n) o' w') as [Hlen Hptr].
      split; [rewrite Hc, length_app in Hlen; cbn in Hlen; lia|].
      intros pointer _. apply Hptr. now rewrite Hc, last_snoc.
    + split; [rewrite Hc, length_app; cbn; lia|].
      intros pointer _. now rewrite Hc, last_snoc.
Qed.

Lemma attempts_click_reported env : forall remaining n o w,
  (forall k, (k < n + remaining)%nat -> after_capture (env k) = None) ->
  mouse_click_at o = None ->
  clicks (trace w) = [] ->
  (mouse_click_at (fst (attempts' env remaining n o w)) = None
   /\ clicks (trace (snd (attempts' env remaining n o w))) = [])
  \/ exists p,
       mouse_click_at (fst (attempts' env remaining n o w)) = Some p
       /\ clicks (trace (snd (attempts' env remaining n o w))) = [p]
       /\ success (fst (attempts' env remaining n o w)) = true.
Proof.
  induction remaining as [|remaining IH]; intros n o w Hall Ho Hw.
  - left. cbn. auto.
  - cbn [attempts].
    destruct (attempt_body_click n (env n) o w) as [(Hc & _ & Hk) | (p & Hc & _ & Hr)].
    + destruct (attempt_body' n (env n) o w) as [[[|] o'] w']; cbn [fst snd] in *.
      * apply IH; [intros k Hk'; apply Hall; lia | congruence | congruence].
      * left. split; congruence.
    + destruct Hr as (Hret & Hs & Hk); [apply Hall; lia|].
      destruct (attempt_body' n (env n) o w) as [[[|] o'] w']; cbn [fst snd] in *;
        [discriminate|].
      right. exists p. rewrite Hc, Hw. auto.
Qed.

End LoopProperties.

Lemma max_by_conf_spec : forall rest best,
  (conf best <= conf (max_by_conf best rest))%Q
  /\ forall u, In u rest -> (conf u <= conf (max_by_conf best rest))%Q.
Proof.
  induction rest as [|a rest IH]; intros best; cbn [max_by_conf].
  - split; [apply Qle_refl | intros u []].
  - unfold Qlt_bool. destruct (Qle_bool (conf a) (conf best)) eqn:E; cbn [negb].
    + apply Qle_bool_iff in E. destruct (IH best) as [Hb Hr].
      split; [exact Hb|]. intros u [<- | Hu]; [|now apply Hr].
      eapply Qle_trans; [exact E | exact Hb].
    + assert (Hlt : (conf best < conf a)%Q).
      { apply Qnot_le_lt. intros H. apply Qle_bool_iff in H. congruence. }
      destruct (IH a) as [Ha Hr].
      split; [eapply Qle_trans; [apply Qlt_le_weak; exact Hlt | exact Ha]|].
      intros u [<- | Hu]; [exact Ha | now apply Hr].
Qed.

(** X23. When [execute] reports success without having used the keyboard
    fallback, it clicked on the attempt numbered [retries_used]: the
    vision service returned candidates on that attempt, the confidence
    reported in [target] is that of the candidate picked by
    [max(targets, key=conf)], no candidate of the attempt has a confidence
    that compares greater, on the first two attempts the test
    [confidence < 0.5] of line 92 is false for it, and the pointer rests
    on the point reported in [mouse_click_at], which is the last point
    clicked.  The two comparisons are the ones the code makes (the [>] of
    [max] and the [<] of line 92): confidences are rational numbers here,
    and the statement reads the same for a confidence that is not a
    number, for which both comparisons are false. *)
Theorem execute_success_means_click
  (instruction : string) (verify_radius : Z) (max_retries : nat)
  (keyboard_error : option string) (env : nat -> attempt_env) (pointer : Z * Z) :
  let r := execute instruction verify_radius max_retries keyboard_error env pointer in
  let n := retries_used (fst r) in
  success (fst r) = true ->
  fallback (fst r) = None ->
  (n < max_retries)%nat
  /\ exists t ts c p,
       prediction (env n) = Replies (t :: ts)
       /\ out_target (fst r) = Some c
       /\ chosen_confidence c = conf (max_by_conf t ts)
       /\ (forall u, In u (t :: ts) -> Qlt_bool (chosen_confidence c) (conf u) = false)
       /\ ((n < 2)%nat -> Qlt_bool (chosen_confidence c) (1 # 2) = false)
       /\ mouse_click_at (fst r) = Some p
       /\ last (clicks (trace (snd r))) = Some p
       /\ mouse (snd r) = p.
Proof.
  cbv zeta. unfold execute. intros Hs Hf.
  destruct (attempts_success instruction verify_radius max_retries keyboard_error env
              max_retries 0 initial_out (World pointer []) eq_refl eq_refl Hs Hf)
    as (k & t & ts & Hk & Hpred & Hlow & Hn & Ht & p & Hp & Hlast & Hm).
  rewrite Hn. split; [lia|].
  eexists t, ts, _, p. split; [exact Hpred|]. split; [exact Ht|].
  cbn [chosen_confidence]. split; [reflexivity|].
  destruct (max_by_conf_spec ts t) as [Hb Hr].
  split.
  { intros u Hu. unfold Qlt_bool. apply negb_false_iff, Qle_bool_iff.
    destruct Hu as [<- | Hu]; [exact Hb | now apply Hr]. }
  split; [|auto].
  intros Hlt. apply Nat.ltb_lt in Hlt. rewrite Hlt in Hlow. exact Hlow.
Qed.

Lemma execute_success_means_click_witness :
  let env := fun _ : nat =>
    sees [one_target 5 5 (6 # 10); one_target 100 200 (9 # 10)] [one_target 110 190 (8 # 10)] in
  let r := execute "click send" 32 3 None env (0, 0)%Z in
  let n := retries_used (fst r) in
  (n < 3)%nat
  /\ exists t ts c p,
       prediction (env n) = Replies (t :: ts)
       /\ out_target (fst r) = Some c
       /\ chosen_confidence c = conf (max_by_conf t ts)
       /\ (forall u, In u (t :: ts) -> Qlt_bool (chosen_confidence c) (conf u) = false)
       /\ ((n < 2)%nat -> Qlt_bool (chosen_confidence c) (1 # 2) = false)
       /\ mouse_click_at (fst r) = Some p
       /\ last (clicks (trace (snd r))) = Some p
       /\ mouse (snd r) = p.
Proof.
  apply (execute_success_means_click "click send" 32 3 None
           (fun _ : nat =>
              sees [one_target 5 5 (6 # 10); one_target 100 200 (9 # 10)]
                   [one_target 110 190 (8 # 10)]) (0, 0)%Z).
  - reflexivity.
  - reflexivity.
Defined.

(** X24. If every attempt raises before it has candidates (the capture or
    the query to the vision service fails), [execute] makes one capture
    per attempt and reports failure with the message of the last attempt:
    it never clicks, never moves the pointer, never enters the keyboard
    fallback, sets no target, and leaves [retries_used] at 0. *)
Theorem execute_surfaces_last_exception
  (instruction : string) (verify_radius : Z) (max_retries : nat)
  (keyboard_error : option string) (env : nat -> attempt_env) (pointer : Z * Z)
  (msgs : nat -> string) :
  (0 < max_retries)%nat ->
  (forall n, (n < max_retries)%nat -> raises_early (env n) = Some (msgs n)) ->
  let r := execute instruction verify_radius max_retries keyboard_error env pointer in
  success (fst r) = false
  /\ error (fst r) = msgs (max_retries - 1)%nat
  /\ out_target (fst r) = None
  /\ retries_used (fst r) = 0%nat
  /\ fallback (fst r) = None
  /\ clicks (trace (snd r)) = []
  /\ mouse (snd r) = pointer
  /\ fallback_entered (trace (snd r)) = false
  /\ length (captures (trace (snd r))) = max_retries.
Proof.
  intros Hpos Hall. cbv zeta. unfold execute.
  destruct (attempts_raise instruction verify_radius max_retries keyboard_error env msgs
              max_retries 0 initial_out (World pointer []))
    as ((Hs & Ht & Hn & _ & Hf) & He & Hc & Hcap & Hfb & Hm); [lia | lia | exact Hall |].
  repeat split; assumption.
Qed.

Lemma execute_surfaces_last_exception_witness :
  let r := execute "click send" 32 3 None
             (fun _ : nat => AttemptEnv None (Raises "timeout") None (Replies []) None)
             (7, 9)%Z in
  success (fst r) = false
  /\ error (fst r) = "timeout"
  /\ out_target (fst r) = None
  /\ retries_used (fst r) = 0%nat
  /\ fallback (fst r) = None
  /\ clicks (trace (snd r)) = []
  /\ mouse (snd r) = (7, 9)%Z
  /\ fallback_entered (trace (snd r)) = false
  /\ length (captures (trace (snd r))) = 3%nat.
Proof.
  apply (execute_surfaces_last_exception "click send" 32 3 None
           (fun _ : nat => AttemptEnv None (Raises "timeout") None (Replies []) None)
           (7, 9)%Z (fun _ : nat => "timeout")).
  - lia.
  - intros n _. reflexivity.
Defined.

(** X25. [execute] clicks at most once per attempt, so at most
    [max_retries] times in all, and the pointer moves only by clicking: on
    return it rests on the last point clicked, or where it was on entry if
    nothing was clicked.  (The mouse controller itself is taken not to
    raise.) *)
Theorem execute_click_bound
  (instruction : string) (verify_radius : Z) (max_retries : nat)
  (keyboard_error : option string) (env : nat -> attempt_env) (pointer : Z * Z) :
  let r := execute instruction verify_radius max_retries keyboard_error env pointer in
  (length (clicks (trace (snd r))) <= max_retries)%nat
  /\ mouse (snd r) = get (last (clicks (trace (snd r)))) pointer.
Proof.
  cbv zeta. unfold execute.
  destruct (attempts_click_bound instruction verify_radius max_retries keyboard_error env
              max_retries 0 initial_out (World pointer [])) as [Hlen Hptr].
  split; [exact Hlen | apply Hptr; reflexivity].
Qed.

(** X26. If the capture taken after a click never fails (and the mouse
    controller does not raise), [execute] clicks exactly when it reports a
    click: the points clicked are the one point in [mouse_click_at], or
    none when that field is unset, and a reported click comes with
    success. *)
Theorem execute_reports_its_click
  (instruction : string) (verify_radius : Z) (max_retries : nat)
  (keyboard_error : option string) (env : nat -> attempt_env) (pointer : Z * Z) :
  (forall n, (n < max_retries)%nat -> after_capture (env n) = None) ->
  let r := execute instruction verify_radius max_retries keyboard_error env pointer in
  clicks (trace (snd r))
  = match mouse_click_at (fst r) with Some p => [p] | None => [] end
  /\ (mouse_click_at (fst r) <> None -> success (fst r) = true).
Proof.
  intros Hall. cbv zeta. unfold execute.
  destruct (attempts_click_reported instruction verify_radius max_retries keyboard_error
              env max_retries 0 initial_out (World pointer []) Hall eq_refl eq_refl)
    as [[Hk Hc] | (p & Hk & Hc & Hs)].
  - rewrite Hk, Hc. split; [reflexivity | congruence].
  - rewrite Hk, Hc. split; [reflexivity | auto].
Qed.

Lemma execute_reports_its_click_witness :
  let r := execute "click send" 32 3 None
             (fun _ : nat => sees [one_target 100 200 (9 # 10)] [one_target 300 300 (8 # 10)])
             (0, 0)%Z in
  clicks (trace (snd r))
  = match mouse_click_at (fst r) with Some p => [p] | None => [] end
  /\ (mouse_click_at (fst r) <> None -> success (fst r) = true).
Proof.
  apply (execute_reports_its_click "click send" 32 3 None
           (fun _ : nat => sees [one_target 100 200 (9 # 10)] [one_target 300 300 (8 # 10)])
           (0, 0)%Z).
  intros n _. reflexivity.
Defined.

End GUIExecutor.
